(** * Red-black tree with recorded snapshots: model and verification

    Shallow embedding of the tree engine of the visualiser (the class
    [RedBlackTree], the serializer, the diff engine and the recorder).

    - Values are JavaScript numbers restricted by the callers to integers
      ([Number.isInteger]); they are modelled by [Z].  Where a value is
      turned into text (in a template literal or by [join]),
      [numberToString] renders it as [Number::toString] does.
    - [RBNode] objects live in a store [heap : gmap nat RBNode.t].  The
      object created when the counter had value [k] is stored at address
      [k]; its [id] field, the string [node-k], is [node_id k].  Object
      identity ([===] on nodes) is equality of addresses.
    - The methods mutate the store; here they pass the state explicitly.
      Reading a field of an address that is not in the store has no
      counterpart in the source and yields [None], as does a loop that
      exceeds its iteration budget [gas].
    - The [id] fields of snapshots and operation records are built from the
      clock and a random generator and are left out. *)

From stdpp Require Import base option gmap list strings pretty sorting.
From Stdlib Require Import ZArith Lia.

Local Open Scope Z_scope.

(** ** Data model *)

Inductive NodeColor := red | black.

#[global] Instance NodeColor_eq_dec : EqDecision NodeColor.
Proof. solve_decision. Defined.

Module SerializedNode.
Record t := mk {
  id : string;
  value : Z;
  color : NodeColor;
  parentId : option string;
  leftId : option string;
  rightId : option string
}.
End SerializedNode.

(** [added], [removed] and [moved] hold [{id, value}]; [recolored] holds
    [{id, value, from, to}]. *)
Record SnapshotChanges := mkChanges {
  added : list (string * Z);
  removed : list (string * Z);
  recolored : list (string * Z * NodeColor * NodeColor);
  moved : list (string * Z)
}.

Record TreeSnapshot := mkSnapshot {
  description : string;
  nodes : list SerializedNode.t;
  highlightNodeIds : list string;
  changes : SnapshotChanges
}.

Record OperationRecord := mkOperation {
  label : string;
  snapshots : list TreeSnapshot
}.

Module RBNode.
Record t := mk {
  value : Z;
  color : NodeColor;
  left : option nat;
  right : option nat;
  parent : option nat
}.
Definition with_color (c : NodeColor) (n : t) : t :=
  mk (value n) c (left n) (right n) (parent n).
Definition with_left (l : option nat) (n : t) : t :=
  mk (value n) (color n) l (right n) (parent n).
Definition with_right (r : option nat) (n : t) : t :=
  mk (value n) (color n) (left n) r (parent n).
Definition with_parent (p : option nat) (n : t) : t :=
  mk (value n) (color n) (left n) (right n) p.
End RBNode.

Record RedBlackTree := mkTree {
  heap : gmap nat RBNode.t;
  root : option nat;
  nodeCounter : nat
}.

Definition emptyTree : RedBlackTree := mkTree ∅ None 0.

(** The [id] of the node object at address [k]. *)
Definition node_id (k : nat) : string := "node-" +:+ pretty k.

(** ** Numbers as text

    A template literal [`${value}`] and [Array.prototype.join] turn a
    number into text by [Number::toString]: the digits are those of the
    shortest decimal numeral that is read back as the same double; of
    several, the one nearest to it, and of two equally near, the even one.
    A numeral of at most 21 digits is written in full, a longer one with
    an exponent.  An integer below 2^53 is its own shortest numeral. *)

(** The double nearest to the natural number [y], ties going to the even
    mantissa. *)
Definition toDouble (y : Z) : Z :=
  let p := Z.log2 y in
  if decide (p < 53) then y
  else
    let u := 2 ^ (p - 52) in
    let q := y / u in
    let r := y mod u in
    if decide (2 * r < u) then q * u
    else if decide (u < 2 * r) then (q + 1) * u
    else if Z.even q then q * u else (q + 1) * u.

(** Of the two multiples of [10^j] next to the double [d], the one that is
    read back as [d]; of two, the nearer one, or the even multiple. *)
Definition closest (d : Z) (j : nat) : option Z :=
  let w := 10 ^ Z.of_nat j in
  let lo := d / w * w in
  let hi := lo + w in
  match bool_decide (0 < lo ∧ toDouble lo = d), bool_decide (toDouble hi = d) with
  | true, true =>
      if decide (d - lo < hi - d) then Some lo
      else if decide (hi - d < d - lo) then Some hi
      else if Z.even (d / w) then Some lo else Some hi
  | true, false => Some lo
  | false, true => Some hi
  | false, false => None
  end.

(** The numeral with the fewest digits that is read back as [d]: the
    search goes from [10^j] down to the units. *)
Fixpoint shortest (d : Z) (j : nat) : Z :=
  match closest d j with
  | Some c => c
  | None => match j with O => d | S j => shortest d j end
  end.

(** [c] without its zeros at the end. *)
Fixpoint significand (fuel : nat) (c : Z) : Z :=
  match fuel with
  | O => c
  | S fuel => if decide (c mod 10 = 0) then significand fuel (c / 10) else c
  end.

(** [Number::toString] of a double [d] that is a positive integer. *)
Definition renderDouble (d : Z) : string :=
  let c := shortest d (String.length (pretty d)) in
  let n := String.length (pretty c) in
  if decide (n ≤ 21)%nat then pretty c
  else
    match pretty (significand n c) with
    | String a "" => String a "" +:+ "e+" +:+ pretty (n - 1)%nat
    | String a rest => String a ("." +:+ rest) +:+ "e+" +:+ pretty (n - 1)%nat
    | "" => ""
    end.

(** [`${value}`] for an integer [v]. *)
Definition numberToString (v : Z) : string :=
  if decide (v = 0) then "0"
  else if decide (v < 0) then "-" +:+ renderDouble (toDouble (- v))
  else renderDouble (toDouble v).

Arguments numberToString : simpl never.

(** ** Helpers of the source *)

(** [compact(...ids)] keeps the truthy entries: neither absent nor the
    empty string. *)
Definition compact (ids : list (option string)) : list string :=
  omap (λ o, match o with
             | Some s => if decide (s = "") then None else Some s
             | None => None
             end) ids.

Definition cloneNodes (ns : list SerializedNode.t) : list SerializedNode.t :=
  map (λ n, SerializedNode.mk (SerializedNode.id n) (SerializedNode.value n)
              (SerializedNode.color n) (SerializedNode.parentId n)
              (SerializedNode.leftId n) (SerializedNode.rightId n)) ns.

(** [new Map(list.map(node => [node.id, node]))]: a later entry with the
    same key replaces an earlier one. *)
Definition nodeMap (ns : list SerializedNode.t) : gmap string SerializedNode.t :=
  foldl (λ m n, <[SerializedNode.id n := n]> m) ∅ ns.

(** The callback of [current.forEach] in [diffSnapshots]. *)
Definition visitCurrent (prevMap : gmap string SerializedNode.t)
    (acc : SnapshotChanges) (node : SerializedNode.t) : SnapshotChanges :=
  match prevMap !! SerializedNode.id node with
  | None =>
      mkChanges (added acc ++ [(SerializedNode.id node, SerializedNode.value node)])
                (removed acc) (recolored acc) (moved acc)
  | Some prevNode =>
      let recolored' :=
        if decide (SerializedNode.color prevNode ≠ SerializedNode.color node)
        then recolored acc ++ [(SerializedNode.id node, SerializedNode.value node,
                                SerializedNode.color prevNode, SerializedNode.color node)]
        else recolored acc in
      let moved' :=
        if decide (SerializedNode.parentId prevNode ≠ SerializedNode.parentId node
                   ∨ SerializedNode.leftId prevNode ≠ SerializedNode.leftId node
                   ∨ SerializedNode.rightId prevNode ≠ SerializedNode.rightId node)
        then moved acc ++ [(SerializedNode.id node, SerializedNode.value node)]
        else moved acc in
      mkChanges (added acc) (removed acc) recolored' moved'
  end.

(** The callback of [previous.forEach] in [diffSnapshots]. *)
Definition visitPrevious (currentMap : gmap string SerializedNode.t)
    (acc : SnapshotChanges) (node : SerializedNode.t) : SnapshotChanges :=
  match currentMap !! SerializedNode.id node with
  | None =>
      mkChanges (added acc)
                (removed acc ++ [(SerializedNode.id node, SerializedNode.value node)])
                (recolored acc) (moved acc)
  | Some _ => acc
  end.

Definition diffSnapshots (previous current : list SerializedNode.t) : SnapshotChanges :=
  let prevMap := nodeMap previous in
  let currentMap := nodeMap current in
  foldl (visitPrevious currentMap)
    (foldl (visitCurrent prevMap) (mkChanges [] [] [] []) current) previous.

(** ** The tree engine *)

(** Iteration budget of the loops; the source has none.  [gas_enough]
    below shows that it is never used up on a tree built by the engine. *)
Definition gas (t : RedBlackTree) : nat := S (S (nodeCounter t)).

(** [x.f] for a node [x]. *)
Definition field {A} (f : RBNode.t → A) (t : RedBlackTree) (x : nat) : option A :=
  f <$> heap t !! x.

(** [o?.f ?? null] for a node-valued field [f]. *)
Definition optField (f : RBNode.t → option nat) (t : RedBlackTree) (o : option nat)
  : option (option nat) :=
  match o with
  | None => Some None
  | Some x => field f t x
  end.

(** [o?.id] *)
Definition optId (o : option nat) : option string := node_id <$> o.

Definition update (x : nat) (f : RBNode.t → RBNode.t) (t : RedBlackTree)
  : option RedBlackTree :=
  n ← heap t !! x;
  Some (mkTree (<[x := f n]> (heap t)) (root t) (nodeCounter t)).

Definition setRoot (r : option nat) (t : RedBlackTree) : RedBlackTree :=
  mkTree (heap t) r (nodeCounter t).

(** [if (o) o.f = v] *)
Definition updateOpt (o : option nat) (f : RBNode.t → RBNode.t) (t : RedBlackTree)
  : option RedBlackTree :=
  match o with
  | None => Some t
  | Some x => update x f t
  end.

Definition rotateLeft (x : nat) (t : RedBlackTree) : option RedBlackTree :=
  xr ← field RBNode.right t x;
  match xr with
  | None => Some t
  | Some y =>
      yl ← field RBNode.left t y;
      t ← update x (RBNode.with_right yl) t;
      yl ← field RBNode.left t y;
      t ← updateOpt yl (RBNode.with_parent (Some x)) t;
      xp ← field RBNode.parent t x;
      t ← update y (RBNode.with_parent xp) t;
      xp ← field RBNode.parent t x;
      t ← match xp with
          | None => Some (setRoot (Some y) t)
          | Some p =>
              pl ← field RBNode.left t p;
              if decide (Some x = pl)
              then update p (RBNode.with_left (Some y)) t
              else update p (RBNode.with_right (Some y)) t
          end;
      t ← update y (RBNode.with_left (Some x)) t;
      update x (RBNode.with_parent (Some y)) t
  end.

Definition rotateRight (x : nat) (t : RedBlackTree) : option RedBlackTree :=
  xl ← field RBNode.left t x;
  match xl with
  | None => Some t
  | Some y =>
      yr ← field RBNode.right t y;
      t ← update x (RBNode.with_left yr) t;
      yr ← field RBNode.right t y;
      t ← updateOpt yr (RBNode.with_parent (Some x)) t;
      xp ← field RBNode.parent t x;
      t ← update y (RBNode.with_parent xp) t;
      xp ← field RBNode.parent t x;
      t ← match xp with
          | None => Some (setRoot (Some y) t)
          | Some p =>
              pr ← field RBNode.right t p;
              if decide (Some x = pr)
              then update p (RBNode.with_right (Some y)) t
              else update p (RBNode.with_left (Some y)) t
          end;
      t ← update y (RBNode.with_right (Some x)) t;
      update x (RBNode.with_parent (Some y)) t
  end.

Fixpoint find_loop (fuel : nat) (value : Z) (h : gmap nat RBNode.t) (current : option nat)
  : option (option nat) :=
  match current with
  | None => Some None
  | Some c =>
      match fuel with
      | O => None
      | S fuel =>
          n ← h !! c;
          if decide (value = RBNode.value n) then Some (Some c)
          else find_loop fuel value h
                 (if decide (value < RBNode.value n) then RBNode.left n else RBNode.right n)
      end
  end.

Definition find (value : Z) (t : RedBlackTree) : option (option nat) :=
  find_loop (gas t) value (heap t) (root t).

Definition has (value : Z) (t : RedBlackTree) : option bool :=
  r ← find value t; Some (bool_decide (is_Some r)).

Definition reset (t : RedBlackTree) : RedBlackTree := emptyTree.

Definition exportNode (x : nat) (n : RBNode.t) : SerializedNode.t :=
  SerializedNode.mk (node_id x) (RBNode.value n) (RBNode.color n)
    (optId (RBNode.parent n)) (optId (RBNode.left n)) (optId (RBNode.right n)).

Fixpoint traverse (fuel : nat) (h : gmap nat RBNode.t) (node : option nat)
  : option (list SerializedNode.t) :=
  match node with
  | None => Some []
  | Some x =>
      match fuel with
      | O => None
      | S fuel =>
          n ← h !! x;
          l ← traverse fuel h (RBNode.left n);
          r ← traverse fuel h (RBNode.right n);
          Some (exportNode x n :: l ++ r)
      end
  end.

Definition serializeTree (t : RedBlackTree) : option (list SerializedNode.t) :=
  traverse (gas t) (heap t) (root t).

Definition transplant (u : nat) (v : option nat) (t : RedBlackTree) : option RedBlackTree :=
  up ← field RBNode.parent t u;
  t ← match up with
      | None => Some (setRoot v t)
      | Some p =>
          pl ← field RBNode.left t p;
          if decide (Some u = pl)
          then update p (RBNode.with_left v) t
          else update p (RBNode.with_right v) t
      end;
  up ← field RBNode.parent t u;
  updateOpt v (RBNode.with_parent up) t.

Fixpoint minimum_loop (fuel : nat) (h : gmap nat RBNode.t) (current : nat) : option nat :=
  match fuel with
  | O => None
  | S fuel =>
      n ← h !! current;
      match RBNode.left n with
      | Some l => minimum_loop fuel h l
      | None => Some current
      end
  end.

Definition minimum (node : nat) (t : RedBlackTree) : option nat :=
  minimum_loop (gas t) (heap t) node.

(** ** The recorder

    The closure [record] of [insert] and [delete] shares the variables
    [previousNodes] and [snapshots] with the running operation; [Session]
    holds them next to the tree. *)

Record Session := mkSession {
  tree : RedBlackTree;
  previousNodes : list SerializedNode.t;
  taken : list TreeSnapshot
}.

Definition startSession (t : RedBlackTree) : option Session :=
  ns ← serializeTree t;
  Some (mkSession t (cloneNodes ns) []).

Definition record (description : string) (highlightNodeIds : list string) (s : Session)
  : option Session :=
  nodes ← serializeTree (tree s);
  let presentIds : gset string := list_to_set (map SerializedNode.id nodes) in
  let validHighlights := filter (λ i, i ∈ presentIds) highlightNodeIds in
  let changes := diffSnapshots (previousNodes s) nodes in
  Some (mkSession (tree s) (cloneNodes nodes)
          (taken s ++ [mkSnapshot description nodes validHighlights changes])).

Definition onTree (f : RedBlackTree → option RedBlackTree) (s : Session) : option Session :=
  t ← f (tree s);
  Some (mkSession t (previousNodes s) (taken s)).

Definition setColor (x : nat) (c : NodeColor) : Session → option Session :=
  onTree (update x (RBNode.with_color c)).

Definition get {A} (f : RBNode.t → A) (s : Session) (x : nat) : option A :=
  field f (tree s) x.

Definition getOpt (f : RBNode.t → option nat) (s : Session) (o : option nat)
  : option (option nat) :=
  optField f (tree s) o.

(** ** Insertion *)

(** The body of [fixInsert]'s loop is split into its three kinds of
    steps; each takes [parent.value] and [grandParent.value] for the
    description it records. *)

(** Parent and uncle are red: recolour (both sides of the loop). *)
Definition recolorStep (parent uncle grandParent : nat) (pv : Z) (s : Session)
  : option Session :=
  s ← setColor parent black s;
  s ← setColor uncle black s;
  s ← setColor grandParent red s;
  uv ← get RBNode.value s uncle;
  record ("부모(" +:+ numberToString pv +:+ ")와 삼촌(" +:+ numberToString uv +:+ ")이 빨강이므로 재색칠")
    [node_id parent; node_id uncle; node_id grandParent] s.

(** The parent is the left child of the grandparent and the uncle is not
    red; the result is the new [node]. *)
Definition rotateStepL (node parent grandParent : nat) (pv gv : Z) (s : Session)
  : option (nat * Session) :=
  pr ← get RBNode.right s parent;
  '(node, s) ←
    (if decide (Some node = pr) then
       s ← onTree (rotateLeft parent) s;
       pp ← get RBNode.parent s parent;
       s ← record ("왼쪽 회전 (축: " +:+ numberToString pv +:+ ")")
              (compact [Some (node_id parent); optId pp]) s;
       Some (parent, s)
     else Some (node, s));
  s ← setColor parent black s;
  s ← setColor grandParent red s;
  s ← onTree (rotateRight grandParent) s;
  pp ← get RBNode.parent s parent;
  s ← record ("오른쪽 회전 (축: " +:+ numberToString gv +:+ ")")
         (compact [Some (node_id parent); Some (node_id grandParent); optId pp]) s;
  Some (node, s).

(** The mirrored step: the parent is the right child of the grandparent. *)
Definition rotateStepR (node parent grandParent : nat) (pv gv : Z) (s : Session)
  : option (nat * Session) :=
  pl ← get RBNode.left s parent;
  '(node, s) ←
    (if decide (Some node = pl) then
       s ← onTree (rotateRight parent) s;
       pp ← get RBNode.parent s parent;
       s ← record ("오른쪽 회전 (축: " +:+ numberToString pv +:+ ")")
              (compact [Some (node_id parent); optId pp]) s;
       Some (parent, s)
     else Some (node, s));
  s ← setColor parent black s;
  s ← setColor grandParent red s;
  s ← onTree (rotateLeft grandParent) s;
  pp ← get RBNode.parent s parent;
  s ← record ("왼쪽 회전 (축: " +:+ numberToString gv +:+ ")")
         (compact [Some (node_id parent); Some (node_id grandParent); optId pp]) s;
  Some (node, s).

Fixpoint fixInsert (fuel : nat) (node : nat) (s : Session) : option Session :=
  match fuel with
  | O => None
  | S fuel =>
      if decide (Some node = root (tree s)) then Some s else
      np ← get RBNode.parent s node;
      match np with
      | None => Some s
      | Some parent =>
          pc ← get RBNode.color s parent;
          if decide (pc = red) then
            gp ← get RBNode.parent s parent;
            match gp with
            | None => Some s
            | Some grandParent =>
                pv ← get RBNode.value s parent;
                gv ← get RBNode.value s grandParent;
                gl ← get RBNode.left s grandParent;
                if decide (Some parent = gl) then
                  uncle ← get RBNode.right s grandParent;
                  uc ← match uncle with
                       | Some u => c ← get RBNode.color s u; Some (Some c)
                       | None => Some None
                       end;
                  match uncle, uc with
                  | Some u, Some red =>
                      s ← recolorStep parent u grandParent pv s;
                      fixInsert fuel grandParent s
                  | _, _ =>
                      '(node, s) ← rotateStepL node parent grandParent pv gv s;
                      fixInsert fuel node s
                  end
                else
                  uncle ← get RBNode.left s grandParent;
                  uc ← match uncle with
                       | Some u => c ← get RBNode.color s u; Some (Some c)
                       | None => Some None
                       end;
                  match uncle, uc with
                  | Some u, Some red =>
                      s ← recolorStep parent u grandParent pv s;
                      fixInsert fuel grandParent s
                  | _, _ =>
                      '(node, s) ← rotateStepR node parent grandParent pv gv s;
                      fixInsert fuel node s
                  end
            end
          else Some s
      end
  end.

(** The descent [while (current) { parent = current; ... }] of [insert]. *)
Fixpoint descend (fuel : nat) (value : Z) (h : gmap nat RBNode.t)
    (parent current : option nat) : option (option nat) :=
  match current with
  | None => Some parent
  | Some c =>
      match fuel with
      | O => None
      | S fuel =>
          n ← h !! c;
          descend fuel value h (Some c)
            (if decide (value < RBNode.value n) then RBNode.left n else RBNode.right n)
      end
  end.

Definition insert (value : Z) (t : RedBlackTree) : option (RedBlackTree * OperationRecord) :=
  s ← startSession t;
  existing ← find value t;
  match existing with
  | Some e =>
      s ← record (numberToString value +:+ " 이미 트리에 존재합니다.") [node_id e] s;
      Some (tree s, mkOperation (numberToString value +:+ " 삽입 취소") (taken s))
  | None =>
      let newNode := nodeCounter t in
      let t := mkTree (<[newNode := RBNode.mk value red None None None]> (heap t))
                 (root t) (S (nodeCounter t)) in
      parent ← descend (gas t) value (heap t) None (root t);
      t ← update newNode (RBNode.with_parent parent) t;
      s ← match parent with
          | None =>
              record (numberToString value +:+ "를 루트로 삽입") [node_id newNode]
                (mkSession (setRoot (Some newNode) t) (previousNodes s) (taken s))
          | Some p =>
              pv ← field RBNode.value t p;
              if decide (value < pv) then
                t ← update p (RBNode.with_left (Some newNode)) t;
                record (numberToString value +:+ "를 " +:+ numberToString pv +:+ "의 왼쪽 자식으로 삽입")
                  [node_id newNode; node_id p]
                  (mkSession t (previousNodes s) (taken s))
              else
                t ← update p (RBNode.with_right (Some newNode)) t;
                record (numberToString value +:+ "를 " +:+ numberToString pv +:+ "의 오른쪽 자식으로 삽입")
                  [node_id newNode; node_id p]
                  (mkSession t (previousNodes s) (taken s))
          end;
      s ← fixInsert (gas (tree s)) newNode s;
      s ← match root (tree s) with
          | Some r =>
              s ← setColor r black s;
              record "루트를 검은색으로 유지" [node_id r] s
          | None => Some s
          end;
      Some (tree s, mkOperation (numberToString value +:+ " 삽입") (taken s))
  end.

(** ** Deletion *)

(** [isBlack] of [fixDelete]: an absent node counts as black. *)
Definition isBlack (s : Session) (target : option nat) : option bool :=
  match target with
  | None => Some true
  | Some x => c ← get RBNode.color s x; Some (bool_decide (c = black))
  end.

(** The body of [fixDelete]'s loop is split into its steps; [L] marks the
    branch where [current] is the left child, [R] the mirrored one. *)

(** The sibling is red: recolour, rotate the parent and fetch the new
    sibling.  The result is the sibling the loop goes on with. *)
Definition redSiblingL (p sib : nat) (s : Session) : option (option nat * Session) :=
  sc ← get RBNode.color s sib;
  if decide (sc = red) then
    s ← setColor sib black s;
    s ← setColor p red s;
    sl ← get RBNode.left s sib;
    sr ← get RBNode.right s sib;
    s ← record "형제가 빨강이므로 왼쪽 회전 준비"
           (compact [Some (node_id p); Some (node_id sib); optId sl; optId sr]) s;
    s ← onTree (rotateLeft p) s;
    pv ← get RBNode.value s p;
    pp ← get RBNode.parent s p;
    sl ← get RBNode.left s sib;
    sr ← get RBNode.right s sib;
    s ← record ("왼쪽 회전 (축: " +:+ numberToString pv +:+ ")")
           (compact [Some (node_id sib); Some (node_id p); optId pp;
                     optId sl; optId sr]) s;
    sibling ← get RBNode.right s p;
    Some (sibling, s)
  else Some (Some sib, s).

Definition redSiblingR (p sib : nat) (s : Session) : option (option nat * Session) :=
  sc ← get RBNode.color s sib;
  if decide (sc = red) then
    s ← setColor sib black s;
    s ← setColor p red s;
    sl ← get RBNode.left s sib;
    sr ← get RBNode.right s sib;
    s ← record "형제가 빨강이므로 오른쪽 회전 준비"
           (compact [Some (node_id p); Some (node_id sib); optId sl; optId sr]) s;
    s ← onTree (rotateRight p) s;
    pv ← get RBNode.value s p;
    pp ← get RBNode.parent s p;
    sl ← get RBNode.left s sib;
    sr ← get RBNode.right s sib;
    s ← record ("오른쪽 회전 (축: " +:+ numberToString pv +:+ ")")
           (compact [Some (node_id sib); Some (node_id p); optId pp;
                     optId sl; optId sr]) s;
    sibling ← get RBNode.left s p;
    Some (sibling, s)
  else Some (Some sib, s).

(** [isBlack(sibling?.left ?? null) && isBlack(sibling?.right ?? null)];
    the mirrored branch tests the right child first, to the same effect. *)
Definition bothBlack (sibling : option nat) (s : Session) : option bool :=
  sl ← getOpt RBNode.left s sibling;
  sr ← getOpt RBNode.right s sibling;
  bl ← isBlack s sl;
  br ← isBlack s sr;
  Some (bl && br).

(** Sibling and its children are black: [if (sibling) { sibling.color =
    'red'; record(...) }]. *)
Definition pushUp (p : nat) (sibling : option nat) (s : Session) : option Session :=
  match sibling with
  | Some sb =>
      s ← setColor sb red s;
      record "형제와 그 자식이 모두 검정 -> 형제를 빨강으로"
        (compact [Some (node_id sb); Some (node_id p)]) s
  | None => Some s
  end.

(** The sibling has a red child: the two closing rotations. *)
Definition finishL (p : nat) (sibling : option nat) (s : Session) : option Session :=
  sr ← getOpt RBNode.right s sibling;
  br ← isBlack s sr;
  '(sibling, s) ←
    (if (br : bool) then
       sl ← getOpt RBNode.left s sibling;
       s ← onTree (updateOpt sl (RBNode.with_color black)) s;
       s ← match sibling with
           | Some sb =>
               s ← setColor sb red s;
               sl ← get RBNode.left s sb;
               sr ← get RBNode.right s sb;
               s ← record "형제의 왼쪽 자식이 빨강 -> 오른쪽 회전"
                      (compact [Some (node_id sb); optId sl; optId sr]) s;
               onTree (rotateRight sb) s
           | None => Some s
           end;
       sibling ← get RBNode.right s p;
       Some (sibling, s)
     else Some (sibling, s));
  s ← match sibling with
      | Some sb =>
          pc ← get RBNode.color s p;
          s ← setColor sb pc s;
          sr ← get RBNode.right s sb;
          onTree (updateOpt sr (RBNode.with_color black)) s
      | None => Some s
      end;
  s ← setColor p black s;
  sr ← getOpt RBNode.right s sibling;
  sl ← getOpt RBNode.left s sibling;
  s ← record "형제의 오른쪽 자식이 빨강 -> 왼쪽 회전"
         (compact [Some (node_id p); optId sibling; optId sr; optId sl]) s;
  onTree (rotateLeft p) s.

Definition finishR (p : nat) (sibling : option nat) (s : Session) : option Session :=
  sl ← getOpt RBNode.left s sibling;
  bl ← isBlack s sl;
  '(sibling, s) ←
    (if (bl : bool) then
       sr ← getOpt RBNode.right s sibling;
       s ← onTree (updateOpt sr (RBNode.with_color black)) s;
       s ← match sibling with
           | Some sb =>
               s ← setColor sb red s;
               sl ← get RBNode.left s sb;
               sr ← get RBNode.right s sb;
               s ← record "형제의 오른쪽 자식이 빨강 -> 왼쪽 회전"
                      (compact [Some (node_id sb); optId sl; optId sr]) s;
               onTree (rotateLeft sb) s
           | None => Some s
           end;
       sibling ← get RBNode.left s p;
       Some (sibling, s)
     else Some (sibling, s));
  s ← match sibling with
      | Some sb =>
          pc ← get RBNode.color s p;
          s ← setColor sb pc s;
          sl ← get RBNode.left s sb;
          onTree (updateOpt sl (RBNode.with_color black)) s
      | None => Some s
      end;
  s ← setColor p black s;
  sl ← getOpt RBNode.left s sibling;
  sr ← getOpt RBNode.right s sibling;
  s ← record "형제의 왼쪽 자식이 빨강 -> 오른쪽 회전"
         (compact [Some (node_id p); optId sibling; optId sl; optId sr]) s;
  onTree (rotateRight p) s.

(** The loop of [fixDelete]; it returns the final [current].  When
    [currentParent] is absent, [currentParent?.left ?? null] and the sibling
    are absent in either branch, and the loop continues with both variables
    absent. *)
Fixpoint fixDelete_loop (fuel : nat) (current currentParent : option nat) (s : Session)
  : option (option nat * Session) :=
  match fuel with
  | O => None
  | S fuel =>
      cb ← isBlack s current;
      if decide (current ≠ root (tree s) ∧ cb = true) then
        match currentParent with
        | None => fixDelete_loop fuel None None s
        | Some p =>
            pl ← get RBNode.left s p;
            if decide (current = pl) then
              sibling ← get RBNode.right s p;
              match sibling with
              | None =>
                  pp ← get RBNode.parent s p;
                  fixDelete_loop fuel (Some p) pp s
              | Some sib =>
                  '(sibling, s) ← redSiblingL p sib s;
                  bb ← bothBlack sibling s;
                  if (bb : bool) then
                    s ← pushUp p sibling s;
                    pp ← get RBNode.parent s p;
                    fixDelete_loop fuel (Some p) pp s
                  else
                    s ← finishL p sibling s;
                    Some (root (tree s), s)
              end
            else
              sibling ← get RBNode.left s p;
              match sibling with
              | None =>
                  pp ← get RBNode.parent s p;
                  fixDelete_loop fuel (Some p) pp s
              | Some sib =>
                  '(sibling, s) ← redSiblingR p sib s;
                  bb ← bothBlack sibling s;
                  if (bb : bool) then
                    s ← pushUp p sibling s;
                    pp ← get RBNode.parent s p;
                    fixDelete_loop fuel (Some p) pp s
                  else
                    s ← finishR p sibling s;
                    Some (root (tree s), s)
              end
        end
      else Some (current, s)
  end.

Definition fixDelete (node parent : option nat) (s : Session) : option Session :=
  '(current, s) ← fixDelete_loop (gas (tree s)) node parent s;
  match current with
  | Some c =>
      s ← setColor c black s;
      record "마지막으로 검정색으로 설정" [node_id c] s
  | None => Some s
  end.

(** [y.right = z.right; if (y.right) y.right.parent = y] *)
Definition adoptRight (z y : nat) (t : RedBlackTree) : option RedBlackTree :=
  zr ← field RBNode.right t z;
  t ← update y (RBNode.with_right zr) t;
  yr ← field RBNode.right t y;
  updateOpt yr (RBNode.with_parent (Some y)) t.

(** [this.transplant(z, y); y.left = z.left; if (y.left) y.left.parent = y;
    y.color = z.color] *)
Definition replaceBy (z y : nat) (t : RedBlackTree) : option RedBlackTree :=
  t ← transplant z (Some y) t;
  zl ← field RBNode.left t z;
  t ← update y (RBNode.with_left zl) t;
  yl ← field RBNode.left t y;
  t ← updateOpt yl (RBNode.with_parent (Some y)) t;
  zc ← field RBNode.color t z;
  update y (RBNode.with_color zc) t.

(** The first half of [delete], after the target [z] is found: [z] is
    unlinked, and the colour that left the tree ([yOriginalColor]) comes
    back with [x] and [xParent]. *)
Definition unlink (value : Z) (z : nat) (s : Session)
  : option (NodeColor * option nat * option nat * Session) :=
  zc ← get RBNode.color s z;
  zl ← get RBNode.left s z;
  zr ← get RBNode.right s z;
  match zl, zr with
  | None, _ =>
      xParent ← get RBNode.parent s z;
      s ← onTree (transplant z zr) s;
      zr' ← get RBNode.right s z;
      zp' ← get RBNode.parent s z;
      s ← record (numberToString value +:+ "의 오른쪽 자식으로 대체")
             (compact [Some (node_id z); optId zr'; optId zp']) s;
      Some (zc, zr, xParent, s)
  | Some _, None =>
      xParent ← get RBNode.parent s z;
      s ← onTree (transplant z zl) s;
      zl' ← get RBNode.left s z;
      zp' ← get RBNode.parent s z;
      s ← record (numberToString value +:+ "의 왼쪽 자식으로 대체")
             (compact [Some (node_id z); optId zl'; optId zp']) s;
      Some (zc, zl, xParent, s)
  | Some _, Some r =>
      y ← minimum r (tree s);
      yOriginalColor ← get RBNode.color s y;
      yv ← get RBNode.value s y;
      x ← get RBNode.right s y;
      yp ← get RBNode.parent s y;
      '(xParent, s) ←
        (if decide (yp = Some z) then
           s ← onTree (updateOpt x (RBNode.with_parent (Some y))) s;
           Some (Some y, s)
         else
           yr ← get RBNode.right s y;
           s ← onTree (transplant y yr) s;
           yr' ← get RBNode.right s y;
           yp' ← get RBNode.parent s y;
           s ← record (numberToString yv +:+ "를 오른쪽 서브트리에서 끌어올림")
                  (compact [Some (node_id y); optId yr'; optId yp']) s;
           s ← onTree (adoptRight z y) s;
           Some (yp, s));
      s ← onTree (replaceBy z y) s;
      yl' ← get RBNode.left s y;
      yr' ← get RBNode.right s y;
      s ← record (numberToString value +:+ " 대신 " +:+ numberToString yv +:+ "로 대체")
             (compact [Some (node_id y); optId yl'; optId yr']) s;
      Some (yOriginalColor, x, xParent, s)
  end.

Definition delete (value : Z) (t : RedBlackTree) : option (RedBlackTree * OperationRecord) :=
  s ← startSession t;
  target ← find value t;
  match target with
  | None =>
      s ← record (numberToString value +:+ " 값을 갖는 노드를 찾지 못했습니다.") [] s;
      Some (tree s, mkOperation (numberToString value +:+ " 삭제 취소") (taken s))
  | Some z =>
      s ← record (numberToString value +:+ " 노드를 삭제합니다.") [node_id z] s;
      '(yOriginalColor, x, xParent, s) ← unlink value z s;
      s ← (if decide (yOriginalColor = black) then fixDelete x xParent s else Some s);
      s ← match root (tree s) with
          | Some r =>
              s ← setColor r black s;
              record "루트를 검은색으로 유지" [node_id r] s
          | None => record "트리가 비어 있습니다." [] s
          end;
      Some (tree s, mkOperation (numberToString value +:+ " 삭제") (taken s))
  end.

(** Running a list of calls from a given tree, keeping every operation
    record. *)
Inductive Call := Insert (value : Z) | Delete (value : Z).

Definition call (c : Call) (t : RedBlackTree) : option (RedBlackTree * OperationRecord) :=
  match c with
  | Insert v => insert v t
  | Delete v => delete v t
  end.

Fixpoint run (cs : list Call) (t : RedBlackTree)
  : option (RedBlackTree * list OperationRecord) :=
  match cs with
  | [] => Some (t, [])
  | c :: cs =>
      '(t, op) ← call c t;
      '(t, ops) ← run cs t;
      Some (t, op :: ops)
  end.

Definition ids (ns : list SerializedNode.t) : list string := map SerializedNode.id ns.

Definition relinked (p n : SerializedNode.t) : Prop :=
  SerializedNode.parentId p ≠ SerializedNode.parentId n
  ∨ SerializedNode.leftId p ≠ SerializedNode.leftId n
  ∨ SerializedNode.rightId p ≠ SerializedNode.rightId n.

Definition addedAt (m : gmap string SerializedNode.t) (n : SerializedNode.t)
  : option (string * Z) :=
  match m !! SerializedNode.id n with
  | None => Some (SerializedNode.id n, SerializedNode.value n)
  | Some _ => None
  end.

Definition recoloredAt (m : gmap string SerializedNode.t) (n : SerializedNode.t)
  : option (string * Z * NodeColor * NodeColor) :=
  match m !! SerializedNode.id n with
  | Some p =>
      if decide (SerializedNode.color p ≠ SerializedNode.color n)
      then Some (SerializedNode.id n, SerializedNode.value n,
                 SerializedNode.color p, SerializedNode.color n)
      else None
  | None => None
  end.

Definition movedAt (m : gmap string SerializedNode.t) (n : SerializedNode.t)
  : option (string * Z) :=
  match m !! SerializedNode.id n with
  | Some p =>
      if decide (relinked p n)
      then Some (SerializedNode.id n, SerializedNode.value n) else None
  | None => None
  end.

(** * Red-black invariants and the in-order sequence, read off the store *)

(** [inTree t x]: the node [x] is reached from the root through child links. *)
Inductive inTree (t : RedBlackTree) : nat → Prop :=
| inTree_root r : root t = Some r → inTree t r
| inTree_left x n c :
    inTree t x → heap t !! x = Some n → RBNode.left n = Some c → inTree t c
| inTree_right x n c :
    inTree t x → heap t !! x = Some n → RBNode.right n = Some c → inTree t c.

(** [blackPaths h o k]: every path from [o] down to an absent child holds
    [k] black nodes (an absent child counts as black and is not counted). *)
Inductive blackPaths (h : gmap nat RBNode.t) : option nat → nat → Prop :=
| blackPaths_absent : blackPaths h None 0
| blackPaths_node x n k k' :
    h !! x = Some n →
    blackPaths h (RBNode.left n) k →
    blackPaths h (RBNode.right n) k →
    k' = (if decide (RBNode.color n = black) then S k else k) →
    blackPaths h (Some x) k'.

Definition rootBlack (t : RedBlackTree) : Prop :=
  ∀ r n, root t = Some r → heap t !! r = Some n → RBNode.color n = black.

Definition noRedRed (t : RedBlackTree) : Prop :=
  ∀ x n c nc,
    inTree t x → heap t !! x = Some n → RBNode.color n = red →
    RBNode.left n = Some c ∨ RBNode.right n = Some c →
    heap t !! c = Some nc → RBNode.color nc = black.

Definition blackBalanced (t : RedBlackTree) : Prop :=
  ∀ x, inTree t x → ∃ k, blackPaths (heap t) (Some x) k.

(** Invariants 1 and 2 hold by construction: [NodeColor] has two values and
    [blackPaths] counts nothing for an absent child. *)
Definition redBlack (t : RedBlackTree) : Prop :=
  noRedRed t ∧ blackBalanced t ∧ rootBlack t.

Fixpoint inorder (fuel : nat) (h : gmap nat RBNode.t) (node : option nat)
  : option (list Z) :=
  match node with
  | None => Some []
  | Some x =>
      match fuel with
      | O => None
      | S fuel =>
          n ← h !! x;
          l ← inorder fuel h (RBNode.left n);
          r ← inorder fuel h (RBNode.right n);
          Some (l ++ RBNode.value n :: r)
      end
  end.

Definition inorderValues (t : RedBlackTree) : option (list Z) :=
  inorder (gas t) (heap t) (root t).

(** * Scenarios *)

Definition exported (i : string) (v : Z) (c : NodeColor) (p l r : option string)
  : SerializedNode.t := SerializedNode.mk i v c p l r.

(** * Tree shapes represented in the store *)

(** The shape of the tree hanging below a node: addresses and values, in
    the positions the child links give them.  Colours stay in the store. *)
Inductive Shape :=
| E
| N (l : Shape) (x : nat) (v : Z) (r : Shape).

Definition top (T : Shape) : option nat :=
  match T with E => None | N _ x _ _ => Some x end.

Fixpoint keys (T : Shape) : list nat :=
  match T with E => [] | N l x _ r => keys l ++ x :: keys r end.

Fixpoint vals (T : Shape) : list Z :=
  match T with E => [] | N l _ v r => vals l ++ v :: vals r end.

Fixpoint preorder (T : Shape) : list nat :=
  match T with E => [] | N l x _ r => x :: preorder l ++ preorder r end.

Fixpoint height (T : Shape) : nat :=
  match T with E => O | N l _ _ r => S (height l `max` height r) end.

(** [linked h p T]: the store [h] holds the nodes of [T], linked as [T]
    says, below the parent [p]. *)
Fixpoint linked (h : gmap nat RBNode.t) (p : option nat) (T : Shape) : Prop :=
  match T with
  | E => True
  | N l x v r =>
      ∃ n, h !! x = Some n
           ∧ RBNode.value n = v ∧ RBNode.parent n = p
           ∧ RBNode.left n = top l ∧ RBNode.right n = top r
           ∧ linked h (Some x) l ∧ linked h (Some x) r
  end.

(** One step of the way from a subtree up to the root: the parent and the
    sibling subtree. *)
Inductive Frame :=
| InLeft (x : nat) (v : Z) (r : Shape)
| InRight (l : Shape) (x : nat) (v : Z).

Definition frameKey (f : Frame) : nat :=
  match f with InLeft x _ _ => x | InRight _ x _ => x end.

(** [plug T c]: the whole tree, given a subtree [T] and the way [c] from it
    up to the root (nearest frame first). *)
Fixpoint plug (T : Shape) (c : list Frame) : Shape :=
  match c with
  | [] => T
  | InLeft x v r :: c => plug (N T x v r) c
  | InRight l x v :: c => plug (N l x v T) c
  end.

Definition above (c : list Frame) : option nat := frameKey <$> head c.

Fixpoint pathRoot (o : option nat) (c : list Frame) : option nat :=
  match c with
  | [] => o
  | f :: c => pathRoot (Some (frameKey f)) c
  end.

Fixpoint before (c : list Frame) : list nat :=
  match c with
  | [] => []
  | InLeft _ _ _ :: c => before c
  | InRight l x _ :: c => before c ++ keys l ++ [x]
  end.

Fixpoint after (c : list Frame) : list nat :=
  match c with
  | [] => []
  | InLeft x _ r :: c => x :: keys r ++ after c
  | InRight _ _ _ :: c => after c
  end.

Fixpoint vbefore (c : list Frame) : list Z :=
  match c with
  | [] => []
  | InLeft _ _ _ :: c => vbefore c
  | InRight l _ v :: c => vbefore c ++ vals l ++ [v]
  end.

Fixpoint vafter (c : list Frame) : list Z :=
  match c with
  | [] => []
  | InLeft _ v r :: c => v :: vals r ++ vafter c
  | InRight _ _ _ :: c => vafter c
  end.

(** [linkedPath h o c]: the store holds the frames of [c], the nearest one
    having [o] in the slot the subtree hangs from. *)
Fixpoint linkedPath (h : gmap nat RBNode.t) (o : option nat) (c : list Frame) : Prop :=
  match c with
  | [] => True
  | InLeft x v r :: c =>
      ∃ n, h !! x = Some n
           ∧ RBNode.value n = v ∧ RBNode.parent n = above c
           ∧ RBNode.left n = o ∧ RBNode.right n = top r
           ∧ linked h (Some x) r ∧ linkedPath h (Some x) c
  | InRight l x v :: c =>
      ∃ n, h !! x = Some n
           ∧ RBNode.value n = v ∧ RBNode.parent n = above c
           ∧ RBNode.left n = top l ∧ RBNode.right n = o
           ∧ linked h (Some x) l ∧ linkedPath h (Some x) c
  end.

(** [Rep t T]: the tree object [t] holds exactly the tree [T]: the root is
    its top, the links are as [T] says, no node occurs twice and every node
    was created before the counter reached its present value. *)
Definition Rep (t : RedBlackTree) (T : Shape) : Prop :=
  root t = top T
  ∧ linked (heap t) None T
  ∧ NoDup (keys T)
  ∧ ∀ x, x ∈ keys T → (x < nodeCounter t)%nat.

(** Stores that differ at most on the keys [ks]. *)
Definition agreeOff (ks : list nat) (h h' : gmap nat RBNode.t) : Prop :=
  ∀ k, k ∉ ks → h' !! k = h !! k.

(** The child slot of a frame, set to [o]. *)
Definition reslot (f : Frame) (o : option nat) (n : RBNode.t) : RBNode.t :=
  match f with
  | InLeft _ _ _ => RBNode.with_left o n
  | InRight _ _ _ => RBNode.with_right o n
  end.

Definition sibling (f : Frame) : Shape :=
  match f with InLeft _ _ r => r | InRight l _ _ => l end.

(** * What the serializer exports *)

(** The export of a tree of shape [T]: each node, then its left subtree,
    then its right subtree. *)
Fixpoint exports (h : gmap nat RBNode.t) (T : Shape) : list SerializedNode.t :=
  match T with
  | E => []
  | N l x _ r =>
      match h !! x with
      | Some n => [exportNode x n]
      | None => []
      end ++ exports h l ++ exports h r
  end.

(** * Well-formed exports *)

(** What every exported node list should satisfy: identifiers are pairwise
    distinct, a child named by [leftId] or [rightId] is in the list and
    names the node as its parent, and a non-empty list has exactly one
    node without parent. *)
Definition wellFormedExport (ns : list SerializedNode.t) : Prop :=
  NoDup (ids ns)
  ∧ (∀ n i, n ∈ ns →
       SerializedNode.leftId n = Some i ∨ SerializedNode.rightId n = Some i →
       ∃ m, m ∈ ns ∧ SerializedNode.id m = i
            ∧ SerializedNode.parentId m = Some (SerializedNode.id n))
  ∧ (ns ≠ [] →
       ∃ r, r ∈ ns ∧ SerializedNode.parentId r = None
            ∧ ∀ m, m ∈ ns → SerializedNode.parentId m = None → m = r).

(** * Sessions that stay sound *)

Definition okSnapshot (sn : TreeSnapshot) : Prop := wellFormedExport (nodes sn).

(** [Sound s0 s T]: the tree of the running operation holds the shape [T],
    every snapshot taken so far is well formed, and the log has only grown
    since [s0]. *)
Definition Sound (s0 s : Session) (T : Shape) : Prop :=
  Rep (tree s) T
  ∧ Forall okSnapshot (taken s)
  ∧ taken s0 `prefix_of` taken s.

(** The colour of a node, when it is in the store. *)
Definition colorOf (s : Session) (x : nat) : option NodeColor := get RBNode.color s x.

#[global] Arguments setColor : simpl never.
#[global] Arguments record : simpl never.
#[global] Arguments onTree : simpl never.
#[global] Arguments get : simpl never.
#[global] Arguments getOpt : simpl never.
#[global] Arguments rotateLeft : simpl never.
#[global] Arguments rotateRight : simpl never.

(** * Rotations keep the colours *)

Definition sameColors (t t' : RedBlackTree) : Prop :=
  ∀ k, RBNode.color <$> heap t' !! k = RBNode.color <$> heap t !! k.

(** * Search and descent *)

(** The tree is a search tree when its values, read in order, increase. *)
Definition bst (T : Shape) : Prop := StronglySorted Z.lt (vals T).

(** [steered v c]: going down along [c] is what the comparisons with [v]
    ask for: left below a larger value, right otherwise. *)
Definition steered (v : Z) (c : list Frame) : Prop :=
  Forall (λ f, match f with
               | InLeft _ xv _ => v < xv
               | InRight _ _ xv => ¬ v < xv
               end) c.

(** * The successor *)

Definition leftward (f : Frame) : Prop :=
  match f with InLeft _ _ _ => True | InRight _ _ _ => False end.

(** * The invariant of the class *)

(** The store holds a tree shape whose values increase in order. *)
Definition Inv (t : RedBlackTree) : Prop := ∃ T, Rep t T ∧ bst T.

(** What every call returns: the tree keeps the invariant, every snapshot is
    well formed, and the first snapshot is diffed against the export of the
    tree as the call found it. *)
Definition goodRecord (t : RedBlackTree) (op : OperationRecord) : Prop :=
  Forall okSnapshot (snapshots op)
  ∧ ∃ ns sn rest,
      serializeTree t = Some ns
      ∧ snapshots op = sn :: rest
      ∧ changes sn = diffSnapshots ns (nodes sn).

(** * Results *)

(** The tree and the records a list of calls leaves, from the empty tree. *)
Definition outcome (cs : list Call) : RedBlackTree * list OperationRecord :=
  default (emptyTree, []) (run cs emptyTree).

Definition pairOf (n : SerializedNode.t) : string * Z :=
  (SerializedNode.id n, SerializedNode.value n).

(** ** [minimum] *)

(** [below t x z]: the node [z] is [x] or is reached from [x] through child
    links. *)
Inductive below (t : RedBlackTree) (x : nat) : nat → Prop :=
| below_self : below t x x
| below_left z n c :
    below t x z → heap t !! z = Some n → RBNode.left n = Some c → below t x c
| below_right z n c :
    below t x z → heap t !! z = Some n → RBNode.right n = Some c → below t x c.

(** * The change summary (changeSummary.ts) *)

Inductive ChangeChipKind := chipAdded | chipRemoved | chipRecolored | chipMoved.

#[global] Instance ChangeChipKind_eq_dec : EqDecision ChangeChipKind.
Proof. solve_decision. Defined.

Module ChangeChip.
Record t := mk {
  key : string;
  kind : ChangeChipKind;
  text : string
}.
End ChangeChip.

Definition colorLabelMap (c : NodeColor) : string :=
  match c with red => "빨강" | black => "검정" end.

(** [xs.join(sep)] on strings. *)
Definition join (sep : string) (xs : list string) : string :=
  match xs with
  | [] => ""
  | x :: xs => foldl (λ acc y, acc +:+ sep +:+ y) x xs
  end.

Definition formatValues (values : list Z) : string :=
  if decide (length values = 0%nat) then ""
  else if decide (length values ≤ 3)%nat then join ", " (numberToString <$> values)
  else join ", " (numberToString <$> take 3 values) +:+ " 외 " +:+ pretty (length values - 3)%nat.

(** The text of one recoloured node: [`${item.value}: ${from}→${to}`]. *)
Definition recoloredText (item : string * Z * NodeColor * NodeColor) : string :=
  let '(_, value, from, to) := item in
  numberToString value +:+ ": " +:+ colorLabelMap from +:+ "→" +:+ colorLabelMap to.

Definition buildChangeChips (changes : SnapshotChanges) : list ChangeChip.t :=
  let chips : list ChangeChip.t := [] in
  let chips :=
    if decide (length (added changes) ≠ 0%nat) then
      chips ++ [ChangeChip.mk ("added-" +:+ join "-" (fst <$> added changes)) chipAdded
                  ("+ " +:+ formatValues (snd <$> added changes))]
    else chips in
  let chips :=
    if decide (length (removed changes) ≠ 0%nat) then
      chips ++ [ChangeChip.mk ("removed-" +:+ join "-" (fst <$> removed changes)) chipRemoved
                  ("- " +:+ formatValues (snd <$> removed changes))]
    else chips in
  let chips :=
    if decide (length (recolored changes) ≠ 0%nat) then
      let text := join ", " (recoloredText <$> take 3 (recolored changes)) in
      let suffix :=
        if decide (3 < length (recolored changes))%nat
        then " 외 " +:+ pretty (length (recolored changes) - 3)%nat
        else "" in
      chips ++ [ChangeChip.mk
                  ("recolored-" +:+ join "-" ((λ item, item.1.1.1) <$> recolored changes))
                  chipRecolored
                  ("색상 " +:+ text +:+ suffix)]
    else chips in
  let chips :=
    if decide (length (moved changes) ≠ 0%nat) then
      chips ++ [ChangeChip.mk ("moved-" +:+ join "-" (fst <$> moved changes)) chipMoved
                  ("균형 " +:+ formatValues (snd <$> moved changes))]
    else chips in
  chips.

(** The number of entries a chip of kind [k] stands for. *)
Definition changesOf (changes : SnapshotChanges) (k : ChangeChipKind) : nat :=
  match k with
  | chipAdded => length (added changes)
  | chipRemoved => length (removed changes)
  | chipRecolored => length (recolored changes)
  | chipMoved => length (moved changes)
  end.

(** * The layout (treeLayout.ts) *)

(** [{...node, x, y, depth}] *)
Module PositionedNode.
Record t := mk {
  node : SerializedNode.t;
  x : Z;
  y : Z;
  depth : nat
}.
Definition with_x (x : Z) (p : t) : t := mk (node p) x (y p) (depth p).
End PositionedNode.

Module TreeEdge.
Record t := mk {
  id : string;
  sourceId : string;
  targetId : string
}.
End TreeEdge.

Record Bounds := mkBounds {
  minX : Z;
  maxX : Z;
  minY : Z;
  maxY : Z
}.

Module LayoutResult.
Record t := mk {
  nodes : list PositionedNode.t;
  edges : list TreeEdge.t;
  bounds : Bounds
}.
End LayoutResult.

Definition NODE_SPACING_X : Z := 90.

Definition NODE_SPACING_Y : Z := 120.

Definition emptyLayout : LayoutResult.t :=
  LayoutResult.mk [] [] (mkBounds 0 0 0 0).

(** A link that passes the test [if (id)]: neither absent nor the empty
    string. *)
Definition truthy (o : option string) : option string :=
  match o with
  | Some s => if decide (s = "") then None else Some s
  | None => None
  end.

(** The callback of [nodes.forEach] that fills [hasParent]. *)
Definition visitLinks (hasParent : gset string) (n : SerializedNode.t) : gset string :=
  let hasParent :=
    match truthy (SerializedNode.leftId n) with
    | Some l => {[ l ]} ∪ hasParent
    | None => hasParent
    end in
  match truthy (SerializedNode.rightId n) with
  | Some r => {[ r ]} ∪ hasParent
  | None => hasParent
  end.

(** [assignCoordinates]; the state is [orderIndex] and [positioned].  The
    recursion goes on for ever on links that run in a circle; one unit of
    fuel is used for each node entered. *)
Fixpoint assignCoordinates (fuel : nat) (byId : gmap string SerializedNode.t)
    (nodeId : option string) (depth : nat) (st : nat * list PositionedNode.t)
  : option (nat * list PositionedNode.t) :=
  match truthy nodeId with
  | None => Some st
  | Some i =>
      match byId !! i with
      | None => Some st
      | Some n =>
          match fuel with
          | O => None
          | S fuel =>
              st ← assignCoordinates fuel byId (SerializedNode.leftId n) (S depth) st;
              let x := Z.of_nat st.1 * NODE_SPACING_X in
              let y := Z.of_nat depth * NODE_SPACING_Y in
              let st := (S st.1, st.2 ++ [PositionedNode.mk n x y depth]) in
              assignCoordinates fuel byId (SerializedNode.rightId n) (S depth) st
          end
      end
  end.

(** The edges of one positioned node. *)
Definition edgesOf (p : PositionedNode.t) : list TreeEdge.t :=
  let n := PositionedNode.node p in
  let list :=
    match truthy (SerializedNode.leftId n) with
    | Some l => [TreeEdge.mk (SerializedNode.id n +:+ "-" +:+ l) (SerializedNode.id n) l]
    | None => []
    end in
  match truthy (SerializedNode.rightId n) with
  | Some r => list ++ [TreeEdge.mk (SerializedNode.id n +:+ "-" +:+ r) (SerializedNode.id n) r]
  | None => list
  end.

(** [computeTreeLayout].  A path of the recursion that ends enters each
    identifier once at most, so as many units of fuel as there are nodes
    are enough whenever the source returns.  [reduce] from [Infinity] with
    [Math.min] over a list that is not empty is the fold of [Z.min] from
    its first element, and likewise for [Math.max]; the sum of [minX] and
    [maxX] is a multiple of [NODE_SPACING_X], so its half is exact. *)
Definition computeTreeLayout (nodes : list SerializedNode.t) : option LayoutResult.t :=
  match nodes with
  | [] => Some emptyLayout
  | first :: _ =>
      let byId := nodeMap nodes in
      let hasParent := foldl visitLinks ∅ nodes in
      let root :=
        head (filter (λ n, truthy (SerializedNode.parentId n) = None
                           ∧ SerializedNode.id n ∉ hasParent) nodes) in
      let rootId :=
        match root with
        | Some r => SerializedNode.id r
        | None => SerializedNode.id first
        end in
      '(_, positioned) ←
        match truthy (Some rootId) with
        | Some i => assignCoordinates (length nodes) byId (Some i) 0 (0%nat, [])
        | None => Some (0%nat, [])
        end;
      match positioned with
      | [] => Some emptyLayout
      | p0 :: rest =>
          let minX := foldl Z.min (PositionedNode.x p0) (PositionedNode.x <$> rest) in
          let maxX := foldl Z.max (PositionedNode.x p0) (PositionedNode.x <$> rest) in
          let minY := foldl Z.min (PositionedNode.y p0) (PositionedNode.y <$> rest) in
          let maxY := foldl Z.max (PositionedNode.y p0) (PositionedNode.y <$> rest) in
          let centerOffset := (minX + maxX) / 2 in
          let centeredNodes :=
            (λ p, PositionedNode.with_x (PositionedNode.x p - centerOffset) p)
              <$> positioned in
          let edges := centeredNodes ≫= edgesOf in
          Some (LayoutResult.mk centeredNodes edges
                  (mkBounds (minX - centerOffset) (maxX - centerOffset) minY maxY))
      end
  end.

(** ** Spacing and centring, for every input *)

(** The nodes of a list stand 90 apart from the left, each at the height of
    its depth. *)
Definition laidOut (ps : list PositionedNode.t) : Prop :=
  ∀ j p, ps !! j = Some p →
    PositionedNode.x p = Z.of_nat j * NODE_SPACING_X
    ∧ PositionedNode.y p = Z.of_nat (PositionedNode.depth p) * NODE_SPACING_Y.

(** A list of two linked nodes, and its layout. *)
Definition twoNodes : list SerializedNode.t :=
  [exported "a" 1 black None (Some "b") None; exported "b" 0 red (Some "a") None None].

Definition twoNodesLayout : LayoutResult.t :=
  default emptyLayout (computeTreeLayout twoNodes).

(** ** The layout of an exported tree *)

(** The positioned nodes of a tree of shape [T] whose root is at depth [d]
    and whose leftmost node is the [k]-th from the left: the in-order
    listing. *)
Fixpoint placed (h : gmap nat RBNode.t) (T : Shape) (d k : nat) : list PositionedNode.t :=
  match T with
  | E => []
  | N l a _ r =>
      placed h l (S d) k
      ++ match h !! a with
         | Some na =>
             [PositionedNode.mk (exportNode a na)
                (Z.of_nat (k + length (keys l)) * NODE_SPACING_X)
                (Z.of_nat d * NODE_SPACING_Y) d]
         | None => []
         end
      ++ placed h r (S d) (S (k + length (keys l)))
  end.

(** Centring: the nodes keep their order and fields, [x] moves by [off]. *)
Definition centred (off : Z) (ps : list PositionedNode.t) : list PositionedNode.t :=
  (λ p, PositionedNode.with_x (PositionedNode.x p - off) p) <$> ps.

(** ** Where a node and its children are drawn *)

(** The positioned node of [a], at the end of the path [c] in a tree whose
    root is at depth [d] and whose leftmost node is the [k]-th. *)
Definition entry (a : nat) (na : RBNode.t) (l : Shape) (c : list Frame) (d k : nat)
  : PositionedNode.t :=
  PositionedNode.mk (exportNode a na)
    (Z.of_nat (k + length (before c) + length (keys l)) * NODE_SPACING_X)
    (Z.of_nat (d + length c) * NODE_SPACING_Y)
    (d + length c).

(** * The history of snapshots *)

(** The snapshots follow one another: the changes of each one are the diff
    from the nodes of the one before it, and from [prev] for the first. *)
Fixpoint replay (prev : list SerializedNode.t) (snaps : list TreeSnapshot) : Prop :=
  match snaps with
  | [] => True
  | sn :: rest => changes sn = diffSnapshots prev (nodes sn) ∧ replay (nodes sn) rest
  end.

(** The nodes of the last snapshot, [prev] when there is none. *)
Definition lastNodes (prev : list SerializedNode.t) (snaps : list TreeSnapshot)
  : list SerializedNode.t :=
  default prev (nodes <$> last snaps).

(** The nodes of a snapshot are what the serializer returned for some
    state of the tree, and the highlighted identifiers are among theirs. *)
Definition serialized (sn : TreeSnapshot) : Prop :=
  (∃ t, serializeTree t = Some (nodes sn))
  ∧ ∀ i, i ∈ highlightNodeIds sn → i ∈ ids (nodes sn).

(** What the recorder keeps while an operation runs: the snapshots taken so
    far follow one another from [ns0], [previousNodes] is what the last of
    them shows, and each of them holds an export of the tree. *)
Definition Chain (ns0 : list SerializedNode.t) (s : Session) : Prop :=
  replay ns0 (taken s)
  ∧ previousNodes s = lastNodes ns0 (taken s)
  ∧ Forall serialized (taken s).

(** A snapshot has been taken, and the last one shows the tree as it is. *)
Definition Synced (s : Session) : Prop :=
  taken s ≠ [] ∧ serializeTree (tree s) = Some (previousNodes s).

(** What one call leaves behind: its snapshots follow one another from the
    export of the tree it found, there is at least one, and the last one
    shows the tree it left. *)
Definition replays (t : RedBlackTree) (op : OperationRecord) (t' : RedBlackTree) : Prop :=
  ∃ ns0, serializeTree t = Some ns0
         ∧ replay ns0 (snapshots op)
         ∧ snapshots op ≠ []
         ∧ serializeTree t' = Some (lastNodes ns0 (snapshots op))
         ∧ Forall serialized (snapshots op).

(** * When the layout does not return *)

(** [link byId i j]: the recursion of [assignCoordinates] goes from the node
    [i] into the node [j]: [j] is a child link of [i] that passes the test
    [if (!nodeId)], and [byId] holds a node for it. *)
Definition link (byId : gmap string SerializedNode.t) (i j : string) : Prop :=
  ∃ n, byId !! i = Some n
       ∧ (truthy (SerializedNode.leftId n) = Some j
          ∨ truthy (SerializedNode.rightId n) = Some j)
       ∧ is_Some (byId !! j).

(** The identifier [computeTreeLayout] starts from, when it passes the test
    [if (rootId)]. *)
Definition startId (nodes : list SerializedNode.t) : option string :=
  match nodes with
  | [] => None
  | first :: _ =>
      let hasParent := foldl visitLinks ∅ nodes in
      let root :=
        head (filter (λ n, truthy (SerializedNode.parentId n) = None
                           ∧ SerializedNode.id n ∉ hasParent) nodes) in
      truthy (Some (match root with
                    | Some r => SerializedNode.id r
                    | None => SerializedNode.id first
                    end))
  end.

(** [walk byId i l]: the recursion can go from [i] through the nodes of
    [l], one after the other. *)
Fixpoint walk (byId : gmap string SerializedNode.t) (i : string) (l : list string) : Prop :=
  match l with
  | [] => True
  | j :: l => link byId i j ∧ walk byId j l
  end.

(** [doomed byId i]: from [i] the recursion gets to a node that it reaches
    again from itself. *)
Definition doomed (byId : gmap string SerializedNode.t) (i : string) : Prop :=
  ∃ j, rtc (link byId) i j ∧ tc (link byId) j j.

(** * The diff engine *)

Section Diff.

Implicit Types (ns previous current : list SerializedNode.t).

Implicit Types (m : gmap string SerializedNode.t).

Lemma cloneNodes_id ns : cloneNodes ns = ns.
Proof.
  unfold cloneNodes. induction ns as [|[] ns IH]; simpl; [done|]. by rewrite IH.
Qed.

Lemma nodeMap_fold_None m ns i :
  foldl (λ m n, <[SerializedNode.id n := n]> m) m ns !! i = None
  ↔ m !! i = None ∧ i ∉ ids ns.
Proof.
  revert m. induction ns as [|n ns IH]; intros m; simpl.
  - split; [intros; split; [done|apply not_elem_of_nil] | by intros []].
  - rewrite IH, lookup_insert_None, not_elem_of_cons. intuition congruence.
Qed.

Lemma nodeMap_fold_Some m ns i p :
  foldl (λ m n, <[SerializedNode.id n := n]> m) m ns !! i = Some p →
  (p ∈ ns ∧ SerializedNode.id p = i) ∨ m !! i = Some p.
Proof.
  revert m. induction ns as [|n ns IH]; intros m; simpl; [by right|].
  intros [[? ?]|H]%IH.
  - left. split; [by apply elem_of_cons; right|done].
  - apply lookup_insert_Some in H as [[<- <-]|[_ ?]]; [|by right].
    left. split; [apply elem_of_cons; by left|done].
Qed.

Lemma nodeMap_fold_fresh m ns i :
  i ∉ ids ns →
  foldl (λ m n, <[SerializedNode.id n := n]> m) m ns !! i = m !! i.
Proof.
  revert m. induction ns as [|n ns IH]; intros m; simpl; [done|].
  intros [? ?]%not_elem_of_cons. rewrite IH by done. by rewrite lookup_insert_ne.
Qed.

Lemma nodeMap_None ns i : nodeMap ns !! i = None ↔ i ∉ ids ns.
Proof.
  unfold nodeMap. rewrite nodeMap_fold_None, lookup_empty. tauto.
Qed.

Lemma nodeMap_Some ns i p :
  nodeMap ns !! i = Some p → p ∈ ns ∧ SerializedNode.id p = i.
Proof.
  unfold nodeMap. intros [?|H]%nodeMap_fold_Some; [done|].
  by rewrite lookup_empty in H.
Qed.

Lemma nodeMap_NoDup ns p :
  NoDup (ids ns) → p ∈ ns → nodeMap ns !! SerializedNode.id p = Some p.
Proof.
  unfold nodeMap. generalize (∅ : gmap string SerializedNode.t).
  induction ns as [|n ns IH]; intros m Hnd Hp; simpl in *.
  - by apply elem_of_nil in Hp.
  - apply NoDup_cons in Hnd as [Hn Hnd].
    apply elem_of_cons in Hp as [->|Hp]; [|by apply IH].
    rewrite nodeMap_fold_fresh by done. apply lookup_insert_eq.
Qed.

Lemma ids_elem ns n : n ∈ ns → SerializedNode.id n ∈ ids ns.
Proof. intros. unfold ids. apply list_elem_of_fmap. eauto. Qed.

Lemma ids_elem_inv ns i : i ∈ ids ns → ∃ n, n ∈ ns ∧ SerializedNode.id n = i.
Proof. unfold ids. intros (n & -> & ?)%list_elem_of_fmap. eauto. Qed.

Lemma visitCurrent_fold m acc current :
  foldl (visitCurrent m) acc current =
  mkChanges (added acc ++ omap (addedAt m) current) (removed acc)
    (recolored acc ++ omap (recoloredAt m) current)
    (moved acc ++ omap (movedAt m) current).
Proof.
  revert acc. induction current as [|n ns IH]; intros acc; simpl.
  - destruct acc; simpl. by rewrite !app_nil_r.
  - rewrite IH. unfold visitCurrent, addedAt, recoloredAt, movedAt, relinked.
    destruct (m !! SerializedNode.id n) as [p|]; simpl.
    + repeat case_decide; simpl; by rewrite <- ?app_assoc.
    + by rewrite <- app_assoc.
Qed.

Lemma visitPrevious_fold m acc previous :
  foldl (visitPrevious m) acc previous =
  mkChanges (added acc) (removed acc ++ omap (addedAt m) previous)
    (recolored acc) (moved acc).
Proof.
  revert acc. induction previous as [|n ns IH]; intros acc; simpl.
  - destruct acc; simpl. by rewrite !app_nil_r.
  - rewrite IH. unfold visitPrevious, addedAt.
    destruct (m !! SerializedNode.id n) as [p|]; simpl; [done|].
    by rewrite <- app_assoc.
Qed.

Lemma diffSnapshots_eq previous current :
  diffSnapshots previous current =
  mkChanges (omap (addedAt (nodeMap previous)) current)
            (omap (addedAt (nodeMap current)) previous)
            (omap (recoloredAt (nodeMap previous)) current)
            (omap (movedAt (nodeMap previous)) current).
Proof.
  unfold diffSnapshots. by rewrite visitPrevious_fold, visitCurrent_fold.
Qed.

Lemma diff_added_sound previous current i v :
  (i, v) ∈ added (diffSnapshots previous current) →
  i ∈ ids current ∧ i ∉ ids previous.
Proof.
  rewrite diffSnapshots_eq; simpl.
  intros (n & Hn & H)%list_elem_of_omap. unfold addedAt in H.
  destruct (nodeMap previous !! _) eqn:Hm; simplify_eq.
  split; [by apply ids_elem | by apply nodeMap_None].
Qed.

Lemma diff_removed_sound previous current i v :
  (i, v) ∈ removed (diffSnapshots previous current) →
  i ∈ ids previous ∧ i ∉ ids current.
Proof.
  rewrite diffSnapshots_eq; simpl.
  intros (n & Hn & H)%list_elem_of_omap. unfold addedAt in H.
  destruct (nodeMap current !! _) eqn:Hm; simplify_eq.
  split; [by apply ids_elem | by apply nodeMap_None].
Qed.

Lemma diff_recolored_sound previous current i v c1 c2 :
  (i, v, c1, c2) ∈ recolored (diffSnapshots previous current) →
  ∃ p n, p ∈ previous ∧ n ∈ current
         ∧ SerializedNode.id p = i ∧ SerializedNode.id n = i
         ∧ SerializedNode.color p = c1 ∧ SerializedNode.color n = c2 ∧ c1 ≠ c2.
Proof.
  rewrite diffSnapshots_eq; simpl.
  intros (n & Hn & H)%list_elem_of_omap. unfold recoloredAt in H.
  destruct (nodeMap previous !! _) as [p|] eqn:Hm; [|done].
  case_decide; simplify_eq.
  apply nodeMap_Some in Hm as [? ?]. by exists p, n.
Qed.

Lemma diff_moved_sound previous current i v :
  (i, v) ∈ moved (diffSnapshots previous current) →
  ∃ p n, p ∈ previous ∧ n ∈ current
         ∧ SerializedNode.id p = i ∧ SerializedNode.id n = i ∧ relinked p n.
Proof.
  rewrite diffSnapshots_eq; simpl.
  intros (n & Hn & H)%list_elem_of_omap. unfold movedAt in H.
  destruct (nodeMap previous !! _) as [p|] eqn:Hm; [|done].
  case_decide; simplify_eq.
  apply nodeMap_Some in Hm as [? ?]. by exists p, n.
Qed.

Lemma diff_both_complete previous current p n :
  NoDup (ids previous) →
  p ∈ previous → n ∈ current →
  SerializedNode.id p = SerializedNode.id n →
  SerializedNode.color p ≠ SerializedNode.color n →
  relinked p n →
  SerializedNode.id n ∈ (recolored (diffSnapshots previous current)).*1.*1.*1
  ∧ SerializedNode.id n ∈ (moved (diffSnapshots previous current)).*1.
Proof.
  intros Hnd Hp Hn Hid Hc Hr. rewrite diffSnapshots_eq; simpl.
  pose proof (nodeMap_NoDup _ _ Hnd Hp) as Hm. rewrite Hid in Hm.
  split.
  - apply list_elem_of_fmap.
    exists (SerializedNode.id n, SerializedNode.value n).
    split; [done|]. apply list_elem_of_fmap.
    exists (SerializedNode.id n, SerializedNode.value n, SerializedNode.color p).
    split; [done|]. apply list_elem_of_fmap.
    exists (SerializedNode.id n, SerializedNode.value n,
            SerializedNode.color p, SerializedNode.color n).
    split; [done|]. apply list_elem_of_omap. exists n. split; [done|].
    unfold recoloredAt. rewrite Hm. by rewrite decide_True.
  - apply list_elem_of_fmap.
    exists (SerializedNode.id n, SerializedNode.value n).
    split; [done|]. apply list_elem_of_omap. exists n. split; [done|].
    unfold movedAt. rewrite Hm. by rewrite decide_True.
Qed.

End Diff.

(** * Numbers as text *)

(** [numberToString] on some integers: small ones, the first ones above
    2^53 (written with the shortest digits that give the same double), and
    from 10^21 on with an exponent. *)
Lemma numberToString_samples :
  numberToString 0 = "0"
  ∧ numberToString 10 = "10"
  ∧ numberToString (-42) = "-42"
  ∧ numberToString (2 ^ 53 - 1) = "9007199254740991"
  ∧ numberToString (2 ^ 53 + 2) = "9007199254740994"
  ∧ numberToString (2 ^ 63) = "9223372036854776000"
  ∧ numberToString (10 ^ 20) = "100000000000000000000"
  ∧ numberToString (10 ^ 21) = "1e+21"
  ∧ numberToString (- 15 * 10 ^ 20) = "-1.5e+21"
  ∧ numberToString (2 ^ 70) = "1.1805916207174113e+21".
Proof. vm_compute. repeat split. Qed.

Lemma top_plug T c : top (plug T c) = pathRoot (top T) c.
Proof. revert T. induction c as [|[] c IH]; intros T; simpl; [done|..]; by rewrite IH. Qed.

Lemma keys_plug T c : keys (plug T c) = before c ++ keys T ++ after c.
Proof.
  revert T. induction c as [|[] c IH]; intros T; simpl.
  - by rewrite app_nil_r.
  - rewrite IH. simpl. by rewrite <- ?app_assoc.
  - rewrite IH. simpl. rewrite <- ?app_assoc. simpl. by rewrite <- ?app_assoc.
Qed.

Lemma vals_plug T c : vals (plug T c) = vbefore c ++ vals T ++ vafter c.
Proof.
  revert T. induction c as [|[] c IH]; intros T; simpl.
  - by rewrite app_nil_r.
  - rewrite IH. simpl. by rewrite <- ?app_assoc.
  - rewrite IH. simpl. rewrite <- ?app_assoc. simpl. by rewrite <- ?app_assoc.
Qed.

Lemma linked_plug h T c :
  linked h None (plug T c) ↔ linked h (above c) T ∧ linkedPath h (top T) c.
Proof.
  revert T. induction c as [|[x v r|l x v] c IH]; intros T; simpl.
  - tauto.
  - rewrite IH. simpl. unfold above at 2. simpl. split.
    + intros [(n & ? & ? & ? & ? & ? & ? & ?) ?]. split; [done|]. by exists n.
    + intros [? (n & ? & ? & ? & ? & ? & ? & ?)]. split; [|done]. by exists n.
  - rewrite IH. simpl. unfold above at 2. simpl. split.
    + intros [(n & ? & ? & ? & ? & ? & ? & ?) ?]. split; [done|]. by exists n.
    + intros [? (n & ? & ? & ? & ? & ? & ? & ?)]. split; [|done]. by exists n.
Qed.

Lemma top_in_keys T x : top T = Some x → x ∈ keys T.
Proof. destruct T; simpl; [done|]. intros [= ->]. set_solver. Qed.

Lemma linked_ext h h' p T :
  (∀ k, k ∈ keys T → h' !! k = h !! k) → linked h p T → linked h' p T.
Proof.
  revert p. induction T as [|l IHl x v r IHr]; intros p Hk; simpl; [done|].
  intros (n & Hn & ? & ? & ? & ? & Hl & Hr). exists n.
  rewrite Hk by set_solver. repeat split; try done.
  - apply IHl; [|done]. intros; apply Hk; set_solver.
  - apply IHr; [|done]. intros; apply Hk; set_solver.
Qed.

Lemma linkedPath_ext h h' o c :
  (∀ k, k ∈ before c ++ after c → h' !! k = h !! k) →
  linkedPath h o c → linkedPath h' o c.
Proof.
  revert o. induction c as [|[x v r|l x v] c IH]; intros o Hk; simpl; [done|..].
  - intros (n & Hn & ? & ? & ? & ? & Hr & Hc). exists n.
    rewrite Hk by (simpl; set_solver). repeat split; try done.
    + eapply linked_ext; [|done]. intros; apply Hk; simpl; set_solver.
    + apply IH; [|done]. intros; apply Hk; simpl; set_solver.
  - intros (n & Hn & ? & ? & ? & ? & Hl & Hc). exists n.
    rewrite Hk by (simpl; set_solver). repeat split; try done.
    + eapply linked_ext; [|done]. intros; apply Hk; simpl; set_solver.
    + apply IH; [|done]. intros; apply Hk; simpl; set_solver.
Qed.

Lemma Rep_plug t T c :
  Rep t (plug T c) ↔
  root t = pathRoot (top T) c
  ∧ linked (heap t) (above c) T
  ∧ linkedPath (heap t) (top T) c
  ∧ NoDup (before c ++ keys T ++ after c)
  ∧ ∀ x, x ∈ before c ++ keys T ++ after c → (x < nodeCounter t)%nat.
Proof. unfold Rep. rewrite top_plug, keys_plug, linked_plug. tauto. Qed.

Lemma Rep_focus t l x v r c :
  Rep t (plug (N l x v r) c) →
  ∃ n, heap t !! x = Some n
       ∧ RBNode.value n = v ∧ RBNode.parent n = above c
       ∧ RBNode.left n = top l ∧ RBNode.right n = top r.
Proof.
  intros (_ & (n & ? & ? & ? & ? & ? & _) & _)%Rep_plug. by exists n.
Qed.

Lemma agreeOff_refl ks h : agreeOff ks h h.
Proof. by intros k _. Qed.

Lemma agreeOff_insert ks h h' x n :
  x ∈ ks → agreeOff ks h h' → agreeOff ks h (<[x := n]> h').
Proof.
  intros Hx Hh k Hk. rewrite lookup_insert_ne; [by apply Hh|]. by intros ->.
Qed.

Lemma linked_agree ks h h' p T :
  agreeOff ks h h' → (∀ k, k ∈ keys T → k ∉ ks) → linked h p T → linked h' p T.
Proof. intros Hh Hk. apply linked_ext. intros k ?. by apply Hh, Hk. Qed.

Lemma linkedPath_agree ks h h' o c :
  agreeOff ks h h' → (∀ k, k ∈ before c ++ after c → k ∉ ks) →
  linkedPath h o c → linkedPath h' o c.
Proof. intros Hh Hk. apply linkedPath_ext. intros k ?. by apply Hh, Hk. Qed.

Lemma update_Some x f t n :
  heap t !! x = Some n →
  update x f t = Some (mkTree (<[x := f n]> (heap t)) (root t) (nodeCounter t)).
Proof. intros H. unfold update. by rewrite H. Qed.

Ltac hsimp :=
  repeat first [ progress simpl
               | progress unfold updateOpt, update, field, optField, setRoot
               | rewrite lookup_insert_eq
               | rewrite lookup_insert_ne by congruence
               | rewrite decide_True by congruence
               | rewrite decide_False by congruence
               | match goal with
                 | H : ?h !! ?k = Some _ |- context [?h !! ?k] => rewrite H
                 end ].

Ltac nodup_facts H :=
  repeat first [rewrite NoDup_app in H | rewrite NoDup_cons in H].

Lemma NoDup_middle (l1 m l2 : list nat) :
  NoDup (l1 ++ m ++ l2) ↔
  NoDup m ∧ NoDup (l1 ++ l2) ∧ ∀ k, k ∈ m → k ∉ l1 ++ l2.
Proof.
  rewrite !NoDup_app. repeat setoid_rewrite elem_of_app.
  clear. naive_solver.
Qed.

Lemma path_keys_cons f c :
  ∀ k, k ∈ (before (f :: c) ++ after (f :: c)) ↔
       k = frameKey f ∨ k ∈ keys (sibling f) ∨ k ∈ (before c ++ after c).
Proof.
  intros k. destruct f; simpl; rewrite ?elem_of_app, ?elem_of_cons, ?elem_of_app;
    rewrite ?elem_of_cons, ?elem_of_nil; clear; tauto.
Qed.

Lemma path_NoDup_cons f c :
  NoDup (before (f :: c) ++ after (f :: c)) →
  (frameKey f ∉ keys (sibling f))
  ∧ (frameKey f ∉ (before c ++ after c))
  ∧ ∀ k, k ∈ keys (sibling f) → k ∉ (before c ++ after c).
Proof.
  destruct f; simpl; rewrite <- ?app_assoc; simpl;
    rewrite ?NoDup_app, ?NoDup_cons, ?NoDup_app;
    repeat setoid_rewrite elem_of_app; repeat setoid_rewrite elem_of_cons;
    repeat setoid_rewrite elem_of_app; repeat setoid_rewrite elem_of_nil;
    clear; naive_solver.
Qed.

Lemma linkedPath_reslot ks h h' o o' c :
  agreeOff ks h h' →
  NoDup (before c ++ after c) →
  (∀ k, k ∈ ks → k ∉ (before c ++ after c) ∨ above c = Some k) →
  match c with
  | [] => True
  | f :: _ => ∃ n, h !! frameKey f = Some n ∧ h' !! frameKey f = Some (reslot f o' n)
  end →
  linkedPath h o c → linkedPath h' o' c.
Proof.
  intros Hag Hnd Hks Hslot Hc. destruct c as [|f c]; [done|].
  destruct Hslot as (n & Hn & Hn').
  apply path_NoDup_cons in Hnd as (Hf1 & Hf2 & Hf3).
  assert (∀ k, k ∈ keys (sibling f) → k ∉ ks) as Hsib.
  { intros k Hk Hin. destruct (Hks k Hin) as [Hnot|[= <-]]; [|done].
    apply Hnot, path_keys_cons. auto. }
  assert (∀ k, k ∈ (before c ++ after c) → k ∉ ks) as Hrest.
  { intros k Hk Hin. destruct (Hks k Hin) as [Hnot|[= <-]]; [|done].
    apply Hnot, path_keys_cons. auto. }
  destruct f as [p pv r|l p pv]; simpl in *;
    destruct Hc as (n0 & Hn0 & ? & ? & ? & ? & Hs & Hc); simplify_eq;
    eexists; (split; [exact Hn'|]); simpl; repeat (split; [done|]);
    (split; [by eapply linked_agree | by eapply linkedPath_agree]).
Qed.

Lemma Rep_replace_gen ks t T c h' r' n' T' :
  Rep t (plug T c) →
  agreeOff ks (heap t) h' →
  (∀ k, k ∈ ks → k ∉ (before c ++ after c) ∨ above c = Some k) →
  match c with
  | [] => r' = top T'
  | f :: _ =>
      r' = root t
      ∧ ∃ n, heap t !! frameKey f = Some n
             ∧ h' !! frameKey f = Some (reslot f (top T') n)
  end →
  linked h' (above c) T' →
  NoDup (keys T') →
  (∀ k, k ∈ keys T' → (k ∉ (before c ++ after c)) ∧ (k < n')%nat) →
  (nodeCounter t ≤ n')%nat →
  Rep (mkTree h' r' n') (plug T' c).
Proof.
  intros (Hroot & Hl & Hc & Hnd & Hb)%Rep_plug Hag Hks Hslot Hl' Hnd' Hsub Hn.
  apply NoDup_middle in Hnd as (HndT & Hndc & Hdisj).
  apply Rep_plug; simpl. split; [|split; [done|split; [|split]]].
  - destruct c as [|f c]; simpl in *; [done|]. by destruct Hslot as [-> _].
  - eapply (linkedPath_reslot ks); [done|done|done| |done].
    destruct c; [done|]. by destruct Hslot as [_ ?].
  - apply NoDup_middle. split; [done|]. split; [done|].
    intros k Hk. by apply Hsub.
  - intros k Hk. rewrite !elem_of_app in Hk. destruct Hk as [Hk|[Hk|Hk]].
    + eapply Nat.lt_le_trans; [|done]. apply Hb. rewrite !elem_of_app. auto.
    + by apply Hsub.
    + eapply Nat.lt_le_trans; [|done]. apply Hb. rewrite !elem_of_app. auto.
Qed.

Lemma Rep_replace ks t T c h' r' T' :
  Rep t (plug T c) →
  agreeOff ks (heap t) h' →
  (∀ k, k ∈ ks → k ∈ keys T ∨ above c = Some k) →
  match c with
  | [] => r' = top T'
  | f :: _ =>
      r' = root t
      ∧ ∃ n, heap t !! frameKey f = Some n
             ∧ h' !! frameKey f = Some (reslot f (top T') n)
  end →
  linked h' (above c) T' →
  NoDup (keys T') →
  (∀ k, k ∈ keys T' → k ∈ keys T) →
  Rep (mkTree h' r' (nodeCounter t)) (plug T' c).
Proof.
  intros HR Hag Hks Hslot Hl' Hnd' Hsub.
  pose proof HR as (Hroot & Hl & Hc & Hnd & Hb)%Rep_plug.
  apply NoDup_middle in Hnd as (HndT & Hndc & Hdisj).
  eapply (Rep_replace_gen ks); try done.
  - intros k Hk. destruct (Hks k Hk) as [?|?]; [left|by right].
    intros ?. by eapply Hdisj.
  - intros k Hk. split; [by apply Hdisj, Hsub|].
    apply Hb. rewrite !elem_of_app. auto.
Qed.

Ltac agree_tac :=
  repeat (apply agreeOff_insert; [clear; set_solver|]); apply agreeOff_refl.

Ltac node_tac :=
  simpl; eexists; split; [hsimp; reflexivity|]; simpl; repeat (split; [done|]).

(** What [Rep] says at a subtree and along the way above it. *)
Lemma Rep_open t T c :
  Rep t (plug T c) →
  linked (heap t) (above c) T
  ∧ linkedPath (heap t) (top T) c
  ∧ NoDup (keys T)
  ∧ (∀ k, above c = Some k → k ∉ keys T)
  ∧ (∀ k, k ∈ (before c ++ after c) → k ∉ keys T)
  ∧ root t = pathRoot (top T) c.
Proof.
  intros (Hroot & Hl & Hc & Hnd & Hb)%Rep_plug.
  apply NoDup_middle in Hnd as (HndT & Hndc & Hdisj).
  repeat split; try done.
  - intros k Hk Hin. apply (Hdisj k Hin).
    destruct c as [|f c]; [done|]. injection Hk as <-.
    apply path_keys_cons. by left.
  - intros k Hk Hin. by apply (Hdisj k Hin).
Qed.

Lemma sibling_top_ne f c T x :
  (∀ k, k ∈ (before (f :: c) ++ after (f :: c)) → k ∉ keys T) →
  x ∈ keys T → top (sibling f) ≠ Some x.
Proof.
  intros Hd Hx Ht%top_in_keys. apply (Hd x); [|done].
  apply path_keys_cons. auto.
Qed.

Lemma linked_node h p l x v r n :
  h !! x = Some n →
  RBNode.value n = v → RBNode.parent n = p →
  RBNode.left n = top l → RBNode.right n = top r →
  linked h (Some x) l → linked h (Some x) r →
  linked h p (N l x v r).
Proof. intros. by exists n. Qed.

Ltac sep_tac HN :=
  clear -HN; try intros ?;
  repeat first [progress simpl in * | progress rewrite <- ?app_assoc in *];
  nodup_facts HN; set_solver.

Ltac linked_tac HN ks :=
  repeat match goal with
         | |- linked _ _ E => exact I
         | |- linked _ _ (N _ _ _ _) =>
             eapply linked_node;
             [hsimp; reflexivity|simpl; done|simpl; done|simpl; done|simpl; done| | ]
         | |- linked _ _ _ =>
             eapply (linked_agree ks); [agree_tac|sep_tac HN|eassumption]
         end.

Ltac norm_app :=
  repeat first [progress simpl in * | progress rewrite <- ?app_assoc in *].

Ltac keys_tac :=
  norm_app;
  first [ done
        | match goal with
          | H : NoDup (_ :: ?l) |- NoDup ?l => exact (NoDup_cons_1_2 _ _ H)
          end ].

Ltac sub_tac := let k := fresh "k" in intros k; norm_app; done.

Lemma NoDup_with_parent (p : nat) (l : list nat) :
  NoDup l → p ∉ l → NoDup (p :: l).
Proof. intros. by apply NoDup_cons. Qed.

Ltac slot_tac :=
  first [ done
        | split; [done|]; simpl; eexists; split; [eassumption|hsimp; done] ].

Ltac finish_tac HN ks cc :=
  eexists; split; [hsimp; done|]; split; [|done];
  eapply (Rep_replace ks _ _ cc);
  [done|agree_tac|clear; set_solver|slot_tac|linked_tac HN ks|keys_tac|sub_tac].

Lemma rotateLeft_spec t a x xv b y yv d c :
  Rep t (plug (N a x xv (N b y yv d)) c) →
  ∃ t', rotateLeft x t = Some t'
        ∧ Rep t' (plug (N (N a x xv b) y yv d) c)
        ∧ nodeCounter t' = nodeCounter t.
Proof.
  intros HR. pose proof (Rep_open _ _ _ HR) as (Hl & Hc & Hnd & Hp & Hdisj & Hroot).
  destruct Hl as ([] & Hx & Hxv & Hxp & Hxl & Hxr & Ha & ([] & Hy & Hyv & Hyp & Hyl & Hyr & Hbl & Hd)).
  unfold rotateLeft, field, update, updateOpt.
  destruct c as [|f c].
  - clear Hp Hdisj.
    destruct b as [|bl bk bv br]; simpl in * |-; simplify_eq.
    + assert (x ≠ y) by sep_tac Hnd.
      finish_tac Hnd [x; y] (@nil Frame).
    + destruct Hbl as ([] & Hbk & ? & ? & ? & ? & ? & ?); simpl in * |-; simplify_eq.
      assert (x ≠ y ∧ bk ≠ x ∧ bk ≠ y) as (?&?&?) by sep_tac Hnd.
      finish_tac Hnd [x; y; bk] (@nil Frame).
  - pose proof (NoDup_with_parent _ _ Hnd (Hp _ eq_refl)) as HN.
    assert (top (sibling f) ≠ Some x) as Hsib
      by (eapply sibling_top_ne; [done|clear; simpl; set_solver]).
    clear Hp Hdisj Hnd.
    destruct b as [|bl bk bv br], f as [p pv r|l p pv];
      destruct Hc as ([] & Hp' & ? & ? & ? & ? & Hr & Hc); simpl in * |-; simplify_eq.
    + assert (x ≠ y ∧ p ≠ x ∧ p ≠ y) as (?&?&?) by sep_tac HN.
      finish_tac HN [x; y; p] (InLeft p pv r :: c).
    + assert (x ≠ y ∧ p ≠ x ∧ p ≠ y) as (?&?&?) by sep_tac HN.
      finish_tac HN [x; y; p] (InRight l p pv :: c).
    + destruct Hbl as ([] & Hbk & ? & ? & ? & ? & ? & ?); simpl in * |-; simplify_eq.
      assert (x ≠ y ∧ p ≠ x ∧ p ≠ y ∧ bk ≠ x ∧ bk ≠ y ∧ bk ≠ p) as (?&?&?&?&?&?)
        by sep_tac HN.
      finish_tac HN [x; y; p; bk] (InLeft p pv r :: c).
    + destruct Hbl as ([] & Hbk & ? & ? & ? & ? & ? & ?); simpl in * |-; simplify_eq.
      assert (x ≠ y ∧ p ≠ x ∧ p ≠ y ∧ bk ≠ x ∧ bk ≠ y ∧ bk ≠ p) as (?&?&?&?&?&?)
        by sep_tac HN.
      finish_tac HN [x; y; p; bk] (InRight l p pv :: c).
Qed.

Lemma rotateRight_spec t a y yv b x xv d c :
  Rep t (plug (N (N a y yv b) x xv d) c) →
  ∃ t', rotateRight x t = Some t'
        ∧ Rep t' (plug (N a y yv (N b x xv d)) c)
        ∧ nodeCounter t' = nodeCounter t.
Proof.
  intros HR. pose proof (Rep_open _ _ _ HR) as (Hl & Hc & Hnd & Hp & Hdisj & Hroot).
  destruct Hl as ([] & Hx & Hxv & Hxp & Hxl & Hxr & ([] & Hy & Hyv & Hyp & Hyl & Hyr & Ha & Hbl) & Hd).
  unfold rotateRight, field, update, updateOpt.
  destruct c as [|f c].
  - clear Hp Hdisj.
    destruct b as [|bl bk bv br]; simpl in * |-; simplify_eq.
    + assert (x ≠ y) by sep_tac Hnd.
      finish_tac Hnd [x; y] (@nil Frame).
    + destruct Hbl as ([] & Hbk & ? & ? & ? & ? & ? & ?); simpl in * |-; simplify_eq.
      assert (x ≠ y ∧ bk ≠ x ∧ bk ≠ y) as (?&?&?) by sep_tac Hnd.
      finish_tac Hnd [x; y; bk] (@nil Frame).
  - pose proof (NoDup_with_parent _ _ Hnd (Hp _ eq_refl)) as HN.
    assert (top (sibling f) ≠ Some x) as Hsib
      by (eapply sibling_top_ne; [done|clear; simpl; set_solver]).
    clear Hp Hdisj Hnd.
    destruct b as [|bl bk bv br], f as [p pv r|l p pv];
      destruct Hc as ([] & Hp' & ? & ? & ? & ? & Hr & Hc); simpl in * |-; simplify_eq.
    + assert (x ≠ y ∧ p ≠ x ∧ p ≠ y) as (?&?&?) by sep_tac HN.
      finish_tac HN [x; y; p] (InLeft p pv r :: c).
    + assert (x ≠ y ∧ p ≠ x ∧ p ≠ y) as (?&?&?) by sep_tac HN.
      finish_tac HN [x; y; p] (InRight l p pv :: c).
    + destruct Hbl as ([] & Hbk & ? & ? & ? & ? & ? & ?); simpl in * |-; simplify_eq.
      assert (x ≠ y ∧ p ≠ x ∧ p ≠ y ∧ bk ≠ x ∧ bk ≠ y ∧ bk ≠ p) as (?&?&?&?&?&?)
        by sep_tac HN.
      finish_tac HN [x; y; p; bk] (InLeft p pv r :: c).
    + destruct Hbl as ([] & Hbk & ? & ? & ? & ? & ? & ?); simpl in * |-; simplify_eq.
      assert (x ≠ y ∧ p ≠ x ∧ p ≠ y ∧ bk ≠ x ∧ bk ≠ y ∧ bk ≠ p) as (?&?&?&?&?&?)
        by sep_tac HN.
      finish_tac HN [x; y; p; bk] (InRight l p pv :: c).
Qed.

Lemma rotateLeft_leaf t a x xv c :
  Rep t (plug (N a x xv E) c) → rotateLeft x t = Some t.
Proof.
  intros HR. apply Rep_focus in HR as (n & Hn & _ & _ & _ & Hr).
  unfold rotateLeft, field. rewrite Hn. simpl. by rewrite Hr.
Qed.

Lemma rotateRight_leaf t d x xv c :
  Rep t (plug (N E x xv d) c) → rotateRight x t = Some t.
Proof.
  intros HR. apply Rep_focus in HR as (n & Hn & _ & _ & Hl & _).
  unfold rotateRight, field. rewrite Hn. simpl. by rewrite Hl.
Qed.

(** * Recolouring keeps the shape *)

Lemma linked_recolor h p T x n col :
  h !! x = Some n → linked h p T →
  linked (<[x := RBNode.with_color col n]> h) p T.
Proof.
  intros Hx. revert p. induction T as [|l IHl k v r IHr]; intros p; simpl; [done|].
  intros (nk & Hk & ? & ? & ? & ? & Hl & Hr).
  destruct (decide (k = x)) as [->|Hne].
  - simplify_eq. exists (RBNode.with_color col n).
    rewrite lookup_insert_eq. repeat split; auto.
  - exists nk. rewrite lookup_insert_ne by done. repeat split; auto.
Qed.

Lemma Rep_recolor t T x n col :
  Rep t T → heap t !! x = Some n →
  Rep (mkTree (<[x := RBNode.with_color col n]> (heap t)) (root t) (nodeCounter t)) T.
Proof.
  intros (Hroot & Hl & Hnd & Hb) Hx. repeat split; try done.
  by apply linked_recolor.
Qed.

Lemma traverse_linked h p T fuel :
  linked h p T → (height T ≤ fuel)%nat → traverse fuel h (top T) = Some (exports h T).
Proof.
  revert p fuel. induction T as [|l IHl x v r IHr]; intros p fuel; simpl;
    [by destruct fuel|].
  intros (n & Hn & ? & ? & Hln & Hrn & Hl & Hr) Hf.
  destruct fuel as [|fuel]; [lia|]. simpl. rewrite Hn. simpl.
  rewrite Hln, Hrn.
  rewrite (IHl _ fuel Hl) by lia. rewrite (IHr _ fuel Hr) by lia. done.
Qed.

Lemma height_le_length T : (height T ≤ length (keys T))%nat.
Proof.
  induction T as [|l IHl x v r IHr]; simpl; [done|].
  rewrite length_app. simpl. lia.
Qed.

Lemma bounded_NoDup_length (l : list nat) (n : nat) :
  NoDup l → (∀ x, x ∈ l → (x < n)%nat) → (length l ≤ n)%nat.
Proof.
  intros Hnd Hb.
  assert (l ⊆+ seq 0 n) as Hsub.
  { apply NoDup_submseteq; [done|]. intros x Hx. apply elem_of_seq. specialize (Hb x Hx). lia. }
  apply submseteq_length in Hsub. by rewrite length_seq in Hsub.
Qed.

Lemma Rep_height t T : Rep t T → (height T ≤ nodeCounter t)%nat.
Proof.
  intros (_ & _ & Hnd & Hb).
  pose proof (height_le_length T). pose proof (bounded_NoDup_length _ _ Hnd Hb). lia.
Qed.

Lemma serializeTree_Rep t T :
  Rep t T → serializeTree t = Some (exports (heap t) T).
Proof.
  intros HR. pose proof (Rep_height _ _ HR). destruct HR as (Hroot & Hl & _ & _).
  unfold serializeTree. rewrite Hroot. eapply traverse_linked; [done|]. unfold gas. lia.
Qed.

Lemma elem_of_exports h p T n :
  linked h p T →
  n ∈ exports h T ↔ ∃ x nd, x ∈ keys T ∧ h !! x = Some nd ∧ n = exportNode x nd.
Proof.
  revert p. induction T as [|l IHl x v r IHr]; intros p; simpl.
  - intros _. split; [by intros ?%elem_of_nil|]. by intros (? & ? & ?%elem_of_nil & _).
  - intros (nx & Hx & ? & ? & ? & ? & Hl & Hr). rewrite Hx.
    rewrite !elem_of_app, list_elem_of_singleton, (IHl _ Hl), (IHr _ Hr).
    split.
    + intros [->|[(y & nd & ? & ? & ?)|(y & nd & ? & ? & ?)]].
      * exists x, nx. split; [|done]. apply elem_of_app. right. apply elem_of_cons. by left.
      * exists y, nd. split; [|done]. apply elem_of_app. by left.
      * exists y, nd. split; [|done]. apply elem_of_app. right. apply elem_of_cons. by right.
    + intros (y & nd & Hy & Hnd & ->).
      apply elem_of_app in Hy as [Hy|Hy]; [right; left; eauto|].
      apply elem_of_cons in Hy as [->|Hy]; [left; congruence|right; right; eauto].
Qed.

Lemma ids_exports h p T :
  linked h p T → ids (exports h T) = node_id <$> preorder T.
Proof.
  revert p. induction T as [|l IHl x v r IHr]; intros p; simpl; [done|].
  intros (nx & Hx & ? & ? & ? & ? & Hl & Hr). rewrite Hx. unfold ids in *.
  simpl. rewrite map_app, fmap_app. by rewrite (IHl _ Hl), (IHr _ Hr).
Qed.

Lemma preorder_keys T : preorder T ≡ₚ keys T.
Proof.
  induction T as [|l IHl x v r IHr]; simpl; [done|].
  rewrite IHl, IHr. by rewrite Permutation_middle.
Qed.

#[global] Instance node_id_inj : Inj (=) (=) node_id.
Proof.
  intros a b H. unfold node_id in H. simpl in H.
  apply (inj pretty). by simplify_eq.
Qed.

Lemma linked_top h p T x :
  linked h p T → top T = Some x → ∃ n, h !! x = Some n ∧ RBNode.parent n = p.
Proof.
  destruct T; simpl; [done|]. intros (n & ? & ? & ? & _) [= ->]. eauto.
Qed.

Lemma linked_child h p T x nd y :
  linked h p T → x ∈ keys T → h !! x = Some nd →
  RBNode.left nd = Some y ∨ RBNode.right nd = Some y →
  ∃ ny, y ∈ keys T ∧ h !! y = Some ny ∧ RBNode.parent ny = Some x.
Proof.
  revert p. induction T as [|l IHl k v r IHr]; intros p; simpl.
  - by intros _ ?%elem_of_nil.
  - intros (nk & Hk & ? & ? & Hln & Hrn & Hl & Hr) Hx Hnd Hy.
    apply elem_of_app in Hx as [Hx|Hx]; [|apply elem_of_cons in Hx as [->|Hx]].
    + destruct (IHl _ Hl Hx Hnd Hy) as (ny & ? & ? & ?).
      exists ny. split; [|done]. apply elem_of_app. by left.
    + simplify_eq. destruct Hy as [Hy|Hy].
      * rewrite Hln in Hy. destruct (linked_top _ _ _ _ Hl Hy) as (ny & ? & ?).
        exists ny. split; [|done]. apply elem_of_app. left. by apply top_in_keys.
      * rewrite Hrn in Hy. destruct (linked_top _ _ _ _ Hr Hy) as (ny & ? & ?).
        exists ny. split; [|done]. apply elem_of_app. right. apply elem_of_cons. right.
        by apply top_in_keys.
    + destruct (IHr _ Hr Hx Hnd Hy) as (ny & ? & ? & ?).
      exists ny. split; [|done]. apply elem_of_app. right. apply elem_of_cons. by right.
Qed.

Lemma linked_parent h p T x nd :
  linked h p T → x ∈ keys T → h !! x = Some nd →
  (top T = Some x ∧ RBNode.parent nd = p) ∨ ∃ q, RBNode.parent nd = Some q.
Proof.
  revert p. induction T as [|l IHl k v r IHr]; intros p; simpl.
  - by intros _ ?%elem_of_nil.
  - intros (nk & Hk & ? & ? & Hln & Hrn & Hl & Hr) Hx Hnd.
    apply elem_of_app in Hx as [Hx|Hx]; [|apply elem_of_cons in Hx as [->|Hx]].
    + right. destruct (IHl _ Hl Hx Hnd) as [[_ ?]|?]; eauto.
    + left. by simplify_eq.
    + right. destruct (IHr _ Hr Hx Hnd) as [[_ ?]|?]; eauto.
Qed.

Lemma wellFormedExport_exports h T :
  linked h None T → NoDup (keys T) → wellFormedExport (exports h T).
Proof.
  intros Hl Hnd. split; [|split].
  - rewrite (ids_exports _ _ _ Hl). apply (NoDup_fmap_2 _).
    by rewrite preorder_keys.
  - intros n i (x & nd & Hx & Hnd' & ->)%(elem_of_exports _ _ _ _ Hl) Hi. simpl in Hi.
    assert (∃ y, i = node_id y ∧ (RBNode.left nd = Some y ∨ RBNode.right nd = Some y))
      as (y & -> & Hy).
    { unfold optId in Hi. destruct Hi as [Hi|Hi].
      - destruct (RBNode.left nd) as [y|]; simplify_eq/=. eauto.
      - destruct (RBNode.right nd) as [y|]; simplify_eq/=. eauto. }
    destruct (linked_child _ _ _ _ _ _ Hl Hx Hnd' Hy) as (ny & ? & ? & Hp).
    exists (exportNode y ny). split; [|split; [done|]].
    + apply (elem_of_exports _ _ _ _ Hl). eauto.
    + simpl. by rewrite Hp.
  - intros Hne. destruct T as [|l r0 v r]; [done|].
    destruct Hl as (n0 & H0 & ? & Hp0 & ?). 
    exists (exportNode r0 n0). split; [|split].
    + simpl. rewrite H0. apply elem_of_cons. by left.
    + simpl. by rewrite Hp0.
    + intros m (x & nd & Hx & Hnd' & ->)%(elem_of_exports _ None (N l r0 v r)) Hpm;
        [|by exists n0].
      simpl in Hpm.
      assert (linked h None (N l r0 v r)) as Hl' by (by exists n0).
      destruct (linked_parent _ _ _ _ _ Hl' Hx Hnd') as [[Ht _]|[q Hq]].
      * simpl in Ht. by simplify_eq.
      * rewrite Hq in Hpm. done.
Qed.

Lemma Sound_Rep s0 s T : Sound s0 s T → Rep (tree s) T.
Proof. by intros (? & _). Qed.

Lemma record_spec d hl s0 s T :
  Sound s0 s T →
  ∃ s', record d hl s = Some s' ∧ Sound s0 s' T ∧ tree s' = tree s.
Proof.
  intros (HR & Hok & Hpre). unfold record.
  rewrite (serializeTree_Rep _ _ HR). simpl.
  eexists; split; [done|]. split; [|done]. split; [done|]. split.
  - apply Forall_app. split; [done|]. apply Forall_singleton.
    unfold okSnapshot; simpl. destruct HR as (_ & Hl & Hnd & _).
    by apply wellFormedExport_exports.
  - simpl. by apply prefix_app_r.
Qed.

Lemma Rep_lookup t T x :
  Rep t T → x ∈ keys T → ∃ n, heap t !! x = Some n.
Proof.
  intros (_ & Hl & _) Hx. revert Hl. generalize (@None nat).
  induction T as [|l IHl k v r IHr]; simpl; intros p.
  - by apply elem_of_nil in Hx.
  - intros (nk & Hk & _ & _ & _ & _ & Hl & Hr).
    apply elem_of_app in Hx as [Hx|Hx]; [by eapply IHl|].
    apply elem_of_cons in Hx as [->|Hx]; [eauto|by eapply IHr].
Qed.

Lemma setColor_spec x col s0 s T :
  Sound s0 s T → x ∈ keys T →
  ∃ s', setColor x col s = Some s' ∧ Sound s0 s' T
        ∧ colorOf s' x = Some col
        ∧ ∀ y, y ≠ x → colorOf s' y = colorOf s y.
Proof.
  intros (HR & Hok & Hpre) Hx. destruct (Rep_lookup _ _ _ HR Hx) as (n & Hn).
  unfold setColor, onTree, update. rewrite Hn. simpl.
  eexists; split; [done|]. split; [|split].
  - split; [|done]. simpl. by apply Rep_recolor.
  - unfold colorOf, get, field. simpl. by rewrite lookup_insert_eq.
  - intros y Hy. unfold colorOf, get, field. simpl. by rewrite lookup_insert_ne.
Qed.

Lemma onTree_Some f s t' :
  f (tree s) = Some t' → onTree f s = Some (mkSession t' (previousNodes s) (taken s)).
Proof. intros H. unfold onTree. by rewrite H. Qed.

(** Reading the fields of the node in focus. *)
Lemma get_focus s l x v r c :
  Rep (tree s) (plug (N l x v r) c) →
  get RBNode.parent s x = Some (above c)
  ∧ get RBNode.left s x = Some (top l)
  ∧ get RBNode.right s x = Some (top r)
  ∧ get RBNode.value s x = Some v
  ∧ ∃ col, get RBNode.color s x = Some col.
Proof.
  intros (n & Hn & Hv & Hp & Hl & Hr)%Rep_focus.
  unfold get, field. rewrite Hn. simpl. rewrite Hv, Hp, Hl, Hr. eauto 10.
Qed.

Lemma sameColors_refl t : sameColors t t.
Proof. done. Qed.

Lemma sameColors_trans t1 t2 t3 : sameColors t1 t2 → sameColors t2 t3 → sameColors t1 t3.
Proof. intros H1 H2 k. by rewrite H2, H1. Qed.

Lemma update_sameColors f x t t' :
  (∀ n, RBNode.color (f n) = RBNode.color n) →
  update x f t = Some t' → sameColors t t'.
Proof.
  intros Hf H k. unfold update in H.
  destruct (heap t !! x) as [n|] eqn:Hn; simplify_eq/=.
  destruct (decide (k = x)) as [->|?].
  - rewrite lookup_insert_eq, Hn. simpl. by rewrite Hf.
  - by rewrite lookup_insert_ne.
Qed.

Lemma updateOpt_sameColors f o t t' :
  (∀ n, RBNode.color (f n) = RBNode.color n) →
  updateOpt o f t = Some t' → sameColors t t'.
Proof.
  intros Hf H. destruct o; simpl in H; [by eapply update_sameColors|].
  simplify_eq. apply sameColors_refl.
Qed.

Lemma setRoot_sameColors r t : sameColors t (setRoot r t).
Proof. done. Qed.

Ltac colors_tac :=
  repeat match goal with
         | |- sameColors ?t ?t => apply sameColors_refl
         | H : update _ _ ?t = Some ?t' |- sameColors ?t _ =>
             apply (sameColors_trans t t');
             [eapply update_sameColors; [|exact H]; done|clear H]
         | H : updateOpt _ _ ?t = Some ?t' |- sameColors ?t _ =>
             apply (sameColors_trans t t');
             [eapply updateOpt_sameColors; [|exact H]; done|clear H]
         | H : update _ _ (setRoot ?r ?t) = Some _ |- sameColors ?t ?t'' =>
             change (sameColors (setRoot r t) t'')
         | |- sameColors ?t (setRoot _ ?t) => apply setRoot_sameColors
         | |- sameColors ?t (setRoot _ ?t') =>
             apply (sameColors_trans t t'); [|apply setRoot_sameColors]
         end.

Lemma rotateLeft_sameColors x t t' : rotateLeft x t = Some t' → sameColors t t'.
Proof.
  unfold rotateLeft. intros H.
  repeat (simplify_option_eq; repeat case_match; simplify_option_eq); colors_tac.
Qed.

Lemma rotateRight_sameColors x t t' : rotateRight x t = Some t' → sameColors t t'.
Proof.
  unfold rotateRight. intros H.
  repeat (simplify_option_eq; repeat case_match; simplify_option_eq); colors_tac.
Qed.

Lemma sameColors_colorOf s s' x :
  sameColors (tree s) (tree s') → colorOf s' x = colorOf s x.
Proof. intros H. apply H. Qed.

(** Rotations under [Sound]. *)
Lemma rotateLeft_Sound s0 s a x xv b y yv d c :
  Sound s0 s (plug (N a x xv (N b y yv d)) c) →
  ∃ s', onTree (rotateLeft x) s = Some s'
        ∧ Sound s0 s' (plug (N (N a x xv b) y yv d) c)
        ∧ sameColors (tree s) (tree s').
Proof.
  intros (HR & Hok & Hpre).
  destruct (rotateLeft_spec _ _ _ _ _ _ _ _ _ HR) as (t' & Ht & HR' & _).
  rewrite (onTree_Some _ _ _ Ht). eexists; split; [done|]. split; [done|].
  by apply rotateLeft_sameColors in Ht.
Qed.

Lemma rotateRight_Sound s0 s a y yv b x xv d c :
  Sound s0 s (plug (N (N a y yv b) x xv d) c) →
  ∃ s', onTree (rotateRight x) s = Some s'
        ∧ Sound s0 s' (plug (N a y yv (N b x xv d)) c)
        ∧ sameColors (tree s) (tree s').
Proof.
  intros (HR & Hok & Hpre).
  destruct (rotateRight_spec _ _ _ _ _ _ _ _ _ HR) as (t' & Ht & HR' & _).
  rewrite (onTree_Some _ _ _ Ht). eexists; split; [done|]. split; [done|].
  by apply rotateRight_sameColors in Ht.
Qed.

(** What one call of [record] appends. *)
Lemma record_full d hl s0 s T :
  Sound s0 s T →
  ∃ s' sn, record d hl s = Some s' ∧ Sound s0 s' T ∧ tree s' = tree s
           ∧ taken s' = taken s ++ [sn]
           ∧ description sn = d
           ∧ nodes sn = exports (heap (tree s)) T
           ∧ highlightNodeIds sn
             = filter (λ i, i ∈ (list_to_set (ids (nodes sn)) : gset string)) hl
           ∧ changes sn = diffSnapshots (previousNodes s) (nodes sn).
Proof.
  intros (HR & Hok & Hpre). unfold record.
  rewrite (serializeTree_Rep _ _ HR). simpl.
  eexists _, _; split; [done|]. simpl. split; [|done].
  split; [done|]. split.
  - apply Forall_app. split; [done|]. apply Forall_singleton.
    unfold okSnapshot; simpl. destruct HR as (_ & Hl & Hnd & _).
    by apply wellFormedExport_exports.
  - by apply prefix_app_r.
Qed.

Lemma Sound_rebase s0 s T : Sound s0 s T → Sound s s T.
Proof. intros (? & ? & _). by split. Qed.

Lemma Sound_start t T prev : Rep t T → Sound (mkSession t prev []) (mkSession t prev []) T.
Proof. intros HR. split; [done|]. split; [constructor|done]. Qed.

(** * The steps of [fixInsert] *)

Lemma focus_in_keys l x v r c : x ∈ keys (plug (N l x v r) c).
Proof. rewrite keys_plug. simpl. set_solver. Qed.

Lemma top_in_plug T c x : top T = Some x → x ∈ keys (plug T c).
Proof. intros H%top_in_keys. rewrite keys_plug. set_solver. Qed.

Lemma get_member {A} (f : RBNode.t → A) s0 s T x :
  Sound s0 s T → x ∈ keys T → ∃ a, get f s x = Some a.
Proof.
  intros (HR & _) Hx. destruct (Rep_lookup _ _ _ HR Hx) as (n & Hn).
  unfold get, field. rewrite Hn. eauto.
Qed.

Ltac t_record HS HS' :=
  match goal with
  | |- context [record ?d ?hl ?s] =>
      let E := fresh "E" in
      let s' := fresh "s" in
      destruct (record_spec d hl _ s _ HS) as (s' & E & HS' & ?);
      rewrite E; clear E; simpl
  end.

Ltac t_setColor HS Hx HS' :=
  match goal with
  | |- context [setColor ?x ?c ?s] =>
      let E := fresh "E" in
      let s' := fresh "s" in
      destruct (setColor_spec x c _ s _ HS Hx) as (s' & E & HS' & ? & ?);
      rewrite E; clear E; simpl
  end.

Ltac t_get HS Hx :=
  match goal with
  | |- context [get ?f ?s ?x] =>
      let E := fresh "E" in
      let a := fresh "a" in
      destruct (get_member f _ s _ x HS Hx) as (a & E);
      rewrite E; clear E; simpl
  end.

Lemma recolorStep_spec s0 s T parent uncle g pv :
  Sound s0 s T → parent ∈ keys T → uncle ∈ keys T → g ∈ keys T →
  ∃ s', recolorStep parent uncle g pv s = Some s' ∧ Sound s0 s' T.
Proof.
  intros HS Hp Hu Hg. unfold recolorStep.
  t_setColor HS Hp HS1. t_setColor HS1 Hu HS2. t_setColor HS2 Hg HS3.
  t_get HS3 Hu. t_record HS3 HS4. eauto.
Qed.

(** A node in focus is not the top of the sibling subtree of a frame above. *)
Lemma focus_ne_sibling t T f c x :
  Rep t (plug T (f :: c)) → x ∈ keys T → top (sibling f) ≠ Some x.
Proof.
  intros HR Hx. destruct (Rep_open _ _ _ HR) as (_ & _ & _ & _ & Hd & _).
  by eapply sibling_top_ne.
Qed.

Lemma rotateStepL_outer s0 s Tn node parent pv S g gv U c pv' gv' :
  top Tn = Some node →
  Sound s0 s (plug Tn (InLeft parent pv S :: InLeft g gv U :: c)) →
  ∃ s', rotateStepL node parent g pv' gv' s = Some (node, s')
        ∧ Sound s0 s' (plug Tn (InLeft parent pv (N S g gv U) :: c)).
Proof.
  intros Htop HS. unfold rotateStepL.
  pose proof (Sound_Rep _ _ _ HS) as HR.
  destruct (get_focus s Tn parent pv S (InLeft g gv U :: c) HR) as (_ & _ & -> & _); simpl.
  rewrite decide_False; [simpl|].
  2:{ intros Heq. symmetry in Heq. revert Heq.
      apply (focus_ne_sibling _ _ (InLeft parent pv S) _ _ HR). by apply top_in_keys. }
  t_setColor HS (focus_in_keys Tn parent pv S (InLeft g gv U :: c)) HS1.
  t_setColor HS1 (focus_in_keys (N Tn parent pv S) g gv U c) HS2.
  destruct (rotateRight_Sound _ _ Tn parent pv S g gv U c HS2) as (s3 & -> & HS3 & _); simpl.
  destruct (get_focus s3 Tn parent pv (N S g gv U) c (Sound_Rep _ _ _ HS3)) as (-> & _); simpl.
  t_record HS3 HS4. eauto.
Qed.

Lemma rotateStepL_inner s0 s nl node nv nr parent pv S g gv U c pv' gv' :
  Sound s0 s (plug (N nl node nv nr) (InRight S parent pv :: InLeft g gv U :: c)) →
  ∃ s', rotateStepL node parent g pv' gv' s = Some (parent, s')
        ∧ Sound s0 s' (plug (N S parent pv nl) (InLeft node nv (N nr g gv U) :: c)).
Proof.
  intros HS. unfold rotateStepL.
  pose proof (Sound_Rep _ _ _ HS) as HR.
  destruct (get_focus s S parent pv (N nl node nv nr) (InLeft g gv U :: c) HR)
    as (_ & _ & -> & _); simpl.
  rewrite decide_True by done; simpl.
  destruct (rotateLeft_Sound _ _ S parent pv nl node nv nr (InLeft g gv U :: c) HS)
    as (s1 & -> & HS1 & _); simpl.
  destruct (get_focus s1 S parent pv nl (InLeft node nv nr :: InLeft g gv U :: c)
              (Sound_Rep _ _ _ HS1)) as (-> & _); simpl.
  t_record HS1 HS2.
  t_setColor HS2 (focus_in_keys S parent pv nl (InLeft node nv nr :: InLeft g gv U :: c)) HS3.
  t_setColor HS3 (focus_in_keys (N (N S parent pv nl) node nv nr) g gv U c) HS4.
  destruct (rotateRight_Sound _ _ (N S parent pv nl) node nv nr g gv U c HS4)
    as (s5 & -> & HS5 & _); simpl.
  destruct (get_focus s5 S parent pv nl (InLeft node nv (N nr g gv U) :: c)
              (Sound_Rep _ _ _ HS5)) as (-> & _); simpl.
  t_record HS5 HS6. eauto.
Qed.

Lemma rotateStepR_outer s0 s Tn node parent pv S g gv U c pv' gv' :
  top Tn = Some node →
  Sound s0 s (plug Tn (InRight S parent pv :: InRight U g gv :: c)) →
  ∃ s', rotateStepR node parent g pv' gv' s = Some (node, s')
        ∧ Sound s0 s' (plug Tn (InRight (N U g gv S) parent pv :: c)).
Proof.
  intros Htop HS. unfold rotateStepR.
  pose proof (Sound_Rep _ _ _ HS) as HR.
  destruct (get_focus s S parent pv Tn (InRight U g gv :: c) HR) as (_ & -> & _); simpl.
  rewrite decide_False; [simpl|].
  2:{ intros Heq. symmetry in Heq. revert Heq.
      apply (focus_ne_sibling _ _ (InRight S parent pv) _ _ HR). by apply top_in_keys. }
  t_setColor HS (focus_in_keys S parent pv Tn (InRight U g gv :: c)) HS1.
  t_setColor HS1 (focus_in_keys U g gv (N S parent pv Tn) c) HS2.
  destruct (rotateLeft_Sound _ _ U g gv S parent pv Tn c HS2) as (s3 & -> & HS3 & _); simpl.
  destruct (get_focus s3 (N U g gv S) parent pv Tn c (Sound_Rep _ _ _ HS3)) as (-> & _); simpl.
  t_record HS3 HS4. eauto.
Qed.

Lemma rotateStepR_inner s0 s nl node nv nr parent pv S g gv U c pv' gv' :
  Sound s0 s (plug (N nl node nv nr) (InLeft parent pv S :: InRight U g gv :: c)) →
  ∃ s', rotateStepR node parent g pv' gv' s = Some (parent, s')
        ∧ Sound s0 s' (plug (N nr parent pv S) (InRight (N U g gv nl) node nv :: c)).
Proof.
  intros HS. unfold rotateStepR.
  pose proof (Sound_Rep _ _ _ HS) as HR.
  destruct (get_focus s (N nl node nv nr) parent pv S (InRight U g gv :: c) HR)
    as (_ & -> & _); simpl.
  rewrite decide_True by done; simpl.
  destruct (rotateRight_Sound _ _ nl node nv nr parent pv S (InRight U g gv :: c) HS)
    as (s1 & -> & HS1 & _); simpl.
  destruct (get_focus s1 nr parent pv S (InRight nl node nv :: InRight U g gv :: c)
              (Sound_Rep _ _ _ HS1)) as (-> & _); simpl.
  t_record HS1 HS2.
  t_setColor HS2 (focus_in_keys nr parent pv S (InRight nl node nv :: InRight U g gv :: c)) HS3.
  t_setColor HS3 (focus_in_keys U g gv (N nl node nv (N nr parent pv S)) c) HS4.
  destruct (rotateLeft_Sound _ _ U g gv nl node nv (N nr parent pv S) c HS4)
    as (s5 & -> & HS5 & _); simpl.
  destruct (get_focus s5 nr parent pv S (InRight (N U g gv nl) node nv :: c)
              (Sound_Rep _ _ _ HS5)) as (-> & _); simpl.
  t_record HS5 HS6. eauto.
Qed.

Lemma pathRoot_cons o f c :
  ∃ k, pathRoot o (f :: c) = Some k ∧ k ∈ before (f :: c) ++ after (f :: c).
Proof.
  revert o f. induction c as [|f' c IH]; intros o f.
  - exists (frameKey f). split; [done|]. apply path_keys_cons. by left.
  - destruct (IH (Some (frameKey f)) f') as (k & Hk & Hin).
    exists k. split; [done|]. apply path_keys_cons. by right; right.
Qed.

Lemma focus_not_root t T f c x :
  Rep t (plug T (f :: c)) → x ∈ keys T → root t ≠ Some x.
Proof.
  intros HR Hx. destruct (Rep_open _ _ _ HR) as (_ & _ & _ & _ & Hd & Hroot).
  destruct (pathRoot_cons (top T) f c) as (k & Hk & Hin).
  rewrite Hroot, Hk. intros [= ->]. by eapply Hd.
Qed.

Ltac kv_tac :=
  rewrite ?keys_plug, ?vals_plug;
  repeat first [progress simpl | progress rewrite <- ?app_assoc]; done.

Ltac finish_IH IH HS1 :=
  match type of HS1 with
  | Sound _ ?s1 (plug ?T ?cc) =>
      let s' := fresh "s'" in
      let T' := fresh "T'" in
      let Hk := fresh "Hk" in
      let Hv := fresh "Hv" in
      let HS' := fresh "HS'" in
      destruct (IH s1 T cc _ eq_refl HS1) as (s' & T' & -> & HS' & Hk & Hv);
      [simpl in *; lia|];
      exists s', T'; split; [done|]; split; [done|];
      split; [rewrite Hk; kv_tac|rewrite Hv; kv_tac]
  end.

Ltac rot_case IH lem :=
  let s1 := fresh "s1" in
  let HS1 := fresh "HS1" in
  destruct lem as (s1 & -> & HS1); simpl; finish_IH IH HS1.

Ltac recolor_case IH T cc :=
  match goal with
  | HS : Sound ?s0 ?s _ |- context [recolorStep ?p ?u ?g ?pv ?s] =>
      let s1 := fresh "s1" in
      let HS1 := fresh "HS1" in
      destruct (recolorStep_spec s0 s (plug T cc) p u g pv HS) as (s1 & -> & HS1);
      [clear; rewrite keys_plug; simpl; set_solver ..|];
      simpl; finish_IH IH HS1
  end.

Lemma fixInsert_spec fuel s0 s Tn c node :
  top Tn = Some node →
  Sound s0 s (plug Tn c) →
  (length c < fuel)%nat →
  ∃ s' T', fixInsert fuel node s = Some s' ∧ Sound s0 s' T'
           ∧ keys T' = keys (plug Tn c) ∧ vals T' = vals (plug Tn c).
Proof.
  revert s Tn c node. induction fuel as [|fuel IH]; intros s Tn c node Htop HS Hlen; [lia|].
  pose proof (Sound_Rep _ _ _ HS) as HR.
  destruct Tn as [|nl node' nv nr]; [done|]. simpl in Htop. injection Htop as ->.
  simpl.
  destruct c as [|f1 c1].
  { (* the node is the root *)
    destruct HR as (Hroot & _). simpl in Hroot. rewrite decide_True by done.
    by exists s, (N nl node nv nr). }
  rewrite decide_False
    by (intros Heq; symmetry in Heq; revert Heq;
        apply (focus_not_root _ _ _ _ _ HR); simpl; set_solver).
  destruct (get_focus s nl node nv nr (f1 :: c1) HR) as (-> & _); simpl.
  set (Tp := match f1 with
             | InLeft p pv sb => N (N nl node nv nr) p pv sb
             | InRight sb p pv => N sb p pv (N nl node nv nr)
             end).
  assert (HSp : Sound s0 s (plug Tp c1)) by (by destruct f1).
  assert (Htp : top Tp = Some (frameKey f1)) by (by destruct f1).
  assert (∃ pv lp rp, Tp = N lp (frameKey f1) pv rp) as (pv & lp & rp & HTp)
    by (destruct f1; simpl; eauto).
  destruct (get_focus s lp (frameKey f1) pv rp c1) as (Egp & _ & _ & Epv & [pc Epc]);
    [rewrite <- HTp; by apply Sound_Rep in HSp|].
  rewrite Epc; simpl.
  destruct pc; simpl; [|by exists s, (plug Tp c1); destruct f1].
  rewrite Egp; simpl.
  destruct c1 as [|f2 c2]; simpl; [by exists s, Tp; destruct f1|].
  rewrite Epv; simpl. clear Egp Epv Epc HTp lp rp.
  clear HR HSp Htp.
  destruct f2 as [g gv U|U g gv], f1 as [p pv1 sb|sb p pv1]; subst Tp; simpl in *.
  - (* parent left of grandparent, node left of parent *)
    pose proof (Sound_Rep _ _ _ HS) as HR.
    destruct (get_focus s (N (N nl node nv nr) p pv1 sb) g gv U c2 HR)
      as (_ & -> & -> & -> & _); simpl.
    rewrite decide_True by done; simpl.
    destruct U as [|ul u uv ur]; simpl.
    + rot_case IH (rotateStepL_outer s0 s (N nl node nv nr) node p pv1 sb g gv E c2 pv gv eq_refl HS).
    + destruct (get_focus s ul u uv ur (InRight (N (N nl node nv nr) p pv1 sb) g gv :: c2) HR)
        as (_ & _ & _ & _ & [uc ->]); simpl.
      destruct uc.
      * recolor_case IH (N (N (N nl node nv nr) p pv1 sb) g gv (N ul u uv ur)) c2.
      * rot_case IH (rotateStepL_outer s0 s (N nl node nv nr) node p pv1 sb g gv
                    (N ul u uv ur) c2 pv gv eq_refl HS).
  - (* parent left of grandparent, node right of parent *)
    pose proof (Sound_Rep _ _ _ HS) as HR.
    destruct (get_focus s (N sb p pv1 (N nl node nv nr)) g gv U c2 HR)
      as (_ & -> & -> & -> & _); simpl.
    rewrite decide_True by done; simpl.
    destruct U as [|ul u uv ur]; simpl.
    + rot_case IH (rotateStepL_inner s0 s nl node nv nr p pv1 sb g gv E c2 pv gv HS).
    + destruct (get_focus s ul u uv ur (InRight (N sb p pv1 (N nl node nv nr)) g gv :: c2) HR)
        as (_ & _ & _ & _ & [uc ->]); simpl.
      destruct uc.
      * recolor_case IH (N (N sb p pv1 (N nl node nv nr)) g gv (N ul u uv ur)) c2.
      * rot_case IH (rotateStepL_inner s0 s nl node nv nr p pv1 sb g gv
                       (N ul u uv ur) c2 pv gv HS).
  - (* parent right of grandparent, node left of parent *)
    pose proof (Sound_Rep _ _ _ HS) as HR.
    destruct (get_focus s U g gv (N (N nl node nv nr) p pv1 sb) c2 HR)
      as (_ & -> & _ & -> & _); simpl.
    rewrite decide_False; [simpl|].
    2:{ intros Heq. symmetry in Heq. revert Heq.
        apply (focus_ne_sibling _ (N (N nl node nv nr) p pv1 sb) (InRight U g gv) c2 _ HR).
        clear; simpl; set_solver. }
    destruct U as [|ul u uv ur]; simpl.
    + rot_case IH (rotateStepR_inner s0 s nl node nv nr p pv1 sb g gv E c2 pv gv HS).
    + destruct (get_focus s ul u uv ur (InLeft g gv (N (N nl node nv nr) p pv1 sb) :: c2) HR)
        as (_ & _ & _ & _ & [uc ->]); simpl.
      destruct uc.
      * recolor_case IH (N (N ul u uv ur) g gv (N (N nl node nv nr) p pv1 sb)) c2.
      * rot_case IH (rotateStepR_inner s0 s nl node nv nr p pv1 sb g gv
                       (N ul u uv ur) c2 pv gv HS).
  - (* parent right of grandparent, node right of parent *)
    pose proof (Sound_Rep _ _ _ HS) as HR.
    destruct (get_focus s U g gv (N sb p pv1 (N nl node nv nr)) c2 HR)
      as (_ & -> & _ & -> & _); simpl.
    rewrite decide_False; [simpl|].
    2:{ intros Heq. symmetry in Heq. revert Heq.
        apply (focus_ne_sibling _ (N sb p pv1 (N nl node nv nr)) (InRight U g gv) c2 _ HR).
        clear; simpl; set_solver. }
    destruct U as [|ul u uv ur]; simpl.
    + rot_case IH (rotateStepR_outer s0 s (N nl node nv nr) node p pv1 sb g gv E c2 pv gv
                     eq_refl HS).
    + destruct (get_focus s ul u uv ur (InLeft g gv (N sb p pv1 (N nl node nv nr)) :: c2) HR)
        as (_ & _ & _ & _ & [uc ->]); simpl.
      destruct uc.
      * recolor_case IH (N (N ul u uv ur) g gv (N sb p pv1 (N nl node nv nr))) c2.
      * rot_case IH (rotateStepR_outer s0 s (N nl node nv nr) node p pv1 sb g gv
                       (N ul u uv ur) c2 pv gv eq_refl HS).
Qed.

Lemma find_loop_spec v h fuel T c :
  linked h (above c) T → (height T ≤ fuel)%nat →
  find_loop fuel v h (top T) = Some None
  ∨ ∃ zl z zr c', find_loop fuel v h (top T) = Some (Some z)
                  ∧ plug (N zl z v zr) c' = plug T c.
Proof.
  revert c fuel. induction T as [|l IHl x xv r IHr]; intros c fuel; simpl.
  - intros _ _. left. by destruct fuel.
  - intros (n & Hn & Hv & _ & Hln & Hrn & Hl & Hr) Hf.
    destruct fuel as [|fuel]; [lia|]. simpl. rewrite Hn. simpl. rewrite Hv.
    destruct (decide (v = xv)) as [->|Hne].
    + right. by exists l, x, r, c.
    + destruct (decide (v < xv)).
      * rewrite Hln. apply (IHl (InLeft x xv r :: c)); [done|lia].
      * rewrite Hrn. apply (IHr (InRight l x xv :: c)); [done|lia].
Qed.

Lemma find_loop_absent v h fuel p T :
  linked h p T → bst T → find_loop fuel v h (top T) = Some None → v ∉ vals T.
Proof.
  unfold bst. revert p fuel. induction T as [|l IHl x xv r IHr]; intros p fuel; simpl.
  - intros _ _ _. apply not_elem_of_nil.
  - intros (n & Hn & Hv & _ & Hln & Hrn & Hl & Hr) Hs.
    destruct fuel as [|fuel]; [done|]. simpl. rewrite Hn. simpl. rewrite Hv.
    apply StronglySorted_app in Hs as (Hlr & Hsl & Hsr).
    apply StronglySorted_cons in Hsr as (Hxr & Hsr). rewrite Forall_forall in Hxr.
    destruct (decide (v = xv)) as [->|Hne]; [done|].
    destruct (decide (v < xv)) as [Hlt|Hge].
    + rewrite Hln. intros Hf. specialize (IHl _ _ Hl Hsl Hf).
      rewrite elem_of_app, elem_of_cons. intros [?|[?|Hin]]; [done|done|].
      specialize (Hxr _ Hin). lia.
    + rewrite Hrn. intros Hf. specialize (IHr _ _ Hr Hsr Hf).
      rewrite elem_of_app, elem_of_cons. intros [Hin|[?|?]]; [|done|done].
      specialize (Hlr v xv Hin). rewrite elem_of_cons in Hlr. specialize (Hlr (or_introl eq_refl)).
      lia.
Qed.

Lemma descend_spec v h fuel T c :
  linked h (above c) T → (height T ≤ fuel)%nat → steered v c →
  ∃ c', descend fuel v h (above c) (top T) = Some (above c')
        ∧ plug E c' = plug T c ∧ steered v c'.
Proof.
  revert c fuel. induction T as [|l IHl x xv r IHr]; intros c fuel; simpl.
  - intros _ _ Hst. exists c. by destruct fuel.
  - intros (n & Hn & Hv & _ & Hln & Hrn & Hl & Hr) Hf Hst.
    destruct fuel as [|fuel]; [lia|]. simpl. rewrite Hn. simpl. rewrite Hv.
    destruct (decide (v < xv)).
    + rewrite Hln.
      destruct (IHl (InLeft x xv r :: c) fuel) as (c' & ? & ? & ?);
        [done|lia|by constructor|]. by exists c'.
    + rewrite Hrn.
      destruct (IHr (InRight l x xv :: c) fuel) as (c' & ? & ? & ?);
        [done|lia|by constructor|]. by exists c'.
Qed.

Lemma path_length c : (length c ≤ length (before c ++ after c))%nat.
Proof.
  induction c as [|[] c IH]; simpl; [done|..]; rewrite ?length_app in *; simpl;
    rewrite ?length_app; simpl; lia.
Qed.

Lemma Rep_path_length t T c : Rep t (plug T c) → (length c ≤ nodeCounter t)%nat.
Proof.
  intros (_ & _ & Hnd & Hb). pose proof (bounded_NoDup_length _ _ Hnd Hb) as Hlen.
  rewrite keys_plug in Hlen. pose proof (path_length c).
  rewrite !length_app in *. lia.
Qed.

(** * Attaching the new node *)

Lemma attach_Rep t c v :
  Rep t (plug E c) →
  let k := nodeCounter t in
  ∃ t2,
    update k (RBNode.with_parent (above c))
      (mkTree (<[k := RBNode.mk v red None None None]> (heap t)) (root t) (S k)) = Some t2
    ∧ match c with
      | [] => Rep (setRoot (Some k) t2) (N E k v E)
      | InLeft p pv r :: _ =>
          field RBNode.value t2 p = Some pv
          ∧ ∃ t3, update p (RBNode.with_left (Some k)) t2 = Some t3
                  ∧ Rep t3 (plug (N E k v E) c)
      | InRight l p pv :: _ =>
          field RBNode.value t2 p = Some pv
          ∧ ∃ t3, update p (RBNode.with_right (Some k)) t2 = Some t3
                  ∧ Rep t3 (plug (N E k v E) c)
      end.
Proof.
  intros HR k.
  pose proof HR as (Hroot & _ & Hc & Hnd & Hb)%Rep_plug. simpl in Hnd, Hb.
  assert (Hfresh : k ∉ before c ++ after c).
  { intros Hin. specialize (Hb _ Hin). unfold k in Hb. lia. }
  unfold update. simpl. rewrite lookup_insert_eq. simpl.
  eexists; split; [done|].
  destruct c as [|[p pv r|l p pv] c]; simpl.
  - eapply (Rep_replace_gen [k] _ _ []);
      [done|agree_tac|by intros k' ->%list_elem_of_singleton; left|done| |..].
    + eapply linked_node; [hsimp; reflexivity|done..].
    + apply NoDup_singleton.
    + intros k' ->%list_elem_of_singleton. split; [done|simpl; lia].
    + simpl. lia.
  - destruct Hc as (np & Hp & ? & ? & ? & ? & ? & ?).
    assert (p ≠ k) by (intros ->; apply Hfresh; simpl; set_solver).
    unfold field. simpl. rewrite !lookup_insert_ne by done. rewrite Hp. simpl.
    split; [by f_equal|]. eexists; split; [done|].
    eapply (Rep_replace_gen [k; p] _ _ (InLeft p pv r :: c)); [done|agree_tac| | | |..].
    + intros k' Hk. apply elem_of_cons in Hk as [->|Hk]; [by left|].
      apply list_elem_of_singleton in Hk as ->. by right.
    + split; [done|]. exists np. split; [done|]. by rewrite lookup_insert_eq.
    + eapply linked_node; [hsimp; reflexivity|done..].
    + apply NoDup_singleton.
    + intros k' ->%list_elem_of_singleton. split; [done|simpl; lia].
    + simpl. lia.
  - destruct Hc as (np & Hp & ? & ? & ? & ? & ? & ?).
    assert (p ≠ k) by (intros ->; apply Hfresh; simpl; set_solver).
    unfold field. simpl. rewrite !lookup_insert_ne by done. rewrite Hp. simpl.
    split; [by f_equal|]. eexists; split; [done|].
    eapply (Rep_replace_gen [k; p] _ _ (InRight l p pv :: c)); [done|agree_tac| | | |..].
    + intros k' Hk. apply elem_of_cons in Hk as [->|Hk]; [by left|].
      apply list_elem_of_singleton in Hk as ->. by right.
    + split; [done|]. exists np. split; [done|]. by rewrite lookup_insert_eq.
    + eapply linked_node; [hsimp; reflexivity|done..].
    + apply NoDup_singleton.
    + intros k' ->%list_elem_of_singleton. split; [done|simpl; lia].
    + simpl. lia.
Qed.

(** * [insert] as a whole *)

Lemma find_Rep v t T :
  Rep t T →
  find v t = Some None
  ∨ ∃ zl z zr c, find v t = Some (Some z) ∧ T = plug (N zl z v zr) c.
Proof.
  intros HR. pose proof (Rep_height _ _ HR). destruct HR as (Hroot & Hl & _).
  unfold find. rewrite Hroot.
  destruct (find_loop_spec v (heap t) (gas t) T [] Hl) as [?|(zl & z & zr & c & ? & ?)];
    [unfold gas; lia|by left|].
  right. by exists zl, z, zr, c.
Qed.

Lemma find_absent v t T : Rep t T → bst T → find v t = Some None → v ∉ vals T.
Proof.
  intros (Hroot & Hl & _) Hb. unfold find. rewrite Hroot. by eapply find_loop_absent.
Qed.

Lemma present_highlight h p T x :
  linked h p T → x ∈ keys T →
  filter (λ i, i ∈ (list_to_set (ids (exports h T)) : gset string)) [node_id x]
  = [node_id x].
Proof.
  intros Hl Hx. rewrite filter_cons_True; [done|].
  apply elem_of_list_to_set. rewrite (ids_exports _ _ _ Hl).
  apply list_elem_of_fmap. exists x. split; [done|]. by rewrite preorder_keys.
Qed.

Lemma insert_present v t zl z zr c :
  Rep t (plug (N zl z v zr) c) →
  find v t = Some (Some z) →
  let ns := exports (heap t) (plug (N zl z v zr) c) in
  insert v t =
    Some (t, mkOperation (numberToString v +:+ " 삽입 취소")
               [mkSnapshot (numberToString v +:+ " 이미 트리에 존재합니다.") ns
                  [node_id z] (diffSnapshots ns ns)]).
Proof.
  intros HR Hfind ns. unfold insert, startSession.
  rewrite (serializeTree_Rep _ _ HR). simpl. rewrite Hfind. simpl.
  unfold record. simpl. rewrite (serializeTree_Rep _ _ HR). simpl.
  rewrite cloneNodes_id. fold ns.
  destruct HR as (_ & Hl & _).
  pose proof (present_highlight _ _ _ z Hl (focus_in_keys _ _ _ _ _)) as Hh.
  unfold ids in Hh. unfold ns. by rewrite Hh.
Qed.

#[global] Arguments gas : simpl never.
#[global] Arguments descend : simpl never.
#[global] Arguments fixInsert : simpl never.

Lemma linked_alloc h p T k n :
  k ∉ keys T → linked h p T → linked (<[k := n]> h) p T.
Proof.
  intros Hk. apply linked_ext. intros x Hx. rewrite lookup_insert_ne; [done|].
  by intros ->.
Qed.

Ltac first_record HR s1 snp HS1 Htk Hch :=
  match goal with
  | |- context [record ?d ?hl (mkSession ?t' ?prev [])] =>
      destruct (record_full d hl _ _ _ (Sound_start t' _ prev HR))
        as (s1 & snp & -> & HS1 & _ & Htk & _ & _ & _ & Hch)
  end.

Lemma insert_fresh v t T :
  Rep t T → find v t = Some None →
  ∃ c t' op T' sn rest,
    plug E c = T ∧ steered v c
    ∧ insert v t = Some (t', op)
    ∧ Rep t' T'
    ∧ keys T' = keys (plug (N E (nodeCounter t) v E) c)
    ∧ vals T' = vals (plug (N E (nodeCounter t) v E) c)
    ∧ label op = numberToString v +:+ " 삽입"
    ∧ snapshots op = sn :: rest
    ∧ Forall okSnapshot (snapshots op)
    ∧ changes sn = diffSnapshots (exports (heap t) T) (nodes sn).
Proof.
  intros HR Hfind. unfold insert, startSession.
  rewrite (serializeTree_Rep _ _ HR). simpl. rewrite Hfind. simpl.
  pose proof (Rep_height _ _ HR) as Hh.
  pose proof HR as (Hroot & Hl & Hnd & Hb).
  assert (Hfresh : nodeCounter t ∉ keys T) by (intros Hin%Hb; lia).
  destruct (descend_spec v (<[nodeCounter t := RBNode.mk v red None None None]> (heap t))
              (gas (mkTree (<[nodeCounter t := RBNode.mk v red None None None]> (heap t))
                      (root t) (S (nodeCounter t)))) T [])
    as (c & Hdesc & Hplug & Hst);
    [by apply linked_alloc|unfold gas; simpl; lia|constructor|].
  simpl in Hplug. change (above []) with (@None nat) in Hdesc.
  rewrite <- Hroot in Hdesc. rewrite Hdesc. simpl.
  subst T. exists c.
  destruct (attach_Rep _ _ v HR) as (t2 & Ht2 & Hatt). simpl in Ht2. rewrite Ht2. simpl.
  rewrite cloneNodes_id.
  assert (∃ s1 sn T1,
    match above c with
    | Some p =>
        field RBNode.value t2 p
        ≫= λ pv : Z,
             if decide (v < pv)
             then
              update p (RBNode.with_left (Some (nodeCounter t))) t2
              ≫= λ t0 : RedBlackTree,
                   record (numberToString v +:+ "를 " +:+ numberToString pv +:+ "의 왼쪽 자식으로 삽입")
                     [node_id (nodeCounter t); node_id p]
                     (mkSession t0 (exports (heap t) (plug E c)) [])
             else
              update p (RBNode.with_right (Some (nodeCounter t))) t2
              ≫= λ t0 : RedBlackTree,
                   record (numberToString v +:+ "를 " +:+ numberToString pv +:+ "의 오른쪽 자식으로 삽입")
                     [node_id (nodeCounter t); node_id p]
                     (mkSession t0 (exports (heap t) (plug E c)) [])
    | None =>
        record (numberToString v +:+ "를 루트로 삽입") [node_id (nodeCounter t)]
          (mkSession (setRoot (Some (nodeCounter t)) t2) (exports (heap t) (plug E c)) [])
    end = Some s1
    ∧ T1 = plug (N E (nodeCounter t) v E) c
    ∧ Sound s1 s1 T1
    ∧ taken s1 = [sn]
    ∧ changes sn = diffSnapshots (exports (heap t) (plug E c)) (nodes sn))
    as (s1 & sn & T1 & -> & HT1 & HS1 & Htk & Hch).
  { destruct c as [|[p pv r|l p pv] c]; simpl.
    - first_record Hatt s1 snp HS1 Htk Hch.
      apply Sound_rebase in HS1.
      exists s1, snp, (N E (nodeCounter t) v E). do 4 (split; [done|]). exact Hch.
    - destruct Hatt as (-> & t3 & -> & HR3). simpl.
      inversion Hst as [|?? Hlt _]; subst. rewrite decide_True by done. simpl.
      first_record HR3 s1 snp HS1 Htk Hch.
      apply Sound_rebase in HS1.
      exists s1, snp, (plug (N E (nodeCounter t) v E) (InLeft p pv r :: c)).
      do 4 (split; [done|]). exact Hch.
    - destruct Hatt as (-> & t3 & -> & HR3). simpl.
      inversion Hst as [|?? Hlt _]; subst. rewrite decide_False by done. simpl.
      first_record HR3 s1 snp HS1 Htk Hch.
      apply Sound_rebase in HS1.
      exists s1, snp, (plug (N E (nodeCounter t) v E) (InRight l p pv :: c)).
      do 4 (split; [done|]). exact Hch. }
  simpl. subst T1.
  destruct (fixInsert_spec (gas (tree s1)) s1 s1 (N E (nodeCounter t) v E) c (nodeCounter t)
              eq_refl HS1) as (s2 & T2 & -> & HS2 & Hk2 & Hv2).
  { pose proof (Rep_path_length _ _ _ (Sound_Rep _ _ _ HS1)). unfold gas. lia. }
  simpl.
  pose proof (Sound_Rep _ _ _ HS2) as HR2. pose proof HR2 as (Hroot2 & _).
  destruct T2 as [|l2 r2 v2 rr2].
  { exfalso. rewrite keys_plug in Hk2. simpl in Hk2.
    by destruct (before c). }
  rewrite Hroot2. simpl.
  destruct (setColor_spec r2 black _ _ _ HS2) as (s3 & -> & HS3 & _);
    [simpl; set_solver|]. simpl.
  destruct (record_spec "루트를 검은색으로 유지" [node_id r2] _ _ _ HS3)
    as (s4 & -> & HS4 & _). simpl.
  destruct HS4 as (HR4 & Hok4 & Hpre4). rewrite Htk in Hpre4.
  destruct Hpre4 as (rest & Hrest).
  exists (tree s4), (mkOperation (numberToString v +:+ " 삽입") (taken s4)),
    (N l2 r2 v2 rr2), sn, rest.
  simpl. do 3 (split; [done|]). split; [exact HR4|]. do 3 (split; [done|]).
  split; [by rewrite Hrest|]. by split.
Qed.

(** * Splicing a node out *)

Ltac nd_tac HN :=
  clear -HN;
  repeat first [progress simpl in * | progress rewrite <- ?app_assoc in *];
  nodup_facts HN;
  repeat first [rewrite NoDup_app | rewrite NoDup_cons];
  set_solver.

Ltac in_tac :=
  let k := fresh "k" in
  intros k; clear; simpl; set_solver.

Ltac splice_tac HN ks cc :=
  eexists; split; [hsimp; done|]; split; [|split; [hsimp; done|simpl; done]];
  eapply (Rep_replace ks _ _ cc);
  [done|agree_tac|clear; set_solver|slot_tac|linked_tac HN ks|nd_tac HN|in_tac].

(** [z] has no left child: its right subtree takes its place. *)
Lemma transplant_right t z v zr c :
  Rep t (plug (N E z v zr) c) →
  ∃ t', transplant z (top zr) t = Some t'
        ∧ Rep t' (plug zr c)
        ∧ heap t' !! z = heap t !! z
        ∧ nodeCounter t' = nodeCounter t.
Proof.
  intros HR. pose proof (Rep_open _ _ _ HR) as (Hl & Hc & Hnd & Hp & Hdisj & Hroot).
  destruct Hl as ([] & Hz & Hzv & Hzp & Hzl & Hzr & _ & Hr).
  unfold transplant, field, update, updateOpt.
  destruct c as [|f c].
  - clear Hp Hdisj.
    destruct zr as [|yl y yv yr]; simpl in * |-; simplify_eq.
    + splice_tac Hnd (@nil nat) (@nil Frame).
    + destruct Hr as ([] & Hy & ? & ? & ? & ? & ? & ?); simpl in * |-; simplify_eq.
      assert (y ≠ z) by sep_tac Hnd.
      splice_tac Hnd [y] (@nil Frame).
  - pose proof (NoDup_with_parent _ _ Hnd (Hp _ eq_refl)) as HN.
    assert (top (sibling f) ≠ Some z) as Hsib
      by (eapply sibling_top_ne; [done|clear; simpl; set_solver]).
    clear Hp Hdisj Hnd.
    destruct zr as [|yl y yv yr], f as [p pv r|l p pv];
      destruct Hc as ([] & Hp' & ? & ? & ? & ? & Hr' & Hc); simpl in * |-; simplify_eq.
    + assert (p ≠ z) by sep_tac HN.
      splice_tac HN [p] (InLeft p pv r :: c).
    + assert (p ≠ z) by sep_tac HN.
      splice_tac HN [p] (InRight l p pv :: c).
    + destruct Hr as ([] & Hy & ? & ? & ? & ? & ? & ?); simpl in * |-; simplify_eq.
      assert (y ≠ z ∧ p ≠ z ∧ p ≠ y) as (?&?&?) by sep_tac HN.
      splice_tac HN [p; y] (InLeft p pv r :: c).
    + destruct Hr as ([] & Hy & ? & ? & ? & ? & ? & ?); simpl in * |-; simplify_eq.
      assert (y ≠ z ∧ p ≠ z ∧ p ≠ y) as (?&?&?) by sep_tac HN.
      splice_tac HN [p; y] (InRight l p pv :: c).
Qed.

(** [z] has no right child: its left subtree takes its place. *)
Lemma transplant_left t z v zl c :
  Rep t (plug (N zl z v E) c) →
  ∃ t', transplant z (top zl) t = Some t'
        ∧ Rep t' (plug zl c)
        ∧ heap t' !! z = heap t !! z
        ∧ nodeCounter t' = nodeCounter t.
Proof.
  intros HR. pose proof (Rep_open _ _ _ HR) as (Hl & Hc & Hnd & Hp & Hdisj & Hroot).
  destruct Hl as ([] & Hz & Hzv & Hzp & Hzl & Hzr & Hr & _).
  unfold transplant, field, update, updateOpt.
  destruct c as [|f c].
  - clear Hp Hdisj.
    destruct zl as [|yl y yv yr]; simpl in * |-; simplify_eq.
    + splice_tac Hnd (@nil nat) (@nil Frame).
    + destruct Hr as ([] & Hy & ? & ? & ? & ? & ? & ?); simpl in * |-; simplify_eq.
      assert (y ≠ z) by sep_tac Hnd.
      splice_tac Hnd [y] (@nil Frame).
  - pose proof (NoDup_with_parent _ _ Hnd (Hp _ eq_refl)) as HN.
    assert (top (sibling f) ≠ Some z) as Hsib
      by (eapply sibling_top_ne; [done|clear; simpl; set_solver]).
    clear Hp Hdisj Hnd.
    destruct zl as [|yl y yv yr], f as [p pv r|l p pv];
      destruct Hc as ([] & Hp' & ? & ? & ? & ? & Hr' & Hc); simpl in * |-; simplify_eq.
    + assert (p ≠ z) by sep_tac HN.
      splice_tac HN [p] (InLeft p pv r :: c).
    + assert (p ≠ z) by sep_tac HN.
      splice_tac HN [p] (InRight l p pv :: c).
    + destruct Hr as ([] & Hy & ? & ? & ? & ? & ? & ?); simpl in * |-; simplify_eq.
      assert (y ≠ z ∧ p ≠ z ∧ p ≠ y) as (?&?&?) by sep_tac HN.
      splice_tac HN [p; y] (InLeft p pv r :: c).
    + destruct Hr as ([] & Hy & ? & ? & ? & ? & ? & ?); simpl in * |-; simplify_eq.
      assert (y ≠ z ∧ p ≠ z ∧ p ≠ y) as (?&?&?) by sep_tac HN.
      splice_tac HN [p; y] (InRight l p pv :: c).
Qed.

Lemma plug_app T c1 c2 : plug T (c1 ++ c2) = plug (plug T c1) c2.
Proof. revert T. induction c1 as [|[] c1 IH]; intros T; simpl; [done|..]; apply IH. Qed.

Lemma minimum_loop_spec fuel h p l x v r :
  linked h p (N l x v r) → (height (N l x v r) ≤ fuel)%nat →
  ∃ y yv yr cm,
    minimum_loop fuel h x = Some y
    ∧ N l x v r = plug (N E y yv yr) cm
    ∧ Forall leftward cm.
Proof.
  revert p l x v r. induction fuel as [|fuel IH]; intros p l x v r Hl Hh; [simpl in Hh; lia|].
  destruct Hl as (n & Hx & Hv & Hp & Hleft & Hright & Hll & Hlr). simpl.
  rewrite Hx. simpl. rewrite Hleft.
  destruct l as [|ll lx lv lr]; simpl.
  - exists x, v, r, []. done.
  - destruct (IH _ _ _ _ _ Hll) as (y & yv & yr & cm & Hm & Heq & Hcm); [simpl in *; lia|].
    exists y, yv, yr, (cm ++ [InLeft x v r]). split; [done|]. split.
    + rewrite plug_app, <- Heq. done.
    + apply Forall_app. split; [done|]. by repeat constructor.
Qed.

Lemma minimum_spec t T p l x v r :
  Rep t T → linked (heap t) p (N l x v r) → (height (N l x v r) ≤ height T)%nat →
  ∃ y yv yr cm,
    minimum x t = Some y
    ∧ N l x v r = plug (N E y yv yr) cm
    ∧ Forall leftward cm.
Proof.
  intros HR Hl Hh. unfold minimum. eapply minimum_loop_spec; [done|].
  pose proof (Rep_height _ _ HR). unfold gas. lia.
Qed.

Lemma height_plug T c : (height T ≤ height (plug T c))%nat.
Proof.
  revert T. induction c as [|[] c IH]; intros T; simpl; [done|..];
    (etrans; [|apply IH]); simpl; lia.
Qed.

(** * The successor takes the place of the deleted node *)

Ltac gen_tac HN ks cc :=
  eexists; split; [hsimp; done|];
  eapply (Rep_replace ks _ _ cc);
  [done|agree_tac|clear; set_solver|slot_tac|linked_tac HN ks|nd_tac HN|in_tac].

(** The successor is the right child of [z]. *)
Lemma replaceBy_near t la l lv lb z v y yv yr c :
  Rep t (plug (N (N la l lv lb) z v (N E y yv yr)) c) →
  ∃ t', replaceBy z y t = Some t'
        ∧ Rep t' (plug (N (N la l lv lb) y yv yr) c).
Proof.
  intros HR. pose proof (Rep_open _ _ _ HR) as (Hl & Hc & Hnd & Hp & Hdisj & Hroot).
  destruct Hl as ([] & Hz & Hzv & Hzp & Hzl & Hzr
                  & ([] & Hl & Hlv & Hlp & Hll & Hlr & Hla & Hlb)
                  & ([] & Hy & Hyv & Hyp & Hyl & Hyr & _ & Hyr')).
  unfold replaceBy, transplant, field, update, updateOpt.
  destruct c as [|f c].
  - clear Hp Hdisj. simpl in * |-; simplify_eq.
    assert (y ≠ z ∧ l ≠ z ∧ l ≠ y) as (?&?&?) by sep_tac Hnd.
    gen_tac Hnd [y; l] (@nil Frame).
  - pose proof (NoDup_with_parent _ _ Hnd (Hp _ eq_refl)) as HN.
    assert (top (sibling f) ≠ Some z) as Hsib
      by (eapply sibling_top_ne; [done|clear; simpl; set_solver]).
    clear Hp Hdisj Hnd.
    destruct f as [p pv r|l' p pv];
      destruct Hc as ([] & Hp' & ? & ? & ? & ? & Hr' & Hc); simpl in * |-; simplify_eq.
    + assert (y ≠ z ∧ l ≠ z ∧ l ≠ y ∧ p ≠ z ∧ p ≠ y ∧ p ≠ l) as (?&?&?&?&?&?) by sep_tac HN.
      gen_tac HN [p; y; l] (InLeft p pv r :: c).
    + assert (y ≠ z ∧ l ≠ z ∧ l ≠ y ∧ p ≠ z ∧ p ≠ y ∧ p ≠ l) as (?&?&?&?&?&?) by sep_tac HN.
      gen_tac HN [p; y; l] (InRight l' p pv :: c).
Qed.

Lemma updateOpt_parent_id t p T :
  linked (heap t) p T →
  updateOpt (top T) (RBNode.with_parent p) t = Some t.
Proof.
  destruct T as [|l x v r]; [done|].
  intros ([] & Hx & _ & Hp & _). unfold updateOpt, update. simpl in *. rewrite Hx. simpl.
  destruct t; simpl in *. subst. f_equal. f_equal. by apply insert_id.
Qed.

Ltac away_tac HN :=
  let k := fresh "k" in
  let Hk := fresh "Hk" in
  clear -HN; intros k Hk; norm_app; nodup_facts HN;
  repeat first [rewrite elem_of_app in Hk | rewrite elem_of_cons in Hk];
  destruct_or!; subst; set_solver.

Ltac far_tac HN ks cc :=
  eexists; split; [hsimp; done|];
  eapply (Rep_replace_gen ks _ _ cc);
  [done|agree_tac|sep_tac HN|slot_tac|linked_tac HN ks|nd_tac HN| |simpl; lia].

(** The successor [y] lies deeper and has already been spliced out: it is
    a node of the store outside the tree. *)
Lemma replaceBy_far t la l lv lb z v ra r rv rb c y ny :
  Rep t (plug (N (N la l lv lb) z v (N ra r rv rb)) c) →
  heap t !! y = Some ny →
  y ∉ keys (plug (N (N la l lv lb) z v (N ra r rv rb)) c) →
  (y < nodeCounter t)%nat →
  ∃ t', (t1 ← adoptRight z y t; replaceBy z y t1) = Some t'
        ∧ Rep t' (plug (N (N la l lv lb) y (RBNode.value ny) (N ra r rv rb)) c).
Proof.
  intros HR Hy Hfresh Hlt.
  pose proof HR as (_ & _ & HN & Hb). rewrite keys_plug in HN, Hfresh, Hb.
  apply (NoDup_with_parent _ _ HN) in Hfresh as HA. clear HN Hfresh.
  pose proof (Rep_open _ _ _ HR) as (Hl & Hc & _ & _ & _ & Hroot).
  destruct Hl as ([] & Hz & Hzv & Hzp & Hzl & Hzr
                  & ([] & Hl & Hlv & Hlp & Hll & Hlr & Hla & Hlb)
                  & ([] & Hr & Hrv & Hrp & Hrl & Hrr & Hra & Hrb)).
  destruct ny as [yv yc yl yr yp].
  unfold adoptRight, replaceBy, transplant, field, update, updateOpt.
  destruct c as [|f c].
  - simpl in * |-; simplify_eq.
    assert (y ≠ z ∧ l ≠ z ∧ l ≠ y ∧ r ≠ z ∧ r ≠ y ∧ r ≠ l) as (?&?&?&?&?&?) by sep_tac HA.
    far_tac HA [y; r; l] (@nil Frame).
    intros k Hk. split; [clear; simpl; set_solver|].
    simpl in Hk. rewrite elem_of_app, elem_of_cons in Hk.
    destruct Hk as [Hk|[->|Hk]]; [|done|]; apply Hb; clear -Hk; simpl; set_solver.
  - destruct f as [p pv pr|pl p pv];
      destruct Hc as ([] & Hp' & ? & ? & ? & ? & Hr' & Hc); simpl in * |-; simplify_eq.
    + assert (y ≠ z ∧ l ≠ z ∧ l ≠ y ∧ r ≠ z ∧ r ≠ y ∧ r ≠ l
              ∧ p ≠ z ∧ p ≠ y ∧ p ≠ l ∧ p ≠ r) as (?&?&?&?&?&?&?&?&?&?) by sep_tac HA.
      far_tac HA [p; y; r; l] (InLeft p pv pr :: c).
      intros k Hk. split; [revert k Hk; away_tac HA|].
      simpl in Hk. rewrite elem_of_app, elem_of_cons in Hk.
      destruct Hk as [Hk|[->|Hk]]; [|done|]; apply Hb; clear -Hk; simpl; set_solver.
    + assert (y ≠ z ∧ l ≠ z ∧ l ≠ y ∧ r ≠ z ∧ r ≠ y ∧ r ≠ l
              ∧ p ≠ z ∧ p ≠ y ∧ p ≠ l ∧ p ≠ r) as (?&?&?&?&?&?&?&?&?&?) by sep_tac HA.
      assert (top pl ≠ Some z) by (intros Ht%top_in_keys; revert Ht; sep_tac HA).
      far_tac HA [p; y; r; l] (InRight pl p pv :: c).
      intros k Hk. split; [revert k Hk; away_tac HA|].
      simpl in Hk. rewrite elem_of_app, elem_of_cons in Hk.
      destruct Hk as [Hk|[->|Hk]]; [|done|]; apply Hb; clear -Hk; simpl; set_solver.
Qed.

(** * The steps of [fixDelete] *)

Ltac mem_tac := clear; rewrite ?keys_plug; simpl; set_solver.

Lemma colorOf_tree s s' x : tree s' = tree s → colorOf s' x = colorOf s x.
Proof. unfold colorOf, get. by intros ->. Qed.

Lemma isBlack_top s0 s T c :
  Sound s0 s (plug T c) →
  ∃ b, isBlack s (top T) = Some b ∧ (b = false → T ≠ E).
Proof.
  intros HS. destruct T as [|l x v r]; simpl.
  - by exists true.
  - destruct (get_member RBNode.color _ _ _ x HS) as (col & ->); [mem_tac|].
    simpl. eexists; split; [done|]. done.
Qed.

(** The red-sibling step, [current] on the left.  Either nothing happens, or
    the parent is rotated down: it is red afterwards, and the sibling's
    former left subtree is the new sibling. *)
Lemma redSiblingL_spec s0 s Tc p pv a sb sv b c :
  Sound s0 s (plug Tc (InLeft p pv (N a sb sv b) :: c)) →
  ∃ S' c1 s',
    redSiblingL p sb s = Some (top S', s')
    ∧ Sound s0 s' (plug Tc (InLeft p pv S' :: c1))
    ∧ ((c1 = c ∧ S' = N a sb sv b)
       ∨ (c1 = InLeft sb sv b :: c ∧ S' = a ∧ colorOf s' p = Some red)).
Proof.
  intros HS. unfold redSiblingL.
  assert (Hsb : sb ∈ keys (plug Tc (InLeft p pv (N a sb sv b) :: c))) by mem_tac.
  assert (Hp : p ∈ keys (plug Tc (InLeft p pv (N a sb sv b) :: c))) by mem_tac.
  t_get HS Hsb.
  destruct (decide (a0 = red)) as [->|Hne]; simpl.
  2:{ exists (N a sb sv b), c, s. split; [done|]. split; [done|]. by left. }
  t_setColor HS Hsb HS1. t_setColor HS1 Hp HS2.
  t_get HS2 Hsb. t_get HS2 Hsb. t_record HS2 HS3.
  destruct (rotateLeft_Sound _ _ Tc p pv a sb sv b c HS3) as (s4 & -> & HS4 & Hcol); simpl.
  assert (Hp4 : p ∈ keys (plug (N (N Tc p pv a) sb sv b) c)) by mem_tac.
  assert (Hsb4 : sb ∈ keys (plug (N (N Tc p pv a) sb sv b) c)) by mem_tac.
  t_get HS4 Hp4. t_get HS4 Hp4. t_get HS4 Hsb4. t_get HS4 Hsb4.
  t_record HS4 HS5.
  destruct (get_focus s5 Tc p pv a (InLeft sb sv b :: c) (Sound_Rep _ _ _ HS5))
    as (_ & _ & -> & _); simpl.
  exists a, (InLeft sb sv b :: c), s5. split; [done|]. split; [done|]. right.
  split; [done|]. split; [done|].
  rewrite (colorOf_tree s4 s5) by done.
  rewrite (sameColors_colorOf _ _ _ Hcol).
  rewrite (colorOf_tree s2 s3) by done. done.
Qed.

Lemma redSiblingR_spec s0 s Tc p pv a sb sv b c :
  Sound s0 s (plug Tc (InRight (N a sb sv b) p pv :: c)) →
  ∃ S' c1 s',
    redSiblingR p sb s = Some (top S', s')
    ∧ Sound s0 s' (plug Tc (InRight S' p pv :: c1))
    ∧ ((c1 = c ∧ S' = N a sb sv b)
       ∨ (c1 = InRight a sb sv :: c ∧ S' = b ∧ colorOf s' p = Some red)).
Proof.
  intros HS. unfold redSiblingR.
  assert (Hsb : sb ∈ keys (plug Tc (InRight (N a sb sv b) p pv :: c))) by mem_tac.
  assert (Hp : p ∈ keys (plug Tc (InRight (N a sb sv b) p pv :: c))) by mem_tac.
  t_get HS Hsb.
  destruct (decide (a0 = red)) as [->|Hne]; simpl.
  2:{ exists (N a sb sv b), c, s. split; [done|]. split; [done|]. by left. }
  t_setColor HS Hsb HS1. t_setColor HS1 Hp HS2.
  t_get HS2 Hsb. t_get HS2 Hsb. t_record HS2 HS3.
  destruct (rotateRight_Sound _ _ a sb sv b p pv Tc c HS3) as (s4 & -> & HS4 & Hcol); simpl.
  assert (Hp4 : p ∈ keys (plug (N a sb sv (N b p pv Tc)) c)) by mem_tac.
  assert (Hsb4 : sb ∈ keys (plug (N a sb sv (N b p pv Tc)) c)) by mem_tac.
  t_get HS4 Hp4. t_get HS4 Hp4. t_get HS4 Hsb4. t_get HS4 Hsb4.
  t_record HS4 HS5.
  destruct (get_focus s5 b p pv Tc (InRight a sb sv :: c) (Sound_Rep _ _ _ HS5))
    as (_ & -> & _); simpl.
  exists b, (InRight a sb sv :: c), s5. split; [done|]. split; [done|]. right.
  split; [done|]. split; [done|].
  rewrite (colorOf_tree s4 s5) by done.
  rewrite (sameColors_colorOf _ _ _ Hcol).
  rewrite (colorOf_tree s2 s3) by done. done.
Qed.

(** The test on the sibling's children. *)
Lemma bothBlack_spec s0 s S' c :
  Sound s0 s (plug S' c) →
  ∃ bb, bothBlack (top S') s = Some bb
        ∧ (bb = false →
           ∃ a sb sv b bl br,
             S' = N a sb sv b
             ∧ isBlack s (top a) = Some bl ∧ isBlack s (top b) = Some br
             ∧ (bl = true → b ≠ E) ∧ (br = true → a ≠ E)).
Proof.
  intros HS. unfold bothBlack. destruct S' as [|a sb sv b]; simpl.
  { by exists true. }
  destruct (get_focus s a sb sv b c (Sound_Rep _ _ _ HS)) as (_ & Hl & Hr & _).
  unfold getOpt, optField. unfold get in Hl, Hr. rewrite Hl, Hr. simpl.
  destruct (isBlack_top s0 s a (InLeft sb sv b :: c) HS) as (bl & Hbl & Ha).
  destruct (isBlack_top s0 s b (InRight a sb sv :: c) HS) as (br & Hbr & Hb).
  rewrite Hbl, Hbr. simpl. eexists; split; [done|].
  intros Hbb. exists a, sb, sv, b, bl, br. split; [done|]. split; [done|]. split; [done|].
  destruct bl, br; simpl in Hbb; try done; split; intros; auto.
Qed.

Lemma pushUp_spec s0 s T p sibling :
  Sound s0 s T →
  (∀ x, sibling = Some x → x ∈ keys T ∧ x ≠ p) →
  ∃ s', pushUp p sibling s = Some s' ∧ Sound s0 s' T ∧ colorOf s' p = colorOf s p.
Proof.
  intros HS Hsib. unfold pushUp. destruct sibling as [sb|]; [|by exists s].
  destruct (Hsib sb eq_refl) as (Hin & Hne).
  t_setColor HS Hin HS1. t_record HS1 HS2.
  eexists; split; [done|]. split; [done|].
  rewrite (colorOf_tree s1 s2) by done. auto.
Qed.

Lemma getOpt_Some f s x : getOpt f s (Some x) = get f s x.
Proof. done. Qed.

Lemma setColorOpt_eq x col s :
  onTree (updateOpt (Some x) (RBNode.with_color col)) s = setColor x col s.
Proof. done. Qed.

(** The closing rotations, [current] on the left: the sibling has a red
    child. *)
Lemma finishL_spec s0 s Tc p pv a sb sv b c bl br :
  Sound s0 s (plug Tc (InLeft p pv (N a sb sv b) :: c)) →
  isBlack s (top a) = Some bl → isBlack s (top b) = Some br →
  (bl = true → b ≠ E) → (br = true → a ≠ E) →
  ∃ s' T', finishL p (Some sb) s = Some s' ∧ Sound s0 s' T'
           ∧ keys T' = keys (plug Tc (InLeft p pv (N a sb sv b) :: c))
           ∧ vals T' = vals (plug Tc (InLeft p pv (N a sb sv b) :: c)).
Proof.
  intros HS Hbl Hbr Hb Ha. unfold finishL.
  destruct (get_focus s a sb sv b (InRight Tc p pv :: c) (Sound_Rep _ _ _ HS))
    as (_ & Hl & Hr & _).
  rewrite !getOpt_Some, Hr. simpl. rewrite Hbr. simpl.
  destruct br.
  - destruct a as [|al ax av ar]; [by destruct Ha|]. simpl.
    rewrite Hl. simpl.
    rewrite setColorOpt_eq.
    set (T0 := plug Tc (InLeft p pv (N (N al ax av ar) sb sv b) :: c)) in *.
    assert (Hax : ax ∈ keys T0) by (unfold T0; mem_tac).
    assert (Hsb : sb ∈ keys T0) by (unfold T0; mem_tac).
    t_setColor HS Hax HS1. t_setColor HS1 Hsb HS2.
    t_get HS2 Hsb. t_get HS2 Hsb. t_record HS2 HS3.
    destruct (rotateRight_Sound _ _ al ax av ar sb sv b (InRight Tc p pv :: c) HS3)
      as (s4 & -> & HS4 & _); simpl.
    destruct (get_focus s4 Tc p pv (N al ax av (N ar sb sv b)) c (Sound_Rep _ _ _ HS4))
      as (_ & _ & Er & _ & [pc Epc]); rewrite Er; simpl; rewrite Epc; simpl.
    set (T4 := plug (N al ax av (N ar sb sv b)) (InRight Tc p pv :: c)) in *.
    assert (Hax4 : ax ∈ keys T4) by (unfold T4; mem_tac).
    assert (Hsb4 : sb ∈ keys T4) by (unfold T4; mem_tac).
    assert (Hp4 : p ∈ keys T4) by (unfold T4; mem_tac).
    t_setColor HS4 Hax4 HS5.
    destruct (get_focus s5 al ax av (N ar sb sv b) (InRight Tc p pv :: c) (Sound_Rep _ _ _ HS5))
      as (_ & _ & -> & _); simpl.
    rewrite setColorOpt_eq.
    t_setColor HS5 Hsb4 HS6. t_setColor HS6 Hp4 HS7.
    rewrite ?getOpt_Some.
    t_get HS7 Hax4. t_get HS7 Hax4. t_record HS7 HS8.
    destruct (rotateLeft_Sound _ _ Tc p pv al ax av (N ar sb sv b) c HS8)
      as (s9 & -> & HS9 & _).
    eexists _, _; split; [done|]. split; [done|]. subst T0 T4. split; kv_tac.
  - destruct b as [|bl' bx bv br']; [by destruct Hb; destruct bl|]. simpl.
    set (T0 := plug Tc (InLeft p pv (N a sb sv (N bl' bx bv br')) :: c)) in *.
    assert (Hbx : bx ∈ keys T0) by (unfold T0; mem_tac).
    assert (Hsb : sb ∈ keys T0) by (unfold T0; mem_tac).
    assert (Hp : p ∈ keys T0) by (unfold T0; mem_tac).
    t_get HS Hp. t_setColor HS Hsb HS1.
    destruct (get_focus s1 a sb sv (N bl' bx bv br') (InRight Tc p pv :: c) (Sound_Rep _ _ _ HS1))
      as (_ & _ & -> & _); simpl.
    rewrite setColorOpt_eq.
    t_setColor HS1 Hbx HS2. t_setColor HS2 Hp HS3.
    rewrite ?getOpt_Some.
    t_get HS3 Hsb. t_get HS3 Hsb. t_record HS3 HS4.
    destruct (rotateLeft_Sound _ _ Tc p pv a sb sv (N bl' bx bv br') c HS4)
      as (s5 & -> & HS5 & _).
    eexists _, _; split; [done|]. split; [done|]. subst T0. split; kv_tac.
Qed.

Lemma finishR_spec s0 s Tc p pv a sb sv b c bl br :
  Sound s0 s (plug Tc (InRight (N a sb sv b) p pv :: c)) →
  isBlack s (top a) = Some bl → isBlack s (top b) = Some br →
  (bl = true → b ≠ E) → (br = true → a ≠ E) →
  ∃ s' T', finishR p (Some sb) s = Some s' ∧ Sound s0 s' T'
           ∧ keys T' = keys (plug Tc (InRight (N a sb sv b) p pv :: c))
           ∧ vals T' = vals (plug Tc (InRight (N a sb sv b) p pv :: c)).
Proof.
  intros HS Hbl Hbr Hb Ha. unfold finishR.
  destruct (get_focus s a sb sv b (InLeft p pv Tc :: c) (Sound_Rep _ _ _ HS))
    as (_ & Hl & Hr & _).
  rewrite !getOpt_Some, Hl. simpl. rewrite Hbl. simpl.
  destruct bl.
  - destruct b as [|bl' bx bv br']; [by destruct Hb|]. simpl.
    rewrite Hr. simpl.
    rewrite setColorOpt_eq.
    set (T0 := plug Tc (InRight (N a sb sv (N bl' bx bv br')) p pv :: c)) in *.
    assert (Hbx : bx ∈ keys T0) by (unfold T0; mem_tac).
    assert (Hsb : sb ∈ keys T0) by (unfold T0; mem_tac).
    t_setColor HS Hbx HS1. t_setColor HS1 Hsb HS2.
    t_get HS2 Hsb. t_get HS2 Hsb. t_record HS2 HS3.
    destruct (rotateLeft_Sound _ _ a sb sv bl' bx bv br' (InLeft p pv Tc :: c) HS3)
      as (s4 & -> & HS4 & _); simpl.
    destruct (get_focus s4 (N (N a sb sv bl') bx bv br') p pv Tc c (Sound_Rep _ _ _ HS4))
      as (_ & El & _ & _ & [pc Epc]); rewrite El; simpl; rewrite Epc; simpl.
    set (T4 := plug (N (N a sb sv bl') bx bv br') (InLeft p pv Tc :: c)) in *.
    assert (Hbx4 : bx ∈ keys T4) by (unfold T4; mem_tac).
    assert (Hsb4 : sb ∈ keys T4) by (unfold T4; mem_tac).
    assert (Hp4 : p ∈ keys T4) by (unfold T4; mem_tac).
    t_setColor HS4 Hbx4 HS5.
    destruct (get_focus s5 (N a sb sv bl') bx bv br' (InLeft p pv Tc :: c) (Sound_Rep _ _ _ HS5))
      as (_ & -> & _); simpl.
    rewrite setColorOpt_eq.
    t_setColor HS5 Hsb4 HS6. t_setColor HS6 Hp4 HS7.
    rewrite ?getOpt_Some.
    t_get HS7 Hbx4. t_get HS7 Hbx4. t_record HS7 HS8.
    destruct (rotateRight_Sound _ _ (N a sb sv bl') bx bv br' p pv Tc c HS8)
      as (s9 & -> & HS9 & _).
    eexists _, _; split; [done|]. split; [done|]. subst T0 T4. split; kv_tac.
  - destruct a as [|al ax av ar]; [simpl in Hbl; by simplify_eq|]. simpl.
    set (T0 := plug Tc (InRight (N (N al ax av ar) sb sv b) p pv :: c)) in *.
    assert (Hax : ax ∈ keys T0) by (unfold T0; mem_tac).
    assert (Hsb : sb ∈ keys T0) by (unfold T0; mem_tac).
    assert (Hp : p ∈ keys T0) by (unfold T0; mem_tac).
    t_get HS Hp. t_setColor HS Hsb HS1.
    destruct (get_focus s1 (N al ax av ar) sb sv b (InLeft p pv Tc :: c) (Sound_Rep _ _ _ HS1))
      as (_ & -> & _); simpl.
    rewrite setColorOpt_eq.
    t_setColor HS1 Hax HS2. t_setColor HS2 Hp HS3.
    rewrite ?getOpt_Some.
    t_get HS3 Hsb. t_get HS3 Hsb. t_record HS3 HS4.
    destruct (rotateRight_Sound _ _ (N al ax av ar) sb sv b p pv Tc c HS4)
      as (s5 & -> & HS5 & _).
    eexists _, _; split; [done|]. split; [done|]. subst T0. split; kv_tac.
Qed.

(** * The loop of [fixDelete] *)

Lemma fixDelete_loop_red fuel cur par s :
  isBlack s cur = Some false →
  fixDelete_loop (S fuel) cur par s = Some (cur, s).
Proof.
  intros H. simpl. rewrite H. simpl. rewrite decide_False; [done|]. by intros [_ ?].
Qed.

Lemma top_not_root t T f c : Rep t (plug T (f :: c)) → top T ≠ root t.
Proof.
  intros HR. destruct (top T) as [x|] eqn:Htop.
  - intros Heq. symmetry in Heq. revert Heq.
    apply (focus_not_root _ _ _ _ _ HR). by apply top_in_keys.
  - destruct (Rep_open _ _ _ HR) as (_ & _ & _ & _ & _ & Hroot).
    destruct (pathRoot_cons (top T) f c) as (k & Hk & _). by rewrite Hroot, Hk.
Qed.

Lemma Sound_root s0 s T x : Sound s0 s T → root (tree s) = Some x → x ∈ keys T.
Proof. intros ((Hroot & _) & _) Hx. apply top_in_keys. by rewrite <- Hroot. Qed.

Lemma parent_not_in_sibling t T f c :
  Rep t (plug T (f :: c)) → top (sibling f) ≠ Some (frameKey f).
Proof.
  intros (_ & _ & Hnd & _). rewrite keys_plug in Hnd.
  intros Ht%top_in_keys. revert Ht. destruct f; simpl in *; sep_tac Hnd.
Qed.

Ltac up_tac IH T cc HS :=
  let cur := fresh "cur" in
  let s' := fresh "s'" in
  let T' := fresh "T'" in
  let E := fresh "E" in
  let HS' := fresh "HS'" in
  let Hk := fresh "Hk" in
  let Hv := fresh "Hv" in
  let Hm := fresh "Hm" in
  destruct (IH _ T cc HS) as (cur & s' & T' & E & HS' & Hk & Hv & Hm);
  [simpl in *; lia|];
  simpl in E; rewrite E;
  exists cur, s', T'; split; [done|]; split; [done|];
  split; [rewrite Hk; kv_tac|]; split; [rewrite Hv; kv_tac|done].

Lemma fixDelete_loop_spec fuel s0 s Tc c :
  Sound s0 s (plug Tc c) →
  (length c + 1 < fuel)%nat →
  ∃ cur s' T',
    fixDelete_loop fuel (top Tc) (above c) s = Some (cur, s')
    ∧ Sound s0 s' T'
    ∧ keys T' = keys (plug Tc c) ∧ vals T' = vals (plug Tc c)
    ∧ ∀ x, cur = Some x → x ∈ keys T'.
Proof.
  revert s Tc c. induction fuel as [|fuel IH]; intros s Tc c HS Hlen; [lia|].
  pose proof (Sound_Rep _ _ _ HS) as HR.
  destruct (isBlack_top _ _ _ _ HS) as (cb & Hcb & _).
  simpl. rewrite Hcb. simpl.
  assert (Hexit : ∃ cur s' T',
             Some (top Tc, s) = Some (cur, s') ∧ Sound s0 s' T'
             ∧ keys T' = keys (plug Tc c) ∧ vals T' = vals (plug Tc c)
             ∧ ∀ x, cur = Some x → x ∈ keys T').
  { exists (top Tc), s, (plug Tc c). do 4 (split; [done|]).
    intros x Hx. by apply top_in_plug. }
  destruct c as [|f c'].
  { rewrite decide_False; [done|]. intros [Hne _]. apply Hne.
    destruct HR as (-> & _). done. }
  destruct cb; [|rewrite decide_False; [done|]; by intros [_ ?]].
  rewrite decide_True by (split; [by eapply top_not_root|done]).
  clear Hexit. simpl above.
  pose proof (parent_not_in_sibling _ _ _ _ HR) as Hps.
  destruct f as [p pv S|S p pv]; simpl in Hps; simpl.
  - destruct (get_focus s Tc p pv S c' HR) as (Epp & El & Er & _).
    rewrite El; simpl. rewrite decide_True by done. rewrite Er; simpl.
    destruct S as [|a sb sv b]; simpl.
    { rewrite Epp; simpl. up_tac IH (N Tc p pv E) c' HS. }
    clear Epp El Er.
    destruct (redSiblingL_spec _ _ _ _ _ _ _ _ _ _ HS) as (S' & c1 & s1 & -> & HS1 & Hcase).
    simpl.
    destruct (bothBlack_spec s0 s1 S' (InRight Tc p pv :: c1) HS1) as (bb & -> & Hbb).
    simpl. destruct bb.
    + destruct (pushUp_spec s0 s1 _ p (top S') HS1) as (s2 & -> & HS2 & Hcol).
      { intros x Hx. split; [by apply top_in_keys in Hx; revert Hx; mem_tac|].
        intros ->. revert Hx.
        apply (parent_not_in_sibling _ _ (InLeft p pv S') _ (Sound_Rep _ _ _ HS1)). }
      simpl.
      destruct (get_focus s2 Tc p pv S' c1 (Sound_Rep _ _ _ HS2)) as (-> & _); simpl.
      destruct Hcase as [(-> & ->)|(-> & -> & Hred)].
      * up_tac IH (N Tc p pv (N a sb sv b)) c' HS2.
      * destruct fuel as [|fuel]; [simpl in *; lia|].
        rewrite fixDelete_loop_red
          by (simpl; unfold colorOf in Hcol, Hred; rewrite Hcol, Hred; done).
        eexists _, _, _; split; [done|]. split; [done|].
        split; [kv_tac|]. split; [kv_tac|]. intros x [= <-]. mem_tac.
    + destruct (Hbb eq_refl) as (a' & sb' & sv' & b' & bl & br & -> & Hbl & Hbr & Hb & Ha).
      simpl top.
      destruct (finishL_spec _ _ _ _ _ _ _ _ _ _ _ _ HS1 Hbl Hbr Hb Ha)
        as (s2 & T2 & -> & HS2 & Hk & Hv).
      simpl. exists (root (tree s2)), s2, T2. split; [done|]. split; [done|].
      split; [|split]; [| |intros x; by apply (Sound_root s0)];
        destruct Hcase as [(-> & Heq)|(-> & Heq & _)];
        first [rewrite Hk|rewrite Hv]; try injection Heq as -> -> -> ->;
        try rewrite <- Heq; kv_tac.
  - destruct (get_focus s S p pv Tc c' HR) as (Epp & El & Er & _).
    rewrite El; simpl.
    destruct S as [|a sb sv b]; simpl.
    { destruct Tc as [|tl tx tv tr]; simpl.
      - rewrite Er; simpl. rewrite Epp; simpl.
        up_tac IH (N E p pv E) c' HS.
      - rewrite Epp; simpl.
        up_tac IH (N E p pv (N tl tx tv tr)) c' HS. }
    rewrite decide_False.
    2:{ destruct (top Tc) as [x|] eqn:Htop; [|done].
        intros Heq. symmetry in Heq. revert Heq.
        apply (focus_ne_sibling _ _ (InRight (N a sb sv b) p pv) _ _ HR).
        by apply top_in_keys. }
    simpl. clear Epp El Er.
    destruct (redSiblingR_spec _ _ _ _ _ _ _ _ _ _ HS) as (S' & c1 & s1 & -> & HS1 & Hcase).
    simpl.
    destruct (bothBlack_spec s0 s1 S' (InLeft p pv Tc :: c1) HS1) as (bb & -> & Hbb).
    simpl. destruct bb.
    + destruct (pushUp_spec s0 s1 _ p (top S') HS1) as (s2 & -> & HS2 & Hcol).
      { intros x Hx. split; [by apply top_in_keys in Hx; revert Hx; mem_tac|].
        intros ->. revert Hx.
        apply (parent_not_in_sibling _ _ (InRight S' p pv) _ (Sound_Rep _ _ _ HS1)). }
      simpl.
      destruct (get_focus s2 S' p pv Tc c1 (Sound_Rep _ _ _ HS2)) as (-> & _); simpl.
      destruct Hcase as [(-> & ->)|(-> & -> & Hred)].
      * up_tac IH (N (N a sb sv b) p pv Tc) c' HS2.
      * destruct fuel as [|fuel]; [simpl in *; lia|].
        rewrite fixDelete_loop_red
          by (simpl; unfold colorOf in Hcol, Hred; rewrite Hcol, Hred; done).
        eexists _, _, _; split; [done|]. split; [done|].
        split; [kv_tac|]. split; [kv_tac|]. intros x [= <-]. mem_tac.
    + destruct (Hbb eq_refl) as (a' & sb' & sv' & b' & bl & br & -> & Hbl & Hbr & Hb & Ha).
      simpl top.
      destruct (finishR_spec _ _ _ _ _ _ _ _ _ _ _ _ HS1 Hbl Hbr Hb Ha)
        as (s2 & T2 & -> & HS2 & Hk & Hv).
      simpl. exists (root (tree s2)), s2, T2. split; [done|]. split; [done|].
      split; [|split]; [| |intros x; by apply (Sound_root s0)];
        destruct Hcase as [(-> & Heq)|(-> & Heq & _)];
        first [rewrite Hk|rewrite Hv]; try injection Heq as -> -> -> ->;
        try rewrite <- Heq; kv_tac.
Qed.

(** * [fixDelete] as a whole *)

Lemma fixDelete_spec s0 s Tc c :
  Sound s0 s (plug Tc c) →
  ∃ s' T', fixDelete (top Tc) (above c) s = Some s' ∧ Sound s0 s' T'
           ∧ keys T' = keys (plug Tc c) ∧ vals T' = vals (plug Tc c).
Proof.
  intros HS. unfold fixDelete.
  destruct (fixDelete_loop_spec (gas (tree s)) s0 s Tc c HS)
    as (cur & s1 & T1 & -> & HS1 & Hk & Hv & Hm).
  { pose proof (Rep_path_length _ _ _ (Sound_Rep _ _ _ HS)). unfold gas. lia. }
  simpl. destruct cur as [x|]; [|by exists s1, T1].
  t_setColor HS1 (Hm x eq_refl) HS2. t_record HS2 HS3. by exists s3, T1.
Qed.

#[global] Arguments fixDelete : simpl never.
#[global] Arguments minimum : simpl never.
#[global] Arguments transplant : simpl never.
#[global] Arguments adoptRight : simpl never.
#[global] Arguments replaceBy : simpl never.

(** * Unlinking the target *)

Lemma leftward_before cm : Forall leftward cm → before cm = [] ∧ vbefore cm = [].
Proof.
  induction 1 as [|[] cm Hf _ IH]; simpl; [done| |done]. done.
Qed.

Lemma plug_cons_N T f c : ∃ l x v r, plug T (f :: c) = N l x v r.
Proof.
  destruct (plug T (f :: c)) as [|l x v r] eqn:Heq; [|eauto].
  pose proof (top_plug T (f :: c)) as Ht. rewrite Heq in Ht.
  destruct (pathRoot_cons (top T) f c) as (k & Hk & _). simpl in *. congruence.
Qed.

Lemma get_outside {A} (g : RBNode.t → A) s t' x n :
  heap t' !! x = Some n →
  get g (mkSession t' (previousNodes s) (taken s)) x = Some (g n).
Proof. intros H. unfold get, field. simpl. by rewrite H. Qed.

Lemma Sound_onTree s0 s T t' T' :
  Sound s0 s T → Rep t' T' → Sound s0 (mkSession t' (previousNodes s) (taken s)) T'.
Proof. intros (_ & ? & ?) ?. by split. Qed.

Lemma Sound_eta s0 s T :
  Sound s0 s T → Sound s0 (mkSession (tree s) (previousNodes s) (taken s)) T.
Proof. by destruct s. Qed.

Ltac t_record_as HS s' HS' Ht :=
  match goal with
  | |- context [record ?d ?hl ?s] =>
      let E := fresh "E" in
      destruct (record_spec d hl _ s _ HS) as (s' & E & HS' & Ht);
      rewrite E; clear E; simpl
  end.

Lemma unlink_spec value s0 s zl z v zr c :
  Sound s0 s (plug (N zl z v zr) c) →
  ∃ col Tx cx s',
    unlink value z s = Some (col, top Tx, above cx, s')
    ∧ Sound s0 s' (plug Tx cx)
    ∧ keys (plug Tx cx) = before c ++ keys zl ++ keys zr ++ after c
    ∧ vals (plug Tx cx) = vbefore c ++ vals zl ++ vals zr ++ vafter c.
Proof.
  intros HS. pose proof (Sound_Rep _ _ _ HS) as HR.
  destruct (get_focus s zl z v zr c HR) as (Ep & El & Er & _ & [zc Ec]).
  destruct (Rep_focus _ _ _ _ _ _ HR) as (nz & Hnz & _).
  unfold unlink. rewrite Ec; simpl. rewrite El; simpl. rewrite Er; simpl.
  destruct zl as [|la l lv lb]; simpl.
  { (* no left child *)
    rewrite Ep; simpl.
    destruct (transplant_right _ _ _ _ _ HR) as (t1 & Ht1 & HR1 & Hz1 & _).
    rewrite (onTree_Some _ _ _ Ht1); simpl.
    rewrite Hnz in Hz1.
    rewrite !(get_outside _ s t1 z nz Hz1); simpl.
    pose proof (Sound_onTree _ _ _ _ _ HS HR1) as HS1.
    t_record_as HS1 s2 HS2 Ht2.
    exists zc, zr, c, s2. split; [done|]. split; [done|]. split; kv_tac. }
  destruct zr as [|ra r rv rb]; simpl.
  { (* no right child *)
    rewrite Ep; simpl.
    destruct (transplant_left _ _ _ _ _ HR) as (t1 & Ht1 & HR1 & Hz1 & _).
    simpl in Ht1.
    rewrite (onTree_Some _ _ _ Ht1); simpl.
    rewrite Hnz in Hz1.
    rewrite !(get_outside _ s t1 z nz Hz1); simpl.
    pose proof (Sound_onTree _ _ _ _ _ HS HR1) as HS1.
    t_record_as HS1 s2 HS2 Ht2.
    exists zc, (N la l lv lb), c, s2. split; [done|]. split; [done|].
    split; rewrite ?keys_plug, ?vals_plug; simpl; rewrite <- ?app_assoc; done. }
  (* two children *)
  destruct (Rep_open _ _ _ HR) as (Hlz & _ & Hndz & _).
  destruct Hlz as (? & _ & _ & _ & _ & _ & _ & Hlr).
  destruct (minimum_spec (tree s) _ _ _ _ _ _ HR Hlr) as (y & yv & yr & cm & Hmin & Hzr & Hcm).
  { etrans; [|apply height_plug]. simpl. lia. }
  rewrite Hmin; simpl.
  destruct (leftward_before _ Hcm) as (Hbcm & Hvbcm).
  assert (Hkzr : keys (N ra r rv rb) = y :: keys yr ++ after cm)
    by (rewrite Hzr, keys_plug, Hbcm; done).
  assert (Hvzr : vals (N ra r rv rb) = yv :: vals yr ++ vafter cm)
    by (rewrite Hzr, vals_plug, Hvbcm; done).
  simpl in Hkzr, Hvzr. clear Hlr Hmin.
  assert (HSy : Sound s0 s (plug (N E y yv yr) (cm ++ InRight (N la l lv lb) z v :: c)))
    by (rewrite plug_app; simpl; by rewrite <- Hzr).
  pose proof (Sound_Rep _ _ _ HSy) as HRy.
  destruct (get_focus s E y yv yr _ HRy) as (Eyp & _ & Eyr & Eyv & [yc Eyc]).
  destruct (Rep_focus _ _ _ _ _ _ HRy) as (ny & Hny & Hnyv & _).
  rewrite Eyc; simpl. rewrite Eyv; simpl. rewrite Eyr; simpl. rewrite Eyp; simpl.
  destruct cm as [|f cm']; simpl.
  - (* the successor is the right child *)
    simpl in Hzr. injection Hzr as -> -> -> ->.
    rewrite decide_True by done. simpl.
    destruct (Rep_open _ _ _ HRy) as (Hly & _).
    destruct Hly as (? & _ & _ & _ & _ & _ & _ & Hlyr).
    rewrite (onTree_Some _ _ _ (updateOpt_parent_id _ _ _ Hlyr)). simpl.
    apply Sound_eta in HS.
    destruct (replaceBy_near _ _ _ _ _ _ _ _ _ _ _ (Sound_Rep _ _ _ HS)) as (t1 & Ht1 & HR1).
    rewrite (onTree_Some _ _ _ Ht1); simpl.
    pose proof (Sound_onTree _ _ _ _ _ HS HR1) as HS1. simpl in HS1.
    assert (Hy1 : y ∈ keys (plug (N (N la l lv lb) y yv yr) c)) by mem_tac.
    t_get HS1 Hy1. t_get HS1 Hy1. t_record_as HS1 s2 HS2 Ht2.
    exists yc, yr, (InRight (N la l lv lb) y yv :: c), s2.
    split; [done|]. split; [done|]. split; kv_tac.
  - (* the successor lies deeper *)
    assert (frameKey f ≠ z) as Hfz.
    { intros Heq.
      assert (Hin : frameKey f ∈ keys (N ra r rv rb)).
      { rewrite Hzr, keys_plug.
        pose proof (proj2 (path_keys_cons f cm' (frameKey f)) (or_introl eq_refl)) as Hp.
        revert Hp. rewrite !elem_of_app. tauto. }
      rewrite Heq in Hin. revert Hin. sep_tac Hndz. }
    rewrite decide_False by (unfold above; simpl; congruence). simpl.
    destruct (transplant_right _ _ _ _ _ HRy) as (t1 & Ht1 & HR1 & Hy1 & Hn1).
    rewrite (onTree_Some _ _ _ Ht1); simpl.
    rewrite Hny in Hy1.
    rewrite !(get_outside _ s t1 y ny Hy1); simpl.
    pose proof (Sound_onTree _ _ _ _ _ HSy HR1) as HS1.
    t_record_as HS1 s2 HS2 Hts2.
    destruct (plug_cons_N yr f cm') as (ra' & r' & rv' & rb' & HR').
    rewrite plug_app, HR' in HS2. simpl in HS2.
    destruct (replaceBy_far (tree s2) la l lv lb z v ra' r' rv' rb' c y ny)
      as (t3 & Ht3 & HR3).
    { by apply Sound_Rep in HS2. }
    { by rewrite Hts2. }
    { destruct HRy as (_ & _ & Hnd & _). rewrite <- HR'.
      change (y ∉ keys (plug (plug yr (f :: cm')) (InRight (N la l lv lb) z v :: c))).
      rewrite <- plug_app. rewrite keys_plug in Hnd |- *. revert Hnd. clear.
      generalize (before ((f :: cm') ++ InRight (N la l lv lb) z v :: c)).
      generalize (after ((f :: cm') ++ InRight (N la l lv lb) z v :: c)).
      intros k1 k2 Hnd. sep_tac Hnd. }
    { rewrite Hts2. simpl. rewrite Hn1. destruct HRy as (_ & _ & _ & Hb). apply Hb. mem_tac. }
    apply bind_Some in Ht3 as (t2 & Ht2 & Ht3).
    rewrite (onTree_Some _ _ _ Ht2); simpl.
    rewrite (onTree_Some (replaceBy z y) (mkSession t2 (previousNodes s2) (taken s2)) t3 Ht3).
    simpl.
    pose proof (Sound_onTree _ _ _ _ _ HS2 HR3) as HS3. rewrite Hnyv in HS3.
    assert (Hy3 : y ∈ keys (plug (N (N la l lv lb) y yv (N ra' r' rv' rb')) c)) by mem_tac.
    t_get HS3 Hy3. t_get HS3 Hy3. t_record_as HS3 s4 HS4 Hts4.
    exists yc, yr, ((f :: cm') ++ InRight (N la l lv lb) y yv :: c), s4.
    assert (Hpl : plug yr ((f :: cm') ++ InRight (N la l lv lb) y yv :: c)
                  = plug (N (N la l lv lb) y yv (N ra' r' rv' rb')) c)
      by (by rewrite plug_app, HR').
    split; [done|]. rewrite Hpl. split; [done|].
    rewrite <- HR'. rewrite keys_plug, vals_plug. cbn [keys vals].
    rewrite keys_plug, vals_plug, Hbcm, Hvbcm, Hkzr, Hvzr. simpl.
    split; repeat first [progress simpl | progress rewrite <- ?app_assoc]; done.
Qed.

#[global] Arguments unlink : simpl never.

(** * [delete] as a whole *)

Lemma delete_absent v t T :
  Rep t T →
  find v t = Some None →
  let ns := exports (heap t) T in
  delete v t =
    Some (t, mkOperation (numberToString v +:+ " 삭제 취소")
               [mkSnapshot (numberToString v +:+ " 값을 갖는 노드를 찾지 못했습니다.") ns
                  [] (diffSnapshots ns ns)]).
Proof.
  intros HR Hfind ns. unfold delete, startSession.
  rewrite (serializeTree_Rep _ _ HR). simpl. rewrite Hfind. simpl.
  unfold record. simpl. rewrite (serializeTree_Rep _ _ HR). simpl.
  by rewrite cloneNodes_id.
Qed.

Lemma delete_present v t zl z zr c :
  Rep t (plug (N zl z v zr) c) →
  find v t = Some (Some z) →
  ∃ t' op T' sn rest,
    delete v t = Some (t', op)
    ∧ Rep t' T'
    ∧ keys T' = before c ++ keys zl ++ keys zr ++ after c
    ∧ vals T' = vbefore c ++ vals zl ++ vals zr ++ vafter c
    ∧ label op = numberToString v +:+ " 삭제"
    ∧ snapshots op = sn :: rest
    ∧ Forall okSnapshot (snapshots op)
    ∧ changes sn = diffSnapshots (exports (heap t) (plug (N zl z v zr) c)) (nodes sn).
Proof.
  intros HR Hfind. unfold delete, startSession.
  rewrite (serializeTree_Rep _ _ HR). simpl. rewrite Hfind. simpl.
  rewrite cloneNodes_id.
  first_record HR s1 snp HS1 Htk Hch. simpl.
  apply Sound_rebase in HS1.
  destruct (unlink_spec v s1 s1 zl z v zr c HS1)
    as (col & Tx & cx & s2 & -> & HS2 & Hk2 & Hv2). simpl.
  assert (∃ s3 T3,
    (if decide (col = black) then fixDelete (top Tx) (above cx) s2 else Some s2) = Some s3
    ∧ Sound s1 s3 T3 ∧ keys T3 = keys (plug Tx cx) ∧ vals T3 = vals (plug Tx cx))
    as (s3 & T3 & -> & HS3 & Hk3 & Hv3).
  { destruct (decide (col = black)); [by apply fixDelete_spec|].
    by exists s2, (plug Tx cx). }
  simpl. rewrite Hk2 in Hk3. rewrite Hv2 in Hv3. clear Hk2 Hv2 HS2.
  pose proof (Sound_Rep _ _ _ HS3) as HR3. pose proof HR3 as (Hroot3 & _).
  rewrite Hroot3.
  assert (∃ s4,
    match top T3 with
    | Some r => setColor r black s3 ≫= λ s, record "루트를 검은색으로 유지" [node_id r] s
    | None => record "트리가 비어 있습니다." [] s3
    end = Some s4 ∧ Sound s1 s4 T3) as (s4 & -> & HS4).
  { destruct T3 as [|l3 r3 v3 rr3]; simpl.
    - t_record_as HS3 s4 HS4 Ht4. eauto.
    - destruct (setColor_spec r3 black _ _ _ HS3) as (s4 & -> & HS4 & _);
        [simpl; set_solver|]. simpl.
      t_record_as HS4 s5 HS5 Ht5. eauto. }
  simpl.
  destruct HS4 as (HR4 & Hok4 & Hpre4). rewrite Htk in Hpre4.
  destruct Hpre4 as (rest & Hrest).
  exists (tree s4), (mkOperation (numberToString v +:+ " 삭제") (taken s4)), T3, snp, rest.
  simpl. split; [done|]. split; [exact HR4|]. do 5 (split; [done|]). exact Hch.
Qed.

(** * The search order is kept *)

Lemma sorted_remove (A B : list Z) v :
  StronglySorted Z.lt (A ++ v :: B) → StronglySorted Z.lt (A ++ B).
Proof.
  rewrite !StronglySorted_app, StronglySorted_cons.
  intros (Hab & HA & _ & HB). split; [|done].
  intros x1 x2 H1 H2. apply Hab; [done|]. by apply elem_of_cons; right.
Qed.

Lemma sorted_insert (A B : list Z) v :
  StronglySorted Z.lt (A ++ B) →
  Forall (λ u, u < v) A → Forall (λ u, v < u) B →
  StronglySorted Z.lt (A ++ v :: B).
Proof.
  rewrite !StronglySorted_app, StronglySorted_cons, !Forall_forall.
  intros (Hab & HA & HB) Hlt Hgt. split; [|done].
  intros x1 x2 H1 [->|H2]%elem_of_cons; [by apply Hlt|by apply Hab].
Qed.

Lemma sorted_drop_middle (A M B : list Z) :
  StronglySorted Z.lt (A ++ M ++ B) → StronglySorted Z.lt (A ++ B).
Proof.
  rewrite !StronglySorted_app. intros (H1 & HA & _ & _ & HB). split; [|done].
  intros x1 x2 Hx1 Hx2. apply H1; [done|]. apply elem_of_app. by right.
Qed.

Lemma steered_bounds v c :
  steered v c →
  StronglySorted Z.lt (vbefore c ++ vafter c) →
  v ∉ vbefore c ++ vafter c →
  Forall (λ u, u < v) (vbefore c) ∧ Forall (λ u, v < u) (vafter c).
Proof.
  induction 1 as [|[x xv r|l x xv] c Hf _ IH]; simpl; [done|..]; intros Hs Hv.
  - assert (Hs' : StronglySorted Z.lt (vbefore c ++ vafter c))
      by (apply sorted_remove in Hs; by apply sorted_drop_middle in Hs).
    destruct IH as (IH1 & IH2); [done|set_solver|].
    split; [done|].
    apply StronglySorted_app in Hs as (_ & _ & Hs).
    apply StronglySorted_cons in Hs as (Hxv & _).
    rewrite Forall_forall in Hxv |- *.
    intros u [->|Hu]%elem_of_cons; [done|]. specialize (Hxv u Hu). lia.
  - assert (Hs' : StronglySorted Z.lt (vbefore c ++ vafter c))
      by (rewrite <- app_assoc in Hs; by apply sorted_drop_middle in Hs).
    destruct IH as (IH1 & IH2); [done|set_solver|].
    split; [|done].
    assert (xv < v) by (assert (v ≠ xv) by set_solver; lia).
    rewrite <- !app_assoc in Hs.
    apply StronglySorted_app in Hs as (_ & _ & Hs).
    apply StronglySorted_app in Hs as (Hlx & _ & _).
    rewrite !Forall_app. split; [done|]. split; [|by repeat constructor].
    rewrite Forall_forall. intros u Hu.
    assert (u < xv) by (apply Hlx; [done|set_solver]). lia.
Qed.

(** * The values, read in order *)

Lemma inorder_linked h p T fuel :
  linked h p T → (height T ≤ fuel)%nat →
  inorder fuel h (top T) = Some (vals T).
Proof.
  revert p fuel. induction T as [|l IHl x v r IHr]; intros p fuel; simpl;
    [by destruct fuel|].
  intros (n & Hn & Hv & _ & Hln & Hrn & Hl & Hr) Hf.
  destruct fuel as [|fuel]; [lia|]. simpl. rewrite Hn. simpl.
  rewrite Hln, Hrn, (IHl _ _ Hl), (IHr _ _ Hr) by lia. simpl. by rewrite Hv.
Qed.

Lemma inorderValues_Rep t T : Rep t T → inorderValues t = Some (vals T).
Proof.
  intros HR. pose proof (Rep_height _ _ HR). destruct HR as (Hroot & Hl & _).
  unfold inorderValues. rewrite Hroot. eapply inorder_linked; [done|].
  unfold gas. lia.
Qed.

Lemma Inv_empty : Inv emptyTree.
Proof.
  exists E. split; [|constructor].
  split; [done|]. split; [done|]. split; [constructor|]. intros x Hx. by apply elem_of_nil in Hx.
Qed.

Lemma find_present v t T :
  Rep t T → bst T → v ∈ vals T →
  ∃ zl z zr c, find v t = Some (Some z) ∧ T = plug (N zl z v zr) c.
Proof.
  intros HR Hb Hv. destruct (find_Rep v t T HR) as [Hnone|?]; [|done].
  by apply (find_absent _ _ _ HR Hb) in Hnone.
Qed.

Lemma find_missing v t T :
  Rep t T → v ∉ vals T → find v t = Some None.
Proof.
  intros HR Hv. destruct (find_Rep v t T HR) as [?|(zl & z & zr & c & _ & ->)]; [done|].
  exfalso. apply Hv. rewrite vals_plug. simpl. set_solver.
Qed.

Lemma insert_Inv v t :
  Inv t → ∃ t' op, insert v t = Some (t', op) ∧ Inv t' ∧ goodRecord t op.
Proof.
  intros (T & HR & Hb).
  destruct (find_Rep v t T HR) as [Hnone|(zl & z & zr & c & Hfind & ->)].
  - pose proof (find_absent _ _ _ HR Hb Hnone) as Hv.
    destruct (insert_fresh v t T HR Hnone)
      as (c & t' & op & T' & sn & rest & <- & Hst & -> & HR' & _ & Hv' & _ & Hsn & Hok & Hch).
    exists t', op. split; [done|]. split.
    + exists T'. split; [done|]. unfold bst in *. rewrite Hv', vals_plug. simpl.
      rewrite vals_plug in Hb, Hv. simpl in Hb, Hv.
      destruct (steered_bounds v c Hst Hb Hv). by apply sorted_insert.
    + split; [done|]. exists (exports (heap t) (plug E c)), sn, rest.
      split; [by apply serializeTree_Rep|]. done.
  - rewrite (insert_present v t zl z zr c HR Hfind). eexists _, _; split; [done|].
    split; [by exists (plug (N zl z v zr) c)|]. simpl. split.
    + apply Forall_singleton. unfold okSnapshot. simpl.
      destruct HR as (_ & Hl & Hnd & _). by apply wellFormedExport_exports.
    + eexists _, _, _. split; [by apply serializeTree_Rep|]. done.
Qed.

Lemma delete_Inv v t :
  Inv t → ∃ t' op, delete v t = Some (t', op) ∧ Inv t' ∧ goodRecord t op.
Proof.
  intros (T & HR & Hb).
  destruct (find_Rep v t T HR) as [Hnone|(zl & z & zr & c & Hfind & ->)].
  - rewrite (delete_absent v t T HR Hnone). eexists _, _; split; [done|].
    split; [by exists T|]. simpl. split.
    + apply Forall_singleton. unfold okSnapshot. simpl.
      destruct HR as (_ & Hl & Hnd & _). by apply wellFormedExport_exports.
    + eexists _, _, _. split; [by apply serializeTree_Rep|]. done.
  - destruct (delete_present v t zl z zr c HR Hfind)
      as (t' & op & T' & sn & rest & -> & HR' & _ & Hv' & _ & Hsn & Hok & Hch).
    exists t', op. split; [done|]. split.
    + exists T'. split; [done|]. unfold bst in *. rewrite Hv'.
      rewrite vals_plug in Hb. simpl in Hb.
      rewrite <- app_assoc in Hb. simpl in Hb.
      rewrite app_assoc in Hb. apply sorted_remove in Hb.
      by rewrite <- app_assoc in Hb.
    + split; [done|]. eexists _, sn, rest.
      split; [by apply serializeTree_Rep|]. done.
Qed.

Lemma call_Inv c t :
  Inv t → ∃ t' op, call c t = Some (t', op) ∧ Inv t' ∧ goodRecord t op.
Proof. destruct c; simpl; [apply insert_Inv|apply delete_Inv]. Qed.

(** Every sequence of calls runs to its end. *)
Lemma run_total cs t :
  Inv t →
  ∃ t' ops, run cs t = Some (t', ops) ∧ Inv t'
            ∧ Forall (λ op, Forall okSnapshot (snapshots op)) ops.
Proof.
  revert t. induction cs as [|c cs IH]; intros t Ht; simpl.
  - by exists t, [].
  - destruct (call_Inv c t Ht) as (t1 & op & -> & Ht1 & Hok & _). simpl.
    destruct (IH t1 Ht1) as (t2 & ops & -> & Ht2 & Hops). simpl.
    exists t2, (op :: ops). split; [done|]. split; [done|]. by constructor.
Qed.

Lemma run_Inv cs t t' ops : Inv t → run cs t = Some (t', ops) → Inv t'.
Proof.
  intros Ht Hrun. destruct (run_total cs t Ht) as (t2 & ops2 & Hrun2 & Ht2 & _).
  congruence.
Qed.

Lemma reachable_Inv cs t ops : run cs emptyTree = Some (t, ops) → Inv t.
Proof. apply run_Inv, Inv_empty. Qed.

Lemma linked_inTree t T p :
  linked (heap t) p T →
  (∀ x, top T = Some x → inTree t x) →
  ∀ z, z ∈ keys T → inTree t z.
Proof.
  revert p. induction T as [|l IHl x v r IHr]; intros p; simpl.
  - intros _ _ z Hz. by apply elem_of_nil in Hz.
  - intros (n & Hn & _ & _ & Hln & Hrn & Hl & Hr) Htop z Hz.
    pose proof (Htop x eq_refl) as Hx.
    apply elem_of_app in Hz as [Hz|Hz]; [|apply elem_of_cons in Hz as [->|Hz]].
    + eapply IHl; [done| |done]. intros c Hc. eapply inTree_left; [done..|congruence].
    + done.
    + eapply IHr; [done| |done]. intros c Hc. eapply inTree_right; [done..|congruence].
Qed.

Lemma Rep_inTree t T z : Rep t T → z ∈ keys T → inTree t z.
Proof.
  intros (Hroot & Hl & _) Hz. eapply linked_inTree; [done| |done].
  intros x Hx. apply inTree_root. congruence.
Qed.

Lemma diff_from_empty current :
  diffSnapshots [] current = mkChanges (map pairOf current) [] [] [].
Proof.
  rewrite diffSnapshots_eq. change (nodeMap []) with (∅ : gmap string SerializedNode.t).
  assert (Ha : ∀ n, addedAt ∅ n = Some (pairOf n))
    by (intros n; unfold addedAt; by rewrite lookup_empty).
  assert (Hr : ∀ n, recoloredAt ∅ n = None)
    by (intros n; unfold recoloredAt; by rewrite lookup_empty).
  assert (Hm : ∀ n, movedAt ∅ n = None)
    by (intros n; unfold movedAt; by rewrite lookup_empty).
  f_equal; induction current as [|n ns IH]; try done; simpl in *;
    rewrite ?Ha, ?Hr, ?Hm; by rewrite ?IH.
Qed.

(** Scenarios are settled by running the model. *)
Ltac run_tac :=
  repeat match goal with
         | |- _ ∧ _ => split; [vm_compute; reflexivity|]
         end;
  vm_compute; reflexivity.

(** ** C1 *)

(** C1 (the code breaks it): the red-black invariants do not hold after every
    call.  From the empty tree, [insert(30)], [insert(10)], [insert(20)]
    leave 20 as black root with a black left child 10 and a red right child
    30: the paths below the root do not hold the same number of black
    nodes.  In the zig-zag case [fixInsert] blackens [parent] after the
    first rotation, when it has become the child of the new subtree root. *)
Theorem C1_zigzag_insert_breaks_black_height :
  ∃ t ops,
    run [Insert 30; Insert 10; Insert 20] emptyTree = Some (t, ops)
    ∧ serializeTree t =
        Some [exported "node-2" 20 black None (Some "node-1") (Some "node-0");
              exported "node-1" 10 black (Some "node-2") None None;
              exported "node-0" 30 red (Some "node-2") None None]
    ∧ (blackBalanced t → False)
    ∧ (redBlack t → False).
Proof.
  eexists _, _. split; [vm_compute; reflexivity|]. split; [vm_compute; reflexivity|].
  assert (Hnb : blackBalanced (outcome [Insert 30; Insert 10; Insert 20]).1 → False).
  { intros Hb. destruct (Hb 2%nat) as [k Hk]; [by apply inTree_root|].
    inversion Hk as [|x n k0 k' Hn Hl Hr Hk']; subst.
    vm_compute in Hn. injection Hn as <-. simpl in *.
    inversion Hl as [|x1 n1 k1 k1' Hn1 Hl1 Hr1 Hk1]; subst.
    vm_compute in Hn1. injection Hn1 as <-. simpl in *.
    inversion Hl1; subst.
    inversion Hr as [|x2 n2 k2 k2' Hn2 Hl2 Hr2 Hk2]; subst.
    vm_compute in Hn2. injection Hn2 as <-. simpl in *.
    inversion Hl2; subst. simpl in *. discriminate. }
  split; [exact Hnb|]. intros (_ & Hb & _). exact (Hnb Hb).
Qed.

(** ** C2 *)

(** C2 (counterexample): [insert(10)] on the empty tree records two
    snapshots, and in the first one the exported node is red. *)
Lemma C2_insert_empty_records_two_snapshots :
  ∃ t op sn rest,
    insert 10 emptyTree = Some (t, op)
    ∧ length (snapshots op) = 2%nat
    ∧ snapshots op = sn :: rest
    ∧ nodes sn = [exported "node-0" 10 red None None None].
Proof. eexists _, _, _, _. run_tac. Qed.

(** C2 (amended): [insert(10)] on the empty tree returns an operation record
    with exactly two snapshots; the single exported node has value 10 in
    both, red in the first (the attachment) and black in the second (the
    root kept black), and the tree is left with that black node. *)
Theorem C2_insert_into_empty_tree :
  ∃ t sn1 sn2,
    insert 10 emptyTree = Some (t, mkOperation "10 삽입" [sn1; sn2])
    ∧ description sn1 = "10를 루트로 삽입"
    ∧ nodes sn1 = [exported "node-0" 10 red None None None]
    ∧ description sn2 = "루트를 검은색으로 유지"
    ∧ nodes sn2 = [exported "node-0" 10 black None None None]
    ∧ serializeTree t = Some [exported "node-0" 10 black None None None].
Proof. eexists _, _, _. run_tac. Qed.

(** ** C3 *)

(** C3 (counterexample): the first snapshot of [insert(20)] after
    [insert(10)] exports both nodes, but only the new one is in [added], and
    [moved] is not empty: the diff was taken against the tree as the call
    found it, not against the empty set. *)
Lemma C3_first_diff_of_second_insert :
  ∃ t ops t' op sn rest,
    run [Insert 10] emptyTree = Some (t, ops)
    ∧ insert 20 t = Some (t', op)
    ∧ snapshots op = sn :: rest
    ∧ map pairOf (nodes sn) = [("node-0", 10); ("node-1", 20)]
    ∧ added (changes sn) = [("node-1", 20)]
    ∧ moved (changes sn) = [("node-0", 10)].
Proof. eexists _, _, _, _, _, _. run_tac. Qed.

(** C3 (amended): after any sequence of calls, every further call returns a
    record with a first snapshot, whose diff is computed against the export
    of the tree as the call found it; only when that tree is empty is this
    the diff against the empty set, in which every exported node is added
    and nothing is removed, recoloured or moved. *)
Theorem C3_first_diff_against_tree_before cs t ops c :
  run cs emptyTree = Some (t, ops) →
  ∃ t' op ns sn rest,
    call c t = Some (t', op)
    ∧ serializeTree t = Some ns
    ∧ snapshots op = sn :: rest
    ∧ changes sn = diffSnapshots ns (nodes sn)
    ∧ (ns = [] → changes sn = mkChanges (map pairOf (nodes sn)) [] [] []).
Proof.
  intros Ht%reachable_Inv.
  destruct (call_Inv c t Ht) as (t' & op & Hcall & _ & _ & ns & sn & rest & Hns & Hsn & Hch).
  exists t', op, ns, sn, rest. do 4 (split; [done|]).
  intros ->. rewrite Hch. apply diff_from_empty.
Qed.

Lemma C3_first_diff_witness :
  ∃ t' op ns sn rest,
    call (Insert 20) (outcome [Insert 10]).1 = Some (t', op)
    ∧ serializeTree (outcome [Insert 10]).1 = Some ns
    ∧ snapshots op = sn :: rest
    ∧ changes sn = diffSnapshots ns (nodes sn)
    ∧ (ns = [] → changes sn = mkChanges (map pairOf (nodes sn)) [] [] []).
Proof.
  apply (C3_first_diff_against_tree_before [Insert 10] _ (outcome [Insert 10]).2).
  vm_compute. reflexivity.
Defined.

(** ** C4 *)

(** C4 (counterexample): after [insert(10)], [insert(5)] the node 5 is the
    left child of 10, yet 10 is exported before it. *)
Lemma C4_parent_exported_before_left_child :
  ∃ t ops,
    run [Insert 10; Insert 5] emptyTree = Some (t, ops)
    ∧ serializeTree t =
        Some [exported "node-0" 10 black None (Some "node-1") None;
              exported "node-1" 5 red (Some "node-0") None None]
    ∧ inorderValues t = Some [5; 10].
Proof. eexists _, _. run_tac. Qed.

(** C4 (amended): the serializer exports the nodes in pre-order: after any
    sequence of calls the tree has a shape [T] (whose values in order are
    the in-order values of the tree), and the export lists, for each node,
    the node itself, then its left subtree, then its right subtree. *)
Theorem C4_export_is_preorder cs t ops :
  run cs emptyTree = Some (t, ops) →
  ∃ T, Rep t T
       ∧ inorderValues t = Some (vals T)
       ∧ serializeTree t = Some (exports (heap t) T)
       ∧ ids (exports (heap t) T) = node_id <$> preorder T.
Proof.
  intros (T & HR & _)%reachable_Inv. exists T. split; [done|].
  split; [by apply inorderValues_Rep|]. split; [by apply serializeTree_Rep|].
  destruct HR as (_ & Hl & _). by eapply ids_exports.
Qed.

Lemma C4_export_is_preorder_witness :
  ∃ T, Rep (outcome [Insert 10; Insert 5]).1 T
       ∧ inorderValues (outcome [Insert 10; Insert 5]).1 = Some (vals T)
       ∧ serializeTree (outcome [Insert 10; Insert 5]).1
         = Some (exports (heap (outcome [Insert 10; Insert 5]).1) T)
       ∧ ids (exports (heap (outcome [Insert 10; Insert 5]).1) T) = node_id <$> preorder T.
Proof.
  apply (C4_export_is_preorder [Insert 10; Insert 5] _ (outcome [Insert 10; Insert 5]).2).
  vm_compute. reflexivity.
Defined.

(** ** C5 *)

(** C5: after any sequence of calls, [insert(v)] of a value [v] that is
    among the in-order values of the tree returns the tree as it was, with a
    record of exactly one snapshot that exports the tree, labelled as a
    cancelled insertion and highlighting the identifier of a node of the
    tree that holds [v].  Label and description show [v] as
    [Number::toString] writes it. *)
Theorem C5_insert_present_cancelled cs t ops v vs :
  run cs emptyTree = Some (t, ops) →
  inorderValues t = Some vs →
  v ∈ vs →
  ∃ z n sn,
    insert v t = Some (t, mkOperation (numberToString v +:+ " 삽입 취소") [sn])
    ∧ description sn = numberToString v +:+ " 이미 트리에 존재합니다."
    ∧ serializeTree t = Some (nodes sn)
    ∧ highlightNodeIds sn = [node_id z]
    ∧ inTree t z
    ∧ heap t !! z = Some n
    ∧ RBNode.value n = v.
Proof.
  intros (T & HR & Hb)%reachable_Inv Hvs Hv.
  rewrite (inorderValues_Rep _ _ HR) in Hvs. injection Hvs as <-.
  destruct (find_present v t T HR Hb Hv) as (zl & z & zr & c & Hfind & ->).
  destruct (Rep_focus _ _ _ _ _ _ HR) as (n & Hn & Hnv & _).
  exists z, n. eexists. split; [by apply insert_present|]. simpl.
  split; [done|]. split; [by apply serializeTree_Rep|]. split; [done|].
  split; [|done]. eapply Rep_inTree; [done|]. apply focus_in_keys.
Qed.

Lemma C5_insert_present_witness :
  ∃ z n sn,
    insert 10 (outcome [Insert 10]).1
      = Some ((outcome [Insert 10]).1, mkOperation (numberToString 10 +:+ " 삽입 취소") [sn])
    ∧ description sn = numberToString 10 +:+ " 이미 트리에 존재합니다."
    ∧ serializeTree (outcome [Insert 10]).1 = Some (nodes sn)
    ∧ highlightNodeIds sn = [node_id z]
    ∧ inTree (outcome [Insert 10]).1 z
    ∧ heap (outcome [Insert 10]).1 !! z = Some n
    ∧ RBNode.value n = 10.
Proof.
  apply (C5_insert_present_cancelled [Insert 10] _ (outcome [Insert 10]).2 10 [10]).
  - vm_compute. reflexivity.
  - vm_compute. reflexivity.
  - apply list_elem_of_here.
Defined.

(** ** C6 *)

(** C6: after any sequence of calls, [delete(v)] of a value [v] that is not
    among the in-order values of the tree returns the tree as it was (so its
    in-order values are the same), with a record of exactly one snapshot
    that exports the tree, says that no node holds the value and highlights
    nothing, labelled as a cancelled deletion.  Label and description show
    [v] as [Number::toString] writes it. *)
Theorem C6_delete_absent_cancelled cs t ops v vs :
  run cs emptyTree = Some (t, ops) →
  inorderValues t = Some vs →
  v ∉ vs →
  ∃ t' sn,
    delete v t = Some (t', mkOperation (numberToString v +:+ " 삭제 취소") [sn])
    ∧ t' = t
    ∧ inorderValues t' = Some vs
    ∧ description sn = numberToString v +:+ " 값을 갖는 노드를 찾지 못했습니다."
    ∧ serializeTree t = Some (nodes sn)
    ∧ highlightNodeIds sn = [].
Proof.
  intros (T & HR & Hb)%reachable_Inv Hvs Hv.
  pose proof Hvs as Hvs'.
  rewrite (inorderValues_Rep _ _ HR) in Hvs'. injection Hvs' as <-.
  pose proof (find_missing v t T HR Hv) as Hfind.
  exists t. eexists. split; [by apply delete_absent|]. simpl.
  do 3 (split; [done|]). split; [by apply serializeTree_Rep|done].
Qed.

Lemma C6_delete_absent_witness :
  ∃ t' sn,
    delete 20 (outcome [Insert 10]).1
      = Some (t', mkOperation (numberToString 20 +:+ " 삭제 취소") [sn])
    ∧ t' = (outcome [Insert 10]).1
    ∧ inorderValues t' = Some [10]
    ∧ description sn = numberToString 20 +:+ " 값을 갖는 노드를 찾지 못했습니다."
    ∧ serializeTree (outcome [Insert 10]).1 = Some (nodes sn)
    ∧ highlightNodeIds sn = [].
Proof.
  apply (C6_delete_absent_cancelled [Insert 10] _ (outcome [Insert 10]).2 20 [10]).
  - vm_compute. reflexivity.
  - vm_compute. reflexivity.
  - intros Hin. apply list_elem_of_singleton in Hin. discriminate Hin.
Defined.

(** ** C7 *)

(** C7: for every pair of export lists, every identifier in [added] is in
    [current] and not in [previous]; every one in [removed] is in
    [previous] and not in [current]; every one in [recolored] belongs to a
    record of each list, of different colours; every one in [moved] belongs
    to a record of each list that differ in [parentId], [leftId] or
    [rightId].  The identifiers of an export are pairwise distinct; with
    those of [previous] so, a node with records in both lists that differ
    in colour and in a relation is in both [recolored] and [moved]. *)
Theorem C7_diff_sets previous current :
  (∀ i v, (i, v) ∈ added (diffSnapshots previous current) →
     i ∈ ids current ∧ i ∉ ids previous)
  ∧ (∀ i v, (i, v) ∈ removed (diffSnapshots previous current) →
       i ∈ ids previous ∧ i ∉ ids current)
  ∧ (∀ i v c1 c2, (i, v, c1, c2) ∈ recolored (diffSnapshots previous current) →
       ∃ p n, p ∈ previous ∧ n ∈ current
              ∧ SerializedNode.id p = i ∧ SerializedNode.id n = i
              ∧ SerializedNode.color p = c1 ∧ SerializedNode.color n = c2 ∧ c1 ≠ c2)
  ∧ (∀ i v, (i, v) ∈ moved (diffSnapshots previous current) →
       ∃ p n, p ∈ previous ∧ n ∈ current
              ∧ SerializedNode.id p = i ∧ SerializedNode.id n = i ∧ relinked p n)
  ∧ (NoDup (ids previous) →
     ∀ p n, p ∈ previous → n ∈ current →
            SerializedNode.id p = SerializedNode.id n →
            SerializedNode.color p ≠ SerializedNode.color n →
            relinked p n →
            SerializedNode.id n ∈ (recolored (diffSnapshots previous current)).*1.*1.*1
            ∧ SerializedNode.id n ∈ (moved (diffSnapshots previous current)).*1).
Proof.
  split; [apply diff_added_sound|]. split; [apply diff_removed_sound|].
  split; [apply diff_recolored_sound|]. split; [apply diff_moved_sound|].
  intros Hnd p n. by apply diff_both_complete.
Qed.

Lemma C7_diff_sets_witness :
  "a" ∈ (recolored (diffSnapshots [exported "a" 1 red None None None]
                      [exported "a" 1 black (Some "p") None None])).*1.*1.*1
  ∧ "a" ∈ (moved (diffSnapshots [exported "a" 1 red None None None]
                    [exported "a" 1 black (Some "p") None None])).*1.
Proof.
  apply (proj2 (proj2 (proj2 (proj2
           (C7_diff_sets [exported "a" 1 red None None None]
                         [exported "a" 1 black (Some "p") None None]))))
           (NoDup_singleton _)
           (exported "a" 1 red None None None)
           (exported "a" 1 black (Some "p") None None)).
  - apply list_elem_of_here.
  - apply list_elem_of_here.
  - reflexivity.
  - discriminate.
  - left. discriminate.
Defined.

(** ** C8 *)

(** C8: from the empty tree, [insert(10)], [insert(20)], [insert(30)] leave
    20 as black root with the red children 10 and 30, and the record of the
    third call holds the snapshot of a left rotation about 10. *)
Theorem C8_three_rising_inserts :
  ∃ t op1 op2 op3 sn1 sn2 sn3,
    run [Insert 10; Insert 20; Insert 30] emptyTree = Some (t, [op1; op2; op3])
    ∧ serializeTree t =
        Some [exported "node-1" 20 black None (Some "node-0") (Some "node-2");
              exported "node-0" 10 red (Some "node-1") None None;
              exported "node-2" 30 red (Some "node-1") None None]
    ∧ snapshots op3 = [sn1; sn2; sn3]
    ∧ description sn2 = "왼쪽 회전 (축: 10)"
    ∧ nodes sn2 =
        [exported "node-1" 20 black None (Some "node-0") (Some "node-2");
         exported "node-0" 10 red (Some "node-1") None None;
         exported "node-2" 30 red (Some "node-1") None None].
Proof. eexists _, _, _, _, _, _, _. run_tac. Qed.

(** ** C9 *)

(** C9: from the empty tree, after the inserts 10, 5, 15, 3, 7 the root 10 is
    black with the children 5 and 15; the minimum of its right subtree is
    the node of 15.  [delete(10)] then records the substitution snapshot in
    which that node is the root, black as 10 was, with 10's left child 5 as
    its left child, and the in-order values of the final tree are 3, 5, 7,
    15. *)
Theorem C9_delete_node_with_two_children :
  ∃ t ops t' sn1 sn2 rest,
    run [Insert 10; Insert 5; Insert 15; Insert 3; Insert 7] emptyTree = Some (t, ops)
    ∧ serializeTree t =
        Some [exported "node-0" 10 black None (Some "node-1") (Some "node-2");
              exported "node-1" 5 black (Some "node-0") (Some "node-3") (Some "node-4");
              exported "node-3" 3 red (Some "node-1") None None;
              exported "node-4" 7 red (Some "node-1") None None;
              exported "node-2" 15 black (Some "node-0") None None]
    ∧ minimum 2%nat t = Some 2%nat
    ∧ delete 10 t = Some (t', mkOperation "10 삭제" (sn1 :: sn2 :: rest))
    ∧ description sn2 = "10 대신 15로 대체"
    ∧ nodes sn2 =
        [exported "node-2" 15 black None (Some "node-1") None;
         exported "node-1" 5 black (Some "node-2") (Some "node-3") (Some "node-4");
         exported "node-3" 3 red (Some "node-1") None None;
         exported "node-4" 7 red (Some "node-1") None None]
    ∧ inorderValues t' = Some [3; 5; 7; 15].
Proof. eexists _, _, _, _, _, _. run_tac. Qed.

(** ** C10 *)

(** C10: every sequence of [insert] and [delete] calls on a fresh tree runs
    to its end, and in every snapshot of every record it returns the
    exported identifiers are pairwise distinct, a child named by [leftId] or
    [rightId] is a record of the list whose [parentId] names the node, and a
    non-empty list has exactly one record without [parentId]. *)
Theorem C10_snapshots_well_formed cs :
  ∃ t ops,
    run cs emptyTree = Some (t, ops)
    ∧ ∀ op sn, op ∈ ops → sn ∈ snapshots op → wellFormedExport (nodes sn).
Proof.
  destruct (run_total cs emptyTree Inv_empty) as (t & ops & Hrun & _ & Hok).
  exists t, ops. split; [done|]. intros op sn Hop Hsn.
  rewrite Forall_forall in Hok. specialize (Hok op Hop).
  rewrite Forall_forall in Hok. exact (Hok sn Hsn).
Qed.

(** ** Further properties *)

(** Every sequence of calls on a fresh tree runs to its end, and the values
    of the tree, read in order, increase strictly: the search order is kept
    also where the colours are not. *)
Theorem run_keeps_search_order cs :
  ∃ t ops vs,
    run cs emptyTree = Some (t, ops)
    ∧ inorderValues t = Some vs
    ∧ StronglySorted Z.lt vs.
Proof.
  destruct (run_total cs emptyTree Inv_empty) as (t & ops & Hrun & (T & HR & Hb) & _).
  exists t, ops, (vals T). split; [done|]. split; [by apply inorderValues_Rep|done].
Qed.

(** After any sequence of calls, [insert(v)] of a value that is not in the
    tree puts it at its place among the in-order values and changes none of
    the others; the label of the record shows [v] as [Number::toString]
    writes it. *)
Theorem insert_adds_value cs t ops v vs :
  run cs emptyTree = Some (t, ops) →
  inorderValues t = Some vs →
  v ∉ vs →
  ∃ t' op l1 l2,
    insert v t = Some (t', op)
    ∧ label op = numberToString v +:+ " 삽입"
    ∧ vs = l1 ++ l2
    ∧ inorderValues t' = Some (l1 ++ v :: l2).
Proof.
  intros (T & HR & Hb)%reachable_Inv Hvs Hv.
  rewrite (inorderValues_Rep _ _ HR) in Hvs. injection Hvs as <-.
  pose proof (find_missing v t T HR Hv) as Hfind.
  destruct (insert_fresh v t T HR Hfind)
    as (c & t' & op & T' & sn & rest & <- & _ & Hins & HR' & _ & Hv' & Hlab & _).
  exists t', op, (vbefore c), (vafter c). split; [done|]. split; [done|].
  split; [by rewrite vals_plug|].
  rewrite (inorderValues_Rep _ _ HR'), Hv', vals_plug. done.
Qed.

Lemma insert_adds_value_witness :
  ∃ t' op l1 l2,
    insert 20 (outcome [Insert 10; Insert 30]).1 = Some (t', op)
    ∧ label op = numberToString 20 +:+ " 삽입"
    ∧ [10; 30] = l1 ++ l2
    ∧ inorderValues t' = Some (l1 ++ 20 :: l2).
Proof.
  apply (insert_adds_value [Insert 10; Insert 30] _ (outcome [Insert 10; Insert 30]).2).
  - vm_compute. reflexivity.
  - vm_compute. reflexivity.
  - intros Hin. apply elem_of_cons in Hin as [Hin|Hin]; [discriminate Hin|].
    apply list_elem_of_singleton in Hin. discriminate Hin.
Defined.

(** After any sequence of calls, [delete(v)] of a value of the tree takes
    it out of the in-order values and changes none of the others; the label
    of the record shows [v] as [Number::toString] writes it. *)
Theorem delete_removes_value cs t ops v vs :
  run cs emptyTree = Some (t, ops) →
  inorderValues t = Some vs →
  v ∈ vs →
  ∃ t' op l1 l2,
    delete v t = Some (t', op)
    ∧ label op = numberToString v +:+ " 삭제"
    ∧ vs = l1 ++ v :: l2
    ∧ inorderValues t' = Some (l1 ++ l2).
Proof.
  intros (T & HR & Hb)%reachable_Inv Hvs Hv.
  rewrite (inorderValues_Rep _ _ HR) in Hvs. injection Hvs as <-.
  destruct (find_present v t T HR Hb Hv) as (zl & z & zr & c & Hfind & ->).
  destruct (delete_present v t zl z zr c HR Hfind)
    as (t' & op & T' & sn & rest & Hdel & HR' & _ & Hv' & Hlab & _).
  exists t', op, (vbefore c ++ vals zl), (vals zr ++ vafter c).
  split; [done|]. split; [done|]. split.
  - rewrite vals_plug. simpl. by rewrite <- !app_assoc.
  - rewrite (inorderValues_Rep _ _ HR'), Hv'. by rewrite <- !app_assoc.
Qed.

Lemma delete_removes_value_witness :
  ∃ t' op l1 l2,
    delete 10 (outcome [Insert 10; Insert 30]).1 = Some (t', op)
    ∧ label op = numberToString 10 +:+ " 삭제"
    ∧ [10; 30] = l1 ++ 10 :: l2
    ∧ inorderValues t' = Some (l1 ++ l2).
Proof.
  apply (delete_removes_value [Insert 10; Insert 30] _ (outcome [Insert 10; Insert 30]).2).
  - vm_compute. reflexivity.
  - vm_compute. reflexivity.
  - apply list_elem_of_here.
Defined.

(** * More on the tree class *)

(** ** Nodes of the tree and nodes of the shape *)

Lemma keys_split T x :
  x ∈ keys T → ∃ l v r c, T = plug (N l x v r) c.
Proof.
  induction T as [|l IHl k v r IHr]; simpl; [by intros ?%elem_of_nil|].
  intros [Hx|[->|Hx]%elem_of_cons]%elem_of_app.
  - destruct (IHl Hx) as (l' & v' & r' & c & ->).
    exists l', v', r', (c ++ [InLeft k v r]). by rewrite plug_app.
  - by exists l, v, r, [].
  - destruct (IHr Hx) as (l' & v' & r' & c & ->).
    exists l', v', r', (c ++ [InRight l k v]). by rewrite plug_app.
Qed.

Lemma inTree_keys t T x : Rep t T → inTree t x → x ∈ keys T.
Proof.
  intros HR. pose proof HR as (Hroot & Hl & _).
  induction 1 as [r Hr|x n c _ IH Hn Hc|x n c _ IH Hn Hc].
  - apply top_in_keys. congruence.
  - destruct (linked_child _ _ _ x n c Hl IH Hn) as (? & ? & _); [by left|done].
  - destruct (linked_child _ _ _ x n c Hl IH Hn) as (? & ? & _); [by right|done].
Qed.

(** ** [has] *)

(** After any sequence of calls, [has(v)] tells whether [v] is among the
    values of the tree. *)
Theorem has_decides_membership cs t ops v vs :
  run cs emptyTree = Some (t, ops) →
  inorderValues t = Some vs →
  has v t = Some (bool_decide (v ∈ vs)).
Proof.
  intros (T & HR & Hb)%reachable_Inv Hvs.
  rewrite (inorderValues_Rep _ _ HR) in Hvs. injection Hvs as <-.
  unfold has. destruct (decide (v ∈ vals T)) as [Hv|Hv].
  - destruct (find_present v t T HR Hb Hv) as (zl & z & zr & c & -> & _). simpl.
    by rewrite (bool_decide_true (v ∈ vals T)).
  - rewrite (find_missing v t T HR Hv). simpl.
    by rewrite (bool_decide_false (v ∈ vals T)).
Qed.

Lemma has_decides_membership_witness :
  has 10 (outcome [Insert 5; Insert 10; Delete 5]).1 = Some (bool_decide (10 ∈ [10])).
Proof.
  apply (has_decides_membership [Insert 5; Insert 10; Delete 5] _
           (outcome [Insert 5; Insert 10; Delete 5]).2).
  - vm_compute. reflexivity.
  - vm_compute. reflexivity.
Defined.

(** ** The root stays black *)

Lemma record_tree d hl s s' : record d hl s = Some s' → tree s' = tree s.
Proof.
  unfold record. intros (ns & _ & H)%bind_Some. by injection H as <-.
Qed.

Lemma setColor_root x col s s' :
  setColor x col s = Some s' →
  root (tree s') = root (tree s)
  ∧ ∃ n, heap (tree s') !! x = Some n ∧ RBNode.color n = col.
Proof.
  unfold setColor, onTree, update.
  intros (t' & (n & Hn & Ht)%bind_Some & H)%bind_Some.
  injection Ht as <-. injection H as <-. simpl. split; [done|].
  eexists. by rewrite lookup_insert_eq.
Qed.

Lemma blacken_rootBlack (s s' : Session) :
  match root (tree s) with
  | Some r => s1 ← setColor r black s; record "루트를 검은색으로 유지" [node_id r] s1
  | None => Some s
  end = Some s' →
  rootBlack (tree s').
Proof.
  destruct (root (tree s)) as [r|] eqn:Hr.
  - intros (s1 & (Hroot & n & Hn & Hc)%setColor_root & ->%record_tree)%bind_Some.
    intros r' n' Hr' Hn'. rewrite Hroot, Hr in Hr'. injection Hr' as <-. congruence.
  - intros [= <-] r' n' Hr'. congruence.
Qed.

Lemma insert_rootBlack v t t' op :
  rootBlack t → insert v t = Some (t', op) → rootBlack t'.
Proof.
  intros Ht. unfold insert.
  intros (s & Hs & (existing & _ & H)%bind_Some)%bind_Some.
  unfold startSession in Hs. apply bind_Some in Hs as (ns & _ & [= <-]).
  destruct existing as [e|].
  - apply bind_Some in H as (s1 & ->%record_tree & [= <- _]). done.
  - apply bind_Some in H as (? & _ & (? & _ & (? & _ & (s3 & _ & H)%bind_Some)%bind_Some)%bind_Some).
    apply bind_Some in H as (s4 & Hb & [= <- _]). by eapply blacken_rootBlack.
Qed.

Lemma delete_rootBlack v t t' op :
  rootBlack t → delete v t = Some (t', op) → rootBlack t'.
Proof.
  intros Ht. unfold delete.
  intros (s & Hs & (target & _ & H)%bind_Some)%bind_Some.
  unfold startSession in Hs. apply bind_Some in Hs as (ns & _ & [= <-]).
  destruct target as [z|].
  - apply bind_Some in H as (s1 & _ & ([[[col x] xp] s2] & _ & H)%bind_Some).
    simpl in H. apply bind_Some in H as (s3 & _ & (s4 & Hb & [= <- _])%bind_Some).
    destruct (root (tree s3)) as [r|] eqn:Hr.
    + apply bind_Some in Hb as (s5 & (Hroot & n & Hn & Hc)%setColor_root & ->%record_tree).
      intros r' n' Hr' Hn'. rewrite Hroot, Hr in Hr'. injection Hr' as <-. congruence.
    + apply record_tree in Hb as ->. intros r' n' Hr'. congruence.
  - apply bind_Some in H as (s1 & ->%record_tree & [= <- _]). done.
Qed.

(** After every call the root of the tree, when there is one, is black:
    this one of the red-black invariants is kept by every sequence of
    calls. *)
Theorem root_black_after_every_call cs t ops :
  run cs emptyTree = Some (t, ops) → rootBlack t.
Proof.
  assert (Hgen : ∀ cs t0 t ops, rootBlack t0 → run cs t0 = Some (t, ops) → rootBlack t).
  { clear. induction cs as [|c cs IH]; intros t0 t ops Ht0; simpl.
    - by intros [= <- _].
    - intros ([t1 op] & Hc & ([t2 ops2] & Hrun & [= <- _])%bind_Some)%bind_Some.
      apply (IH t1 _ ops2); [|done].
      destruct c; simpl in Hc; [by eapply insert_rootBlack|by eapply delete_rootBlack]. }
  apply Hgen. intros r n Hr. done.
Qed.

Lemma root_black_witness :
  rootBlack (outcome [Insert 30; Insert 10; Insert 20; Delete 30]).1.
Proof.
  apply (root_black_after_every_call [Insert 30; Insert 10; Insert 20; Delete 30] _
           (outcome [Insert 30; Insert 10; Insert 20; Delete 30]).2).
  vm_compute. reflexivity.
Defined.

(** ** What the serializer exports *)

Lemma values_exports h p T :
  linked h p T → SerializedNode.value <$> exports h T ≡ₚ vals T.
Proof.
  revert p. induction T as [|l IHl x v r IHr]; intros p; simpl; [done|].
  intros (nx & Hx & Hv & _ & _ & _ & Hl & Hr). rewrite Hx. simpl.
  rewrite fmap_app, (IHl _ Hl), (IHr _ Hr), Hv. by rewrite Permutation_middle.
Qed.

(** After any sequence of calls the serializer exports exactly the nodes
    that are reached from the root through child links, each of them once,
    with its own fields; the exported values are the in-order values in
    another order. *)
Theorem export_lists_reachable_nodes cs t ops :
  run cs emptyTree = Some (t, ops) →
  ∃ ns vs,
    serializeTree t = Some ns
    ∧ NoDup (ids ns)
    ∧ (∀ rec, rec ∈ ns ↔ ∃ x n, inTree t x ∧ heap t !! x = Some n ∧ rec = exportNode x n)
    ∧ inorderValues t = Some vs
    ∧ SerializedNode.value <$> ns ≡ₚ vs.
Proof.
  intros (T & HR & _)%reachable_Inv. pose proof HR as (_ & Hl & Hnd & _).
  exists (exports (heap t) T), (vals T).
  split; [by apply serializeTree_Rep|]. split.
  { rewrite (ids_exports _ _ _ Hl). apply (NoDup_fmap_2 _). by rewrite preorder_keys. }
  split; [|split; [by apply inorderValues_Rep|by eapply values_exports]].
  intros rec. rewrite (elem_of_exports _ _ _ _ Hl). split.
  - intros (x & n & Hx & Hn & ->). exists x, n. split; [by eapply Rep_inTree|done].
  - intros (x & n & Hx & Hn & ->). exists x, n. split; [by eapply inTree_keys|done].
Qed.

Lemma export_lists_reachable_nodes_witness :
  ∃ ns vs,
    serializeTree (outcome [Insert 10; Insert 5]).1 = Some ns
    ∧ NoDup (ids ns)
    ∧ (∀ rec, rec ∈ ns ↔
         ∃ x n, inTree (outcome [Insert 10; Insert 5]).1 x
                ∧ heap (outcome [Insert 10; Insert 5]).1 !! x = Some n
                ∧ rec = exportNode x n)
    ∧ inorderValues (outcome [Insert 10; Insert 5]).1 = Some vs
    ∧ SerializedNode.value <$> ns ≡ₚ vs.
Proof.
  apply (export_lists_reachable_nodes [Insert 10; Insert 5] _
           (outcome [Insert 10; Insert 5]).2).
  vm_compute. reflexivity.
Defined.

(** ** Rotations *)

Lemma exports_agree h h' p T :
  linked h p T → linked h' p T →
  (∀ k, RBNode.color <$> h' !! k = RBNode.color <$> h !! k) →
  exports h' T = exports h T.
Proof.
  intros Hl Hl' Hcol. revert p Hl Hl'.
  induction T as [|l IHl x v r IHr]; intros p; simpl; [done|].
  intros (n & Hn & Hv & Hp & Hln & Hrn & Hll & Hlr)
         (n' & Hn' & Hv' & Hp' & Hln' & Hrn' & Hll' & Hlr').
  rewrite Hn, Hn', (IHl _ Hll Hll'), (IHr _ Hlr Hlr'). f_equal. f_equal.
  specialize (Hcol x). rewrite Hn, Hn' in Hcol. simpl in Hcol. injection Hcol as Hcol.
  destruct n, n'; simpl in *. by subst.
Qed.

(** After any sequence of calls, for a node [x] of the tree with a right
    child [y]: [rotateLeft(x)] keeps the in-order values, and a following
    [rotateRight(y)] brings back the tree, as its export shows. *)
Theorem rotateLeft_then_rotateRight cs t ops x nx y :
  run cs emptyTree = Some (t, ops) →
  inTree t x → heap t !! x = Some nx → RBNode.right nx = Some y →
  ∃ t' t'',
    rotateLeft x t = Some t'
    ∧ inorderValues t' = inorderValues t
    ∧ rotateRight y t' = Some t''
    ∧ serializeTree t'' = serializeTree t.
Proof.
  intros (T & HR & _)%reachable_Inv Hx Hnx Hy.
  apply (inTree_keys _ _ _ HR) in Hx.
  destruct (keys_split _ _ Hx) as (a & xv & r & c & ->).
  destruct (Rep_focus _ _ _ _ _ _ HR) as (n & Hn & _ & _ & _ & Hr).
  rewrite Hnx in Hn. injection Hn as <-. rewrite Hy in Hr.
  destruct r as [|b y' yv d]; [by simpl in Hr|]. simpl in Hr. injection Hr as <-.
  destruct (rotateLeft_spec _ _ _ _ _ _ _ _ _ HR) as (t' & Ht' & HR' & _).
  destruct (rotateRight_spec _ _ _ _ _ _ _ _ _ HR') as (t'' & Ht'' & HR'' & _).
  exists t', t''. split; [done|]. split.
  { rewrite (inorderValues_Rep _ _ HR), (inorderValues_Rep _ _ HR'). f_equal. kv_tac. }
  split; [done|].
  rewrite (serializeTree_Rep _ _ HR), (serializeTree_Rep _ _ HR''). f_equal.
  destruct HR as (_ & Hl & _), HR'' as (_ & Hl'' & _).
  eapply exports_agree; [done..|].
  intros k. rewrite (rotateRight_sameColors _ _ _ Ht''). apply (rotateLeft_sameColors _ _ _ Ht').
Qed.

Lemma rotateLeft_then_rotateRight_witness :
  ∃ t' t'',
    rotateLeft 0 (outcome [Insert 10; Insert 20]).1 = Some t'
    ∧ inorderValues t' = inorderValues (outcome [Insert 10; Insert 20]).1
    ∧ rotateRight 1 t' = Some t''
    ∧ serializeTree t'' = serializeTree (outcome [Insert 10; Insert 20]).1.
Proof.
  apply (rotateLeft_then_rotateRight [Insert 10; Insert 20] _
           (outcome [Insert 10; Insert 20]).2 0%nat
           (RBNode.mk 10 black None (Some 1%nat) None) 1%nat).
  - vm_compute. reflexivity.
  - apply inTree_root. vm_compute. reflexivity.
  - vm_compute. reflexivity.
  - reflexivity.
Defined.

(** The mirrored round trip: for a node [x] with a left child [y],
    [rotateRight(x)] keeps the in-order values and a following
    [rotateLeft(y)] brings back the tree. *)
Theorem rotateRight_then_rotateLeft cs t ops x nx y :
  run cs emptyTree = Some (t, ops) →
  inTree t x → heap t !! x = Some nx → RBNode.left nx = Some y →
  ∃ t' t'',
    rotateRight x t = Some t'
    ∧ inorderValues t' = inorderValues t
    ∧ rotateLeft y t' = Some t''
    ∧ serializeTree t'' = serializeTree t.
Proof.
  intros (T & HR & _)%reachable_Inv Hx Hnx Hy.
  apply (inTree_keys _ _ _ HR) in Hx.
  destruct (keys_split _ _ Hx) as (l & xv & d & c & ->).
  destruct (Rep_focus _ _ _ _ _ _ HR) as (n & Hn & _ & _ & Hl & _).
  rewrite Hnx in Hn. injection Hn as <-. rewrite Hy in Hl.
  destruct l as [|a y' yv b]; [by simpl in Hl|]. simpl in Hl. injection Hl as <-.
  destruct (rotateRight_spec _ _ _ _ _ _ _ _ _ HR) as (t' & Ht' & HR' & _).
  destruct (rotateLeft_spec _ _ _ _ _ _ _ _ _ HR') as (t'' & Ht'' & HR'' & _).
  exists t', t''. split; [done|]. split.
  { rewrite (inorderValues_Rep _ _ HR), (inorderValues_Rep _ _ HR'). f_equal. kv_tac. }
  split; [done|].
  rewrite (serializeTree_Rep _ _ HR), (serializeTree_Rep _ _ HR''). f_equal.
  destruct HR as (_ & Hl & _), HR'' as (_ & Hl'' & _).
  eapply exports_agree; [done..|].
  intros k. rewrite (rotateLeft_sameColors _ _ _ Ht''). apply (rotateRight_sameColors _ _ _ Ht').
Qed.

Lemma rotateRight_then_rotateLeft_witness :
  ∃ t' t'',
    rotateRight 0 (outcome [Insert 10; Insert 5]).1 = Some t'
    ∧ inorderValues t' = inorderValues (outcome [Insert 10; Insert 5]).1
    ∧ rotateLeft 1 t' = Some t''
    ∧ serializeTree t'' = serializeTree (outcome [Insert 10; Insert 5]).1.
Proof.
  apply (rotateRight_then_rotateLeft [Insert 10; Insert 5] _
           (outcome [Insert 10; Insert 5]).2 0%nat
           (RBNode.mk 10 black (Some 1%nat) None None) 1%nat).
  - vm_compute. reflexivity.
  - apply inTree_root. vm_compute. reflexivity.
  - vm_compute. reflexivity.
  - reflexivity.
Defined.

Lemma minimum_loop_leftmost t fuel x y :
  minimum_loop fuel (heap t) x = Some y →
  below t x y ∧ ∃ ny, heap t !! y = Some ny ∧ RBNode.left ny = None.
Proof.
  assert (Hgen : ∀ fuel z, below t x z → minimum_loop fuel (heap t) z = Some y →
                 below t x y ∧ ∃ ny, heap t !! y = Some ny ∧ RBNode.left ny = None).
  { clear. induction fuel as [|fuel IH]; intros z Hz; simpl; [done|].
    intros (n & Hn & H)%bind_Some.
    destruct (RBNode.left n) as [l|] eqn:Hl.
    - apply (IH l); [|done]. by eapply below_left.
    - injection H as <-. eauto. }
  apply Hgen. constructor.
Qed.

Lemma below_keys h p S t x z :
  h = heap t → linked h p S → top S = Some x → below t x z → z ∈ keys S.
Proof.
  intros -> Hl Hx. induction 1 as [|z n c _ IH Hn Hc|z n c _ IH Hn Hc].
  - by apply top_in_keys.
  - destruct (linked_child _ _ _ z n c Hl IH Hn) as (? & ? & _); [by left|done].
  - destruct (linked_child _ _ _ z n c Hl IH Hn) as (? & ? & _); [by right|done].
Qed.

Lemma linked_value h p S z nz :
  linked h p S → z ∈ keys S → h !! z = Some nz → RBNode.value nz ∈ vals S.
Proof.
  revert p. induction S as [|l IHl k v r IHr]; intros p; simpl.
  - by intros _ ?%elem_of_nil.
  - intros (nk & Hk & Hv & _ & _ & _ & Hl & Hr) Hz Hnz.
    apply elem_of_app in Hz as [Hz|Hz]; [|apply elem_of_cons in Hz as [->|Hz]].
    + apply elem_of_app. left. by eapply IHl.
    + apply elem_of_app. right. apply elem_of_cons. left. congruence.
    + apply elem_of_app. right. apply elem_of_cons. right. by eapply IHr.
Qed.

(** After any sequence of calls, [minimum(x)] of a node [x] of the tree
    returns a node below [x] that has no left child and holds the least of
    the values below [x]. *)
Theorem minimum_is_least cs t ops x :
  run cs emptyTree = Some (t, ops) →
  inTree t x →
  ∃ y ny,
    minimum x t = Some y
    ∧ below t x y
    ∧ heap t !! y = Some ny
    ∧ RBNode.left ny = None
    ∧ ∀ z nz, below t x z → heap t !! z = Some nz → RBNode.value ny ≤ RBNode.value nz.
Proof.
  intros (T & HR & Hb)%reachable_Inv Hx.
  apply (inTree_keys _ _ _ HR) in Hx.
  destruct (keys_split _ _ Hx) as (l & v & r & c & ->).
  destruct (Rep_open _ _ _ HR) as (Hl & _).
  destruct (minimum_spec t _ _ _ _ _ _ HR Hl) as (y & yv & yr & cm & Hmin & Heq & Hcm);
    [apply height_plug|].
  pose proof Hmin as Hmin'. unfold minimum in Hmin'.
  apply minimum_loop_leftmost in Hmin' as (Hbel & ny & Hny & Hleft).
  exists y, ny. do 4 (split; [done|]).
  assert (Hyv : RBNode.value ny = yv).
  { assert (HRy : Rep t (plug (N E y yv yr) (cm ++ c))) by (by rewrite plug_app, <- Heq).
    destruct (Rep_focus _ _ _ _ _ _ HRy) as (n' & Hn' & Hv' & _). congruence. }
  intros z nz Hz Hnz.
  pose proof (below_keys _ _ _ t x z eq_refl Hl eq_refl Hz) as Hzk.
  pose proof (linked_value _ _ _ _ _ Hl Hzk Hnz) as Hzv.
  unfold bst in Hb. rewrite vals_plug in Hb.
  apply StronglySorted_app in Hb as (_ & _ & Hb).
  apply StronglySorted_app in Hb as (_ & Hb & _).
  rewrite Heq, vals_plug in Hb, Hzv.
  destruct (leftward_before _ Hcm) as (_ & Hvb). rewrite Hvb in Hb, Hzv. simpl in Hb, Hzv.
  apply StronglySorted_cons in Hb as (Hlt & _). rewrite Forall_forall in Hlt.
  rewrite Hyv. apply elem_of_cons in Hzv as [->|Hzv]; [lia|].
  specialize (Hlt _ Hzv). lia.
Qed.

Lemma minimum_is_least_witness :
  ∃ y ny,
    minimum 0 (outcome [Insert 10; Insert 5; Insert 15]).1 = Some y
    ∧ below (outcome [Insert 10; Insert 5; Insert 15]).1 0 y
    ∧ heap (outcome [Insert 10; Insert 5; Insert 15]).1 !! y = Some ny
    ∧ RBNode.left ny = None
    ∧ ∀ z nz, below (outcome [Insert 10; Insert 5; Insert 15]).1 0 z →
              heap (outcome [Insert 10; Insert 5; Insert 15]).1 !! z = Some nz →
              RBNode.value ny ≤ RBNode.value nz.
Proof.
  apply (minimum_is_least [Insert 10; Insert 5; Insert 15] _
           (outcome [Insert 10; Insert 5; Insert 15]).2 0%nat).
  - vm_compute. reflexivity.
  - apply inTree_root. vm_compute. reflexivity.
Defined.

(** ** Identifiers and values of the nodes *)

Lemma length_keys_vals T : length (keys T) = length (vals T).
Proof.
  induction T as [|l IHl x v r IHr]; simpl; [done|].
  rewrite !length_app. simpl. by rewrite IHl, IHr.
Qed.

Lemma length_before_vbefore c : length (before c) = length (vbefore c).
Proof.
  induction c as [|[x v r|l x v] c IH]; simpl; [done..|].
  rewrite !length_app, IH, length_keys_vals. done.
Qed.

Lemma pairs_exports h p T :
  linked h p T → pairOf <$> exports h T ≡ₚ zip (node_id <$> keys T) (vals T).
Proof.
  revert p. induction T as [|l IHl x v r IHr]; intros p; simpl; [done|].
  intros (nx & Hx & Hv & _ & _ & _ & Hl & Hr). rewrite Hx. simpl.
  rewrite fmap_app, (IHl _ Hl), (IHr _ Hr).
  rewrite fmap_app, fmap_cons.
  rewrite zip_with_app by (by rewrite length_fmap, length_keys_vals).
  simpl. unfold pairOf at 1. simpl. rewrite Hv. by rewrite Permutation_middle.
Qed.

Lemma zip_middle (a b : list nat) (a' b' : list Z) x y :
  length a = length a' →
  zip (node_id <$> (a ++ x :: b)) (a' ++ y :: b')
  ≡ₚ (node_id x, y) :: zip (node_id <$> (a ++ b)) (a' ++ b').
Proof.
  intros Hlen. rewrite !fmap_app, fmap_cons.
  rewrite !zip_with_app by (by rewrite length_fmap). simpl.
  by rewrite Permutation_middle.
Qed.

(** After any sequence of calls, [insert(v)] of a value that is not in the
    tree adds exactly one node to the export, with the identifier made from
    the node counter; every other node keeps its identifier and its
    value. *)
Theorem insert_adds_one_node cs t ops v vs :
  run cs emptyTree = Some (t, ops) →
  inorderValues t = Some vs →
  v ∉ vs →
  ∃ t' op ns ns',
    insert v t = Some (t', op)
    ∧ serializeTree t = Some ns
    ∧ serializeTree t' = Some ns'
    ∧ pairOf <$> ns' ≡ₚ (node_id (nodeCounter t), v) :: (pairOf <$> ns).
Proof.
  intros (T & HR & Hb)%reachable_Inv Hvs Hv.
  rewrite (inorderValues_Rep _ _ HR) in Hvs. injection Hvs as <-.
  pose proof (find_missing v t T HR Hv) as Hfind.
  destruct (insert_fresh v t T HR Hfind)
    as (c & t' & op & T' & sn & rest & <- & _ & Hins & HR' & Hk' & Hv' & _).
  exists t', op, (exports (heap t) (plug E c)), (exports (heap t') T').
  split; [done|]. split; [by apply serializeTree_Rep|].
  split; [by apply serializeTree_Rep|].
  destruct HR as (_ & Hl & _), HR' as (_ & Hl' & _).
  rewrite (pairs_exports _ _ _ Hl), (pairs_exports _ _ _ Hl'), Hk', Hv'.
  rewrite !keys_plug, !vals_plug. simpl.
  apply zip_middle, length_before_vbefore.
Qed.

Lemma insert_adds_one_node_witness :
  ∃ t' op ns ns',
    insert 20 (outcome [Insert 10; Insert 30]).1 = Some (t', op)
    ∧ serializeTree (outcome [Insert 10; Insert 30]).1 = Some ns
    ∧ serializeTree t' = Some ns'
    ∧ pairOf <$> ns'
      ≡ₚ (node_id (nodeCounter (outcome [Insert 10; Insert 30]).1), 20) :: (pairOf <$> ns).
Proof.
  apply (insert_adds_one_node [Insert 10; Insert 30] _
           (outcome [Insert 10; Insert 30]).2 20 [10; 30]).
  - vm_compute. reflexivity.
  - vm_compute. reflexivity.
  - intros Hin. apply elem_of_cons in Hin as [Hin|Hin]; [discriminate Hin|].
    apply list_elem_of_singleton in Hin. discriminate Hin.
Defined.

(** After any sequence of calls, [delete(v)] of a value of the tree takes
    exactly one node out of the export, the one that held [v]; every other
    node keeps its identifier and its value (the successor is linked in, its
    value is not copied). *)
Theorem delete_removes_one_node cs t ops v vs :
  run cs emptyTree = Some (t, ops) →
  inorderValues t = Some vs →
  v ∈ vs →
  ∃ t' op ns ns' z,
    delete v t = Some (t', op)
    ∧ serializeTree t = Some ns
    ∧ serializeTree t' = Some ns'
    ∧ pairOf <$> ns ≡ₚ (node_id z, v) :: (pairOf <$> ns').
Proof.
  intros (T & HR & Hb)%reachable_Inv Hvs Hv.
  rewrite (inorderValues_Rep _ _ HR) in Hvs. injection Hvs as <-.
  destruct (find_present v t T HR Hb Hv) as (zl & z & zr & c & Hfind & ->).
  destruct (delete_present v t zl z zr c HR Hfind)
    as (t' & op & T' & sn & rest & Hdel & HR' & Hk' & Hv' & _).
  exists t', op, (exports (heap t) (plug (N zl z v zr) c)), (exports (heap t') T'), z.
  split; [done|]. split; [by apply serializeTree_Rep|].
  split; [by apply serializeTree_Rep|].
  destruct HR as (_ & Hl & _), HR' as (_ & Hl' & _).
  rewrite (pairs_exports _ _ _ Hl), (pairs_exports _ _ _ Hl'), Hk', Hv'.
  rewrite !keys_plug, !vals_plug. simpl.
  replace (before c ++ (keys zl ++ z :: keys zr) ++ after c)
    with ((before c ++ keys zl) ++ z :: (keys zr ++ after c))
    by (by rewrite <- !app_assoc).
  replace (vbefore c ++ (vals zl ++ v :: vals zr) ++ vafter c)
    with ((vbefore c ++ vals zl) ++ v :: (vals zr ++ vafter c))
    by (by rewrite <- !app_assoc).
  rewrite zip_middle by (by rewrite !length_app, length_before_vbefore, length_keys_vals).
  by rewrite <- !app_assoc.
Qed.

Lemma delete_removes_one_node_witness :
  ∃ t' op ns ns' z,
    delete 10 (outcome [Insert 10; Insert 30]).1 = Some (t', op)
    ∧ serializeTree (outcome [Insert 10; Insert 30]).1 = Some ns
    ∧ serializeTree t' = Some ns'
    ∧ pairOf <$> ns ≡ₚ (node_id z, 10) :: (pairOf <$> ns').
Proof.
  apply (delete_removes_one_node [Insert 10; Insert 30] _
           (outcome [Insert 10; Insert 30]).2 10 [10; 30]).
  - vm_compute. reflexivity.
  - vm_compute. reflexivity.
  - apply list_elem_of_here.
Defined.

Ltac chips_cases changes :=
  destruct changes as [[|a1 la] [|r1 lr] [|c1 lc] [|m1 lm]];
  unfold buildChangeChips; simpl.

(** For every record of changes there is one chip for each kind of change
    that occurred and none for the others, at most four in all, in the
    order added, removed, recoloured, moved. *)
Theorem chips_follow_changes changes :
  (∀ k, k ∈ ChangeChip.kind <$> buildChangeChips changes ↔ changesOf changes k ≠ 0%nat)
  ∧ ChangeChip.kind <$> buildChangeChips changes
    `sublist_of` [chipAdded; chipRemoved; chipRecolored; chipMoved].
Proof.
  split.
  - intros k. chips_cases changes;
      destruct k; simpl; split; intros H; try done; try lia;
      repeat first [apply elem_of_nil in H | apply elem_of_cons in H as [H|H]]; try done;
      set_solver.
  - chips_cases changes;
      repeat first [apply sublist_nil_l | apply sublist_skip | apply sublist_cons | done].
Qed.

(** The chips of one record of changes have pairwise distinct keys (they
    are used as list keys when the chips are drawn). *)
Theorem chip_keys_distinct changes :
  NoDup (ChangeChip.key <$> buildChangeChips changes).
Proof.
  chips_cases changes;
    repeat (apply NoDup_cons; split;
            [intros H; repeat (apply elem_of_cons in H as [H|H]; [discriminate H|]);
             by apply elem_of_nil in H|]);
    apply NoDup_nil_2.
Qed.

(** ** What the diff reports *)

Lemma omap_none {A B} (f : A → option B) (l : list A) :
  (∀ x, x ∈ l → f x = None) → omap f l = [].
Proof.
  induction l as [|x l IH]; intros H; [done|]. cbn [omap list_omap].
  rewrite (H x) by apply list_elem_of_here.
  apply IH. intros y Hy. apply H. by apply list_elem_of_further.
Qed.

(** When the identifiers of [previous] are pairwise distinct, the diff
    misses nothing: a node only in [current] is in [added], a node only in
    [previous] is in [removed], a node of both whose colour differs is in
    [recolored] with the two colours, and a node of both whose parent, left
    or right link differs is in [moved]. *)
Theorem diff_reports_every_change previous current :
  NoDup (ids previous) →
  (∀ n, n ∈ current → SerializedNode.id n ∉ ids previous →
        pairOf n ∈ added (diffSnapshots previous current))
  ∧ (∀ p, p ∈ previous → SerializedNode.id p ∉ ids current →
          pairOf p ∈ removed (diffSnapshots previous current))
  ∧ (∀ p n, p ∈ previous → n ∈ current →
            SerializedNode.id p = SerializedNode.id n →
            SerializedNode.color p ≠ SerializedNode.color n →
            (SerializedNode.id n, SerializedNode.value n,
             SerializedNode.color p, SerializedNode.color n)
            ∈ recolored (diffSnapshots previous current))
  ∧ (∀ p n, p ∈ previous → n ∈ current →
            SerializedNode.id p = SerializedNode.id n →
            relinked p n →
            pairOf n ∈ moved (diffSnapshots previous current)).
Proof.
  intros Hnd. rewrite diffSnapshots_eq. simpl. repeat split.
  - intros n Hn Hid. apply list_elem_of_omap. exists n. split; [done|].
    unfold addedAt. by rewrite (proj2 (nodeMap_None previous _) Hid).
  - intros p Hp Hid. apply list_elem_of_omap. exists p. split; [done|].
    unfold addedAt. by rewrite (proj2 (nodeMap_None current _) Hid).
  - intros p n Hp Hn Hid Hc. apply list_elem_of_omap. exists n. split; [done|].
    unfold recoloredAt. rewrite <- Hid, (nodeMap_NoDup _ _ Hnd Hp).
    rewrite decide_True by done. by rewrite Hid.
  - intros p n Hp Hn Hid Hr. apply list_elem_of_omap. exists n. split; [done|].
    unfold movedAt. rewrite <- Hid, (nodeMap_NoDup _ _ Hnd Hp).
    rewrite decide_True by done. unfold pairOf. by rewrite Hid.
Qed.

Lemma diff_reports_every_change_witness :
  (∀ n, n ∈ [exported "a" 1 black (Some "b") None None; exported "b" 2 black None None None] →
        SerializedNode.id n ∉ ids [exported "a" 1 red None None None] →
        pairOf n ∈ added (diffSnapshots [exported "a" 1 red None None None]
                            [exported "a" 1 black (Some "b") None None;
                             exported "b" 2 black None None None]))
  ∧ (∀ p, p ∈ [exported "a" 1 red None None None] →
          SerializedNode.id p ∉ ids [exported "a" 1 black (Some "b") None None;
                                     exported "b" 2 black None None None] →
          pairOf p ∈ removed (diffSnapshots [exported "a" 1 red None None None]
                                [exported "a" 1 black (Some "b") None None;
                                 exported "b" 2 black None None None]))
  ∧ (∀ p n, p ∈ [exported "a" 1 red None None None] →
            n ∈ [exported "a" 1 black (Some "b") None None;
                 exported "b" 2 black None None None] →
            SerializedNode.id p = SerializedNode.id n →
            SerializedNode.color p ≠ SerializedNode.color n →
            (SerializedNode.id n, SerializedNode.value n,
             SerializedNode.color p, SerializedNode.color n)
            ∈ recolored (diffSnapshots [exported "a" 1 red None None None]
                           [exported "a" 1 black (Some "b") None None;
                            exported "b" 2 black None None None]))
  ∧ (∀ p n, p ∈ [exported "a" 1 red None None None] →
            n ∈ [exported "a" 1 black (Some "b") None None;
                 exported "b" 2 black None None None] →
            SerializedNode.id p = SerializedNode.id n →
            relinked p n →
            pairOf n ∈ moved (diffSnapshots [exported "a" 1 red None None None]
                                [exported "a" 1 black (Some "b") None None;
                                 exported "b" 2 black None None None])).
Proof.
  apply (diff_reports_every_change [exported "a" 1 red None None None]
           [exported "a" 1 black (Some "b") None None; exported "b" 2 black None None None]).
  apply NoDup_singleton.
Defined.

(** Diffing an export whose identifiers are pairwise distinct against itself
    reports nothing, and the summary shows no chip. *)
Theorem no_change_no_chips ns :
  NoDup (ids ns) →
  diffSnapshots ns ns = mkChanges [] [] [] []
  ∧ buildChangeChips (diffSnapshots ns ns) = [].
Proof.
  intros Hnd.
  assert (Hd : diffSnapshots ns ns = mkChanges [] [] [] []).
  { rewrite diffSnapshots_eq. f_equal; apply omap_none; intros n Hn.
    - unfold addedAt. by rewrite (nodeMap_NoDup _ _ Hnd Hn).
    - unfold addedAt. by rewrite (nodeMap_NoDup _ _ Hnd Hn).
    - unfold recoloredAt. rewrite (nodeMap_NoDup _ _ Hnd Hn). by rewrite decide_False by auto.
    - unfold movedAt. rewrite (nodeMap_NoDup _ _ Hnd Hn).
      rewrite decide_False; [done|]. unfold relinked. tauto. }
  split; [done|]. by rewrite Hd.
Qed.

Lemma no_change_no_chips_witness :
  diffSnapshots [exported "a" 1 red None None None] [exported "a" 1 red None None None]
  = mkChanges [] [] [] []
  ∧ buildChangeChips
      (diffSnapshots [exported "a" 1 red None None None] [exported "a" 1 red None None None])
    = [].
Proof.
  apply (no_change_no_chips [exported "a" 1 red None None None]).
  apply NoDup_singleton.
Defined.

Lemma laidOut_snoc ps n d :
  laidOut ps →
  laidOut (ps ++ [PositionedNode.mk n (Z.of_nat (length ps) * NODE_SPACING_X)
                    (Z.of_nat d * NODE_SPACING_Y) d]).
Proof.
  intros H j p Hj. apply lookup_app_Some in Hj as [Hj|[Hlen Hj]]; [by apply H|].
  apply list_lookup_singleton_Some in Hj as [Hj <-]. simpl.
  split; [|done]. f_equal. lia.
Qed.

Lemma assignCoordinates_laidOut fuel byId i d st st' :
  assignCoordinates fuel byId i d st = Some st' →
  st.1 = length st.2 → laidOut st.2 →
  st'.1 = length st'.2 ∧ laidOut st'.2.
Proof.
  revert i d st st'. induction fuel as [|fuel IH]; intros i d st st'; simpl.
  - destruct (truthy i) as [j|]; [|by intros [= <-]].
    destruct (byId !! j); [done|by intros [= <-]].
  - destruct (truthy i) as [j|]; [|by intros [= <-]].
    destruct (byId !! j) as [n|]; [|by intros [= <-]].
    intros (st1 & H1 & H2)%bind_Some Hlen Hlaid.
    destruct (IH _ _ _ _ H1 Hlen Hlaid) as (Hlen1 & Hlaid1).
    apply (IH _ _ _ _ H2); simpl.
    + rewrite length_app. simpl. lia.
    + rewrite Hlen1. by apply laidOut_snoc.
Qed.

Lemma foldl_min_spec a l :
  foldl Z.min a l ≤ a
  ∧ Forall (λ b, foldl Z.min a l ≤ b) l
  ∧ (foldl Z.min a l = a ∨ foldl Z.min a l ∈ l).
Proof.
  revert a. induction l as [|b l IH]; intros a; simpl;
    [split; [lia|split; [constructor|by left]]|].
  destruct (IH (Z.min a b)) as (H1 & H2 & H3).
  split; [lia|]. split.
  - constructor; [lia|done].
  - destruct H3 as [H3|H3]; [|right; by apply elem_of_cons; right].
    destruct (Z.min_spec a b) as [[_ Hm]|[_ Hm]].
    + left. lia.
    + right. apply elem_of_cons. left. lia.
Qed.

Lemma foldl_max_spec a l :
  a ≤ foldl Z.max a l
  ∧ Forall (λ b, b ≤ foldl Z.max a l) l
  ∧ (foldl Z.max a l = a ∨ foldl Z.max a l ∈ l).
Proof.
  revert a. induction l as [|b l IH]; intros a; simpl;
    [split; [lia|split; [constructor|by left]]|].
  destruct (IH (Z.max a b)) as (H1 & H2 & H3).
  split; [lia|]. split.
  - constructor; [lia|done].
  - destruct H3 as [H3|H3]; [|right; by apply elem_of_cons; right].
    destruct (Z.max_spec a b) as [[_ Hm]|[_ Hm]].
    + right. apply elem_of_cons. left. lia.
    + left. lia.
Qed.

Lemma laidOut_minX p0 rest :
  laidOut (p0 :: rest) →
  foldl Z.min (PositionedNode.x p0) (PositionedNode.x <$> rest) = 0.
Proof.
  intros H. destruct (H 0%nat p0 eq_refl) as (H0 & _). simpl in H0.
  destruct (foldl_min_spec (PositionedNode.x p0) (PositionedNode.x <$> rest))
    as (Hle & _ & [Heq|Hin]); [lia|].
  apply list_elem_of_fmap in Hin as (p & Hp & Hin).
  apply list_elem_of_lookup in Hin as (j & Hj).
  destruct (H (S j) p Hj) as (Hx & _). unfold NODE_SPACING_X in *. lia.
Qed.

Lemma laidOut_maxX p0 rest :
  laidOut (p0 :: rest) →
  foldl Z.max (PositionedNode.x p0) (PositionedNode.x <$> rest)
  = Z.of_nat (length rest) * NODE_SPACING_X.
Proof.
  intros H. destruct (H 0%nat p0 eq_refl) as (H0 & _). simpl in H0.
  destruct (foldl_max_spec (PositionedNode.x p0) (PositionedNode.x <$> rest))
    as (Hge & Hall & Hin).
  apply Z.le_antisymm.
  - destruct Hin as [Heq|Hin]; [unfold NODE_SPACING_X in *; lia|].
    apply list_elem_of_fmap in Hin as (p & Hp & Hin).
    apply list_elem_of_lookup in Hin as (j & Hj).
    pose proof (lookup_lt_Some _ _ _ Hj).
    destruct (H (S j) p Hj) as (Hx & _). unfold NODE_SPACING_X in *. lia.
  - destruct (decide (rest = [])) as [->|Hne]; [simpl in *; unfold NODE_SPACING_X in *; lia|].
    destruct (last rest) as [pl|] eqn:Hlast; [|by apply last_None in Hlast].
    rewrite last_lookup in Hlast.
    destruct (H (S (pred (length rest))) pl Hlast) as (Hx & _).
    rewrite Forall_forall in Hall.
    assert (PositionedNode.x pl ∈ PositionedNode.x <$> rest) as Hinl.
    { apply list_elem_of_fmap. exists pl. split; [done|]. by eapply list_elem_of_lookup_2. }
    specialize (Hall _ Hinl). destruct rest; [done|]. simpl in *.
    unfold NODE_SPACING_X in *. lia.
Qed.

Lemma positioned_laidOut ns rootId st :
  match truthy (Some rootId) with
  | Some i => assignCoordinates (length ns) (nodeMap ns) (Some i) 0 (0%nat, [])
  | None => Some (0%nat, [])
  end = Some st →
  laidOut st.2.
Proof.
  assert (H0 : laidOut []) by (by intros j p ?).
  destruct (truthy (Some rootId)); [|by intros [= <-]].
  intros H. by destruct (assignCoordinates_laidOut _ _ _ _ _ _ H eq_refl H0).
Qed.

(** What [computeTreeLayout] returns for a list of positioned nodes. *)
Lemma layout_of_positioned p0 rest :
  laidOut (p0 :: rest) →
  let off := Z.of_nat (length rest) * 45 in
  let minX := foldl Z.min (PositionedNode.x p0) (PositionedNode.x <$> rest) in
  let maxX := foldl Z.max (PositionedNode.x p0) (PositionedNode.x <$> rest) in
  minX = 0 ∧ maxX = Z.of_nat (length rest) * 90 ∧ (minX + maxX) / 2 = off.
Proof.
  intros H off minX maxX.
  pose proof (laidOut_minX _ _ H) as Hmin. pose proof (laidOut_maxX _ _ H) as Hmax.
  unfold NODE_SPACING_X in Hmax. fold minX in Hmin. fold maxX in Hmax.
  split; [done|]. split; [done|]. rewrite Hmin, Hmax. unfold off.
  replace (0 + Z.of_nat (length rest) * 90) with (Z.of_nat (length rest) * 45 * 2) by lia.
  by apply Z.div_mul.
Qed.

(** Whatever list [computeTreeLayout] is given, when it returns, the nodes
    of the layout stand 90 apart from left to right in the order of the
    list, centred on 0, each at 120 times its depth; the bounds enclose
    every node and are symmetric about 0. *)
Theorem layout_evenly_spaced ns L :
  computeTreeLayout ns = Some L →
  (∀ j p, LayoutResult.nodes L !! j = Some p →
     PositionedNode.x p
     = 90 * Z.of_nat j - 45 * (Z.of_nat (length (LayoutResult.nodes L)) - 1)
     ∧ PositionedNode.y p = 120 * Z.of_nat (PositionedNode.depth p))
  ∧ (∀ p, p ∈ LayoutResult.nodes L →
       minX (LayoutResult.bounds L) ≤ PositionedNode.x p ≤ maxX (LayoutResult.bounds L)
       ∧ minY (LayoutResult.bounds L) ≤ PositionedNode.y p ≤ maxY (LayoutResult.bounds L))
  ∧ minX (LayoutResult.bounds L) + maxX (LayoutResult.bounds L) = 0.
Proof.
  unfold computeTreeLayout. destruct ns as [|first ns'].
  { intros [= <-]. simpl. split; [by intros j p ?|]. split; [|done].
    by intros p ?%elem_of_nil. }
  intros ([k ps] & Hps & H)%bind_Some.
  apply positioned_laidOut in Hps. simpl in Hps.
  destruct ps as [|p0 rest].
  { injection H as <-. simpl. split; [by intros j p ?|]. split; [|done].
    by intros p ?%elem_of_nil. }
  injection H as <-. simpl LayoutResult.nodes. simpl LayoutResult.bounds.
  destruct (layout_of_positioned _ _ Hps) as (Hmin & Hmax & Hoff).
  rewrite Hoff, Hmin, Hmax. cbn [minX maxX minY maxY].
  assert (Hj : ∀ j p,
    ((λ p, PositionedNode.with_x (PositionedNode.x p - Z.of_nat (length rest) * 45) p)
       <$> p0 :: rest) !! j = Some p →
    (j ≤ length rest)%nat
    ∧ PositionedNode.x p = 90 * Z.of_nat j - 45 * Z.of_nat (length rest)
    ∧ PositionedNode.y p = 120 * Z.of_nat (PositionedNode.depth p)
    ∧ ∃ p', p' ∈ p0 :: rest ∧ PositionedNode.y p = PositionedNode.y p').
  { intros j p Hp. rewrite list_lookup_fmap in Hp.
    destruct ((p0 :: rest) !! j) as [p'|] eqn:Hp'; [|done].
    injection Hp as <-. simpl.
    pose proof (lookup_lt_Some _ _ _ Hp') as Hlt. simpl in Hlt.
    destruct (Hps j p' Hp') as (Hx & Hy). unfold NODE_SPACING_X, NODE_SPACING_Y in *.
    split; [lia|]. split; [lia|]. split; [lia|].
    exists p'. split; [by eapply list_elem_of_lookup_2|done]. }
  split; [|split; [|lia]].
  - intros j p Hp. destruct (Hj j p Hp) as (_ & Hx & Hy & _).
    simpl length. rewrite ?length_fmap. split; [lia|done].
  - intros p (j & Hp)%list_elem_of_lookup.
    destruct (Hj j p Hp) as (Hlt & Hx & _ & p' & Hp' & Hy).
    split; [lia|]. rewrite Hy.
    destruct (foldl_min_spec (PositionedNode.y p0) (PositionedNode.y <$> rest))
      as (Hle & Hall & _).
    destruct (foldl_max_spec (PositionedNode.y p0) (PositionedNode.y <$> rest))
      as (Hge & Hall' & _).
    rewrite Forall_forall in Hall, Hall'.
    apply elem_of_cons in Hp' as [->|Hp']; [lia|].
    assert (PositionedNode.y p' ∈ PositionedNode.y <$> rest)
      by (apply list_elem_of_fmap; eauto).
    split; [by apply Hall|by apply Hall'].
Qed.

Lemma layout_evenly_spaced_witness :
  (∀ j p, LayoutResult.nodes twoNodesLayout !! j = Some p →
     PositionedNode.x p
     = 90 * Z.of_nat j - 45 * (Z.of_nat (length (LayoutResult.nodes twoNodesLayout)) - 1)
     ∧ PositionedNode.y p = 120 * Z.of_nat (PositionedNode.depth p))
  ∧ (∀ p, p ∈ LayoutResult.nodes twoNodesLayout →
       minX (LayoutResult.bounds twoNodesLayout) ≤ PositionedNode.x p
         ≤ maxX (LayoutResult.bounds twoNodesLayout)
       ∧ minY (LayoutResult.bounds twoNodesLayout) ≤ PositionedNode.y p
         ≤ maxY (LayoutResult.bounds twoNodesLayout))
  ∧ minX (LayoutResult.bounds twoNodesLayout) + maxX (LayoutResult.bounds twoNodesLayout) = 0.
Proof.
  apply (layout_evenly_spaced twoNodes). vm_compute. reflexivity.
Defined.

Lemma node_id_nonempty a : node_id a ≠ "".
Proof. done. Qed.

Lemma truthy_node_id a : truthy (Some (node_id a)) = Some (node_id a).
Proof. done. Qed.

Lemma truthy_optId o : truthy (optId o) = optId o.
Proof. by destruct o. Qed.

Lemma length_placed h p T d k :
  linked h p T → length (placed h T d k) = length (keys T).
Proof.
  revert p d k. induction T as [|l IHl a v r IHr]; intros p d k; simpl; [done|].
  intros (na & Ha & _ & _ & _ & _ & Hl & Hr). rewrite Ha.
  rewrite !length_app, (IHl _ _ _ Hl), (IHr _ _ _ Hr). done.
Qed.

Lemma length_exports h p T : linked h p T → length (exports h T) = length (keys T).
Proof.
  revert p. induction T as [|l IHl a v r IHr]; intros p; simpl; [done|].
  intros (na & Ha & _ & _ & _ & _ & Hl & Hr). rewrite Ha.
  rewrite !length_app, (IHl _ Hl), (IHr _ Hr). simpl. lia.
Qed.

Lemma assignCoordinates_linked byId h p T :
  linked h p T →
  (∀ a na, a ∈ keys T → h !! a = Some na → byId !! node_id a = Some (exportNode a na)) →
  ∀ fuel d k acc,
    (height T ≤ fuel)%nat →
    assignCoordinates fuel byId (node_id <$> top T) d (k, acc)
    = Some ((k + length (keys T))%nat, acc ++ placed h T d k).
Proof.
  revert p. induction T as [|l IHl a v r IHr]; intros p Hl HbyId fuel d k acc Hf.
  - simpl. destruct fuel; simpl; by rewrite Nat.add_0_r, app_nil_r.
  - destruct Hl as (na & Ha & _ & _ & Hln & Hrn & Hll & Hlr).
    destruct fuel as [|fuel]; [simpl in Hf; lia|].
    simpl top. cbn [fmap option_fmap option_map].
    cbn [assignCoordinates]. rewrite truthy_node_id.
    rewrite (HbyId a na) by (done || (simpl; set_solver)).
    cbn [exportNode SerializedNode.leftId SerializedNode.rightId].
    rewrite Hln, Hrn.
    rewrite (IHl _ Hll) by (try (intros; apply HbyId; [simpl; set_solver|done]); simpl in Hf; lia).
    simpl. rewrite Ha.
    rewrite (IHr _ Hlr) by (try (intros; apply HbyId; [simpl; set_solver|done]); simpl in Hf; lia).
    f_equal. f_equal.
    + rewrite length_app. simpl. lia.
    + by rewrite <- !app_assoc.
Qed.

Lemma nodeMap_exports h T a na :
  linked h None T → NoDup (keys T) →
  a ∈ keys T → h !! a = Some na →
  nodeMap (exports h T) !! node_id a = Some (exportNode a na).
Proof.
  intros Hl Hnd Ha Hna.
  apply (nodeMap_NoDup (exports h T) (exportNode a na)).
  - by destruct (wellFormedExport_exports h T Hl Hnd).
  - apply (elem_of_exports _ _ _ _ Hl). eauto.
Qed.

Lemma elem_of_hasParent i acc ns :
  i ∈ foldl visitLinks acc ns ↔
  i ∈ acc ∨ ∃ n, n ∈ ns ∧ (truthy (SerializedNode.leftId n) = Some i
                           ∨ truthy (SerializedNode.rightId n) = Some i).
Proof.
  revert acc. induction ns as [|n ns IH]; intros acc; simpl.
  - split; [by left|]. intros [?|(? & ?%elem_of_nil & _)]; done.
  - rewrite IH. unfold visitLinks. split.
    + intros [Hi|(m & Hm & Hi)]; [|right; exists m; split; [by apply elem_of_cons; right|done]].
      destruct (truthy (SerializedNode.rightId n)) as [r|] eqn:Hr;
        destruct (truthy (SerializedNode.leftId n)) as [l|] eqn:Hl;
        set_unfold; naive_solver.
    + intros [Hi|(m & [->|Hm]%elem_of_cons & Hi)].
      * left. destruct (truthy (SerializedNode.rightId n)), (truthy (SerializedNode.leftId n));
          set_solver.
      * left. destruct (truthy (SerializedNode.rightId n)), (truthy (SerializedNode.leftId n));
          set_unfold; naive_solver.
      * right. eauto.
Qed.

Lemma truthy_Some o i : truthy o = Some i → o = Some i.
Proof. destruct o as [s|]; simpl; [|done]. by case_decide; intros [= ->]. Qed.

Lemma same_id_same_node ns (m n : SerializedNode.t) :
  NoDup (ids ns) → m ∈ ns → n ∈ ns → SerializedNode.id m = SerializedNode.id n → m = n.
Proof.
  intros Hnd Hm Hn Hid.
  pose proof (nodeMap_NoDup _ _ Hnd Hm) as H1. pose proof (nodeMap_NoDup _ _ Hnd Hn) as H2.
  rewrite Hid in H1. congruence.
Qed.

(** In the export of a tree the first record is the root, and it is the one
    [computeTreeLayout] starts from. *)
Lemma root_of_exports h l a v r :
  linked h None (N l a v r) → NoDup (keys (N l a v r)) →
  ∃ na rest,
    h !! a = Some na
    ∧ exports h (N l a v r) = exportNode a na :: rest
    ∧ head (filter (λ n, truthy (SerializedNode.parentId n) = None
                         ∧ SerializedNode.id n ∉ foldl visitLinks ∅ (exports h (N l a v r)))
              (exports h (N l a v r)))
      = Some (exportNode a na).
Proof.
  intros Hl Hnd. pose proof (wellFormedExport_exports _ _ Hl Hnd) as (Hids & Hch & _).
  pose proof Hl as (na & Ha & _ & Hp & _).
  exists na, (exports h l ++ exports h r).
  split; [done|]. split; [by simpl; rewrite Ha|].
  assert (Hfirst : exportNode a na ∈ exports h (N l a v r)).
  { apply (elem_of_exports _ _ _ _ Hl). exists a, na. split; [simpl; set_solver|done]. }
  assert (Hex : exports h (N l a v r) = exportNode a na :: (exports h l ++ exports h r))
    by (by simpl; rewrite Ha).
  remember (foldl visitLinks ∅ (exports h (N l a v r))) as hp eqn:Hhp.
  rewrite Hex. rewrite filter_cons_True; [done|].
  split; [by simpl; rewrite Hp|]. subst hp.
  intros [?%elem_of_empty|(n & Hn & Hi)]%elem_of_hasParent; [done|].
  assert (SerializedNode.leftId n = Some (node_id a) ∨ SerializedNode.rightId n = Some (node_id a))
    as Hi' by (destruct Hi as [?%truthy_Some|?%truthy_Some]; auto).
  destruct (Hch n _ Hn Hi') as (m & Hm & Hid & Hpar).
  assert (m = exportNode a na) as -> by (by eapply same_id_same_node).
  simpl in Hpar. by rewrite Hp in Hpar.
Qed.

Lemma placed_laidOut h p T d :
  linked h p T → laidOut (placed h T d 0).
Proof.
  intros Hl.
  assert (Hgen : ∀ T p d k acc, linked h p T → k = length acc → laidOut acc →
                 laidOut (acc ++ placed h T d k)).
  { clear. induction T as [|l IHl a v r IHr]; intros p d k acc Hl Hk Hacc; simpl.
    - by rewrite app_nil_r.
    - destruct Hl as (na & Ha & _ & _ & _ & _ & Hll & Hlr). rewrite Ha.
      rewrite !app_assoc. eapply IHr; [done| |].
      + rewrite !length_app, (length_placed _ _ _ _ _ Hll). simpl. lia.
      + pose proof (IHl _ (S d) k acc Hll Hk Hacc) as H1.
        pose proof (laidOut_snoc _ (exportNode a na) d H1) as H2.
        rewrite length_app, (length_placed _ _ _ _ _ Hll), <- Hk in H2. exact H2. }
  apply (Hgen T p d 0%nat [] Hl eq_refl). by intros j q ?.
Qed.

Lemma layout_from_root ns first rest rootNode i k p0 ps :
  ns = first :: rest →
  head (filter (λ n, truthy (SerializedNode.parentId n) = None
                     ∧ SerializedNode.id n ∉ foldl visitLinks ∅ ns) ns) = Some rootNode →
  truthy (Some (SerializedNode.id rootNode)) = Some i →
  assignCoordinates (length ns) (nodeMap ns) (Some i) 0 (0%nat, []) = Some (k, p0 :: ps) →
  laidOut (p0 :: ps) →
  ∃ L, computeTreeLayout ns = Some L
       ∧ LayoutResult.nodes L = centred (45 * Z.of_nat (length ps)) (p0 :: ps)
       ∧ LayoutResult.edges L = LayoutResult.nodes L ≫= edgesOf.
Proof.
  intros Hns Hroot Hi Hassign Hlaid. unfold computeTreeLayout.
  destruct ns as [|first' rest']; [done|]. rewrite Hroot, Hi, Hassign.
  cbn [mbind option_bind].
  destruct (layout_of_positioned _ _ Hlaid) as (Hmin & Hmax & Hoff).
  eexists. split; [done|]. simpl. rewrite Hoff.
  split; [|done]. unfold centred.
  by replace (Z.of_nat (length ps) * 45) with (45 * Z.of_nat (length ps)) by lia.
Qed.

Lemma layout_of_Rep t T :
  Rep t T →
  ∃ L, computeTreeLayout (exports (heap t) T) = Some L
       ∧ LayoutResult.nodes L
         = centred (45 * (Z.of_nat (length (keys T)) - 1)) (placed (heap t) T 0 0)
       ∧ LayoutResult.edges L = LayoutResult.nodes L ≫= edgesOf.
Proof.
  intros (_ & Hl & Hnd & _). destruct T as [|l a v r].
  { exists emptyLayout. done. }
  destruct (root_of_exports _ _ _ _ _ Hl Hnd) as (na & rest & Ha & Hex & Hroot).
  pose proof (placed_laidOut _ _ _ 0%nat Hl) as Hlaid.
  pose proof (length_placed _ _ _ 0%nat 0%nat Hl) as Hlen.
  pose proof (assignCoordinates_linked (nodeMap (exports (heap t) (N l a v r))) _ _ _ Hl
             (λ a na Hin Hna, nodeMap_exports _ _ a na Hl Hnd Hin Hna)
             (length (exports (heap t) (N l a v r))) 0%nat 0%nat []) as Hassign.
  rewrite app_nil_l in Hassign.
  destruct (placed (heap t) (N l a v r) 0 0) as [|p0 ps] eqn:Hpl.
  { exfalso. simpl in Hlen. rewrite length_app in Hlen. simpl in Hlen. lia. }
  destruct (layout_from_root _ _ _ _ _ (0 + length (keys (N l a v r)))%nat p0 ps
              Hex Hroot (truthy_node_id a))
    as (L & HL & Hn & He).
  { apply Hassign. rewrite (length_exports _ _ _ Hl). apply height_le_length. }
  { done. }
  exists L. split; [done|]. split; [|done]. rewrite Hn. f_equal.
  simpl in Hlen. simpl. lia.
Qed.

Lemma placed_values h p T d k :
  linked h p T →
  (λ q, SerializedNode.value (PositionedNode.node q)) <$> placed h T d k = vals T.
Proof.
  revert p d k. induction T as [|l IHl a v r IHr]; intros p d k; simpl; [done|].
  intros (na & Ha & Hv & _ & _ & _ & Hl & Hr). rewrite Ha.
  rewrite !fmap_app, (IHl _ _ _ Hl), (IHr _ _ _ Hr). simpl. by rewrite Hv.
Qed.

Lemma placed_perm h p T d k :
  linked h p T → PositionedNode.node <$> placed h T d k ≡ₚ exports h T.
Proof.
  revert p d k. induction T as [|l IHl a v r IHr]; intros p d k; simpl; [done|].
  intros (na & Ha & _ & _ & _ & _ & Hl & Hr). rewrite Ha.
  rewrite !fmap_app, (IHl _ _ _ Hl), (IHr _ _ _ Hr). simpl.
  by rewrite Permutation_middle.
Qed.

Lemma centred_nodes off ps :
  PositionedNode.node <$> centred off ps = PositionedNode.node <$> ps.
Proof. unfold centred. rewrite <- list_fmap_compose. done. Qed.

Lemma centred_lookup off ps j p :
  centred off ps !! j = Some p →
  ∃ p', ps !! j = Some p'
        ∧ PositionedNode.node p = PositionedNode.node p'
        ∧ PositionedNode.depth p = PositionedNode.depth p'
        ∧ PositionedNode.y p = PositionedNode.y p'
        ∧ PositionedNode.x p = PositionedNode.x p' - off.
Proof.
  unfold centred. rewrite list_lookup_fmap.
  destruct (ps !! j) as [p'|]; [|done]. intros [= <-]. by exists p'.
Qed.

Lemma sorted_lookup_lt (vs : list Z) i j a b :
  StronglySorted Z.lt vs → vs !! i = Some a → vs !! j = Some b →
  (a < b ↔ (i < j)%nat).
Proof.
  intros Hs Hi Hj.
  assert (Hmono : ∀ i j a b, (i < j)%nat → vs !! i = Some a → vs !! j = Some b → a < b).
  { clear -Hs. induction Hs as [|x l Hs IH Hall]; intros i j a b Hlt Hi Hj; [done|].
    destruct j as [|j]; [lia|]. destruct i as [|i]; simpl in *.
    - injection Hi as <-. rewrite Forall_forall in Hall. apply Hall.
      by eapply list_elem_of_lookup_2.
    - apply (IH i j); [lia|done..]. }
  split; [|by intros; eapply Hmono].
  intros Hab. destruct (decide (i < j)%nat) as [|Hge]; [done|].
  destruct (decide (i = j)) as [->|Hne]; [simplify_eq; lia|].
  assert (b < a) by (apply (Hmono j i); [lia|done..]). lia.
Qed.

(** After any sequence of calls, the layout of the exported tree holds
    every exported node once, and draws the values in their order: a node
    with a smaller value stands further left. *)
Theorem layout_draws_values_in_order cs t ops :
  run cs emptyTree = Some (t, ops) →
  ∃ ns L,
    serializeTree t = Some ns
    ∧ computeTreeLayout ns = Some L
    ∧ PositionedNode.node <$> LayoutResult.nodes L ≡ₚ ns
    ∧ inorderValues t
      = Some ((λ q, SerializedNode.value (PositionedNode.node q)) <$> LayoutResult.nodes L)
    ∧ ∀ p q, p ∈ LayoutResult.nodes L → q ∈ LayoutResult.nodes L →
        (SerializedNode.value (PositionedNode.node p)
         < SerializedNode.value (PositionedNode.node q)
         ↔ PositionedNode.x p < PositionedNode.x q).
Proof.
  intros (T & HR & Hb)%reachable_Inv.
  destruct (layout_of_Rep _ _ HR) as (L & HL & Hn & _).
  pose proof HR as (_ & Hl & _).
  exists (exports (heap t) T), L. split; [by apply serializeTree_Rep|]. split; [done|].
  assert (Hvals : (λ q, SerializedNode.value (PositionedNode.node q)) <$> LayoutResult.nodes L
                  = vals T).
  { rewrite <- (placed_values _ _ _ 0%nat 0%nat Hl), Hn. unfold centred.
    rewrite <- list_fmap_compose. done. }
  split; [by rewrite Hn, centred_nodes; eapply placed_perm|].
  split; [by rewrite Hvals; apply inorderValues_Rep|].
  intros p q (i & Hi)%list_elem_of_lookup (j & Hj)%list_elem_of_lookup.
  assert (Hvi : vals T !! i = Some (SerializedNode.value (PositionedNode.node p)))
    by (by rewrite <- Hvals, list_lookup_fmap, Hi).
  assert (Hvj : vals T !! j = Some (SerializedNode.value (PositionedNode.node q)))
    by (by rewrite <- Hvals, list_lookup_fmap, Hj).
  rewrite (sorted_lookup_lt _ _ _ _ _ Hb Hvi Hvj).
  rewrite Hn in Hi, Hj.
  apply centred_lookup in Hi as (p' & Hp' & _ & _ & _ & ->).
  apply centred_lookup in Hj as (q' & Hq' & _ & _ & _ & ->).
  destruct (placed_laidOut _ _ _ 0%nat Hl _ _ Hp') as (-> & _).
  destruct (placed_laidOut _ _ _ 0%nat Hl _ _ Hq') as (-> & _).
  unfold NODE_SPACING_X. lia.
Qed.

Lemma layout_draws_values_witness :
  ∃ ns L,
    serializeTree (outcome [Insert 10; Insert 5; Insert 15]).1 = Some ns
    ∧ computeTreeLayout ns = Some L
    ∧ PositionedNode.node <$> LayoutResult.nodes L ≡ₚ ns
    ∧ inorderValues (outcome [Insert 10; Insert 5; Insert 15]).1
      = Some ((λ q, SerializedNode.value (PositionedNode.node q)) <$> LayoutResult.nodes L)
    ∧ ∀ p q, p ∈ LayoutResult.nodes L → q ∈ LayoutResult.nodes L →
        (SerializedNode.value (PositionedNode.node p)
         < SerializedNode.value (PositionedNode.node q)
         ↔ PositionedNode.x p < PositionedNode.x q).
Proof.
  apply (layout_draws_values_in_order [Insert 10; Insert 5; Insert 15] _
           (outcome [Insert 10; Insert 5; Insert 15]).2).
  vm_compute. reflexivity.
Defined.

Lemma before_app c1 c2 : before (c1 ++ c2) = before c2 ++ before c1.
Proof.
  induction c1 as [|[x v r|l x v] c1 IH]; simpl; [by rewrite app_nil_r|done|].
  by rewrite IH, <- !app_assoc.
Qed.

Lemma placed_plug h U c d k :
  ∃ pre suf,
    placed h (plug U c) d k
    = pre ++ placed h U (d + length c) (k + length (before c)) ++ suf.
Proof.
  revert U. induction c as [|[a v r|l a v] c IH]; intros U; simpl.
  - exists [], []. by rewrite !Nat.add_0_r, app_nil_r.
  - destruct (IH (N U a v r)) as (pre & suf & ->). simpl.
    exists pre,
      (match h !! a with
       | Some na =>
           [PositionedNode.mk (exportNode a na)
              (Z.of_nat (k + length (before c) + length (keys U)) * NODE_SPACING_X)
              (Z.of_nat (d + length c) * NODE_SPACING_Y) (d + length c)]
       | None => []
       end ++ placed h r (S (d + length c)) (S (k + length (before c) + length (keys U)))
       ++ suf).
    rewrite Nat.add_succ_r. by rewrite <- !app_assoc.
  - destruct (IH (N l a v U)) as (pre & suf & ->). simpl.
    exists (pre ++ placed h l (S (d + length c)) (k + length (before c))
            ++ match h !! a with
               | Some na =>
                   [PositionedNode.mk (exportNode a na)
                      (Z.of_nat (k + length (before c) + length (keys l)) * NODE_SPACING_X)
                      (Z.of_nat (d + length c) * NODE_SPACING_Y) (d + length c)]
               | None => []
               end), suf.
    rewrite !length_app. simpl.
    replace (k + (length (before c) + (length (keys l) + 1)))%nat
      with (S (k + length (before c) + length (keys l))) by lia.
    replace (d + S (length c))%nat with (S (d + length c)) by lia.
    by rewrite <- !app_assoc.
Qed.

Lemma entry_placed h l a v r c d k na :
  h !! a = Some na →
  entry a na l c d k ∈ placed h (plug (N l a v r) c) d k.
Proof.
  intros Ha. destruct (placed_plug h (N l a v r) c d k) as (pre & suf & ->).
  simpl. rewrite Ha. unfold entry. set_solver.
Qed.

Lemma placed_entry h T d k p :
  p ∈ placed h T d k →
  ∃ a na l v r c, T = plug (N l a v r) c ∧ h !! a = Some na ∧ p = entry a na l c d k.
Proof.
  revert d k. induction T as [|l IHl a v r IHr]; intros d k; simpl.
  - by intros ?%elem_of_nil.
  - rewrite !elem_of_app. intros [Hp|[Hp|Hp]].
    + destruct (IHl _ _ Hp) as (b & nb & l' & v' & r' & c & -> & Hb & ->).
      exists b, nb, l', v', r', (c ++ [InLeft a v r]).
      split; [by rewrite plug_app|]. split; [done|].
      unfold entry. rewrite before_app, !length_app. simpl.
      f_equal; f_equal; lia.
    + destruct (h !! a) as [na|] eqn:Ha; [|by apply elem_of_nil in Hp].
      apply list_elem_of_singleton in Hp as ->.
      exists a, na, l, v, r, []. split; [done|]. split; [done|].
      unfold entry. simpl. f_equal; f_equal; lia.
    + destruct (IHr _ _ Hp) as (b & nb & l' & v' & r' & c & -> & Hb & ->).
      exists b, nb, l', v', r', (c ++ [InRight l a v]).
      split; [by rewrite plug_app|]. split; [done|].
      unfold entry. rewrite before_app, !length_app. simpl. rewrite !length_app. simpl.
      f_equal; f_equal; lia.
Qed.

Lemma placed_ids_NoDup h T d k :
  linked h None T → NoDup (keys T) →
  NoDup ((λ p, SerializedNode.id (PositionedNode.node p)) <$> placed h T d k).
Proof.
  intros Hl Hnd. pose proof (wellFormedExport_exports _ _ Hl Hnd) as (Hids & _).
  unfold ids in Hids. rewrite <- (placed_perm _ _ _ d k Hl) in Hids.
  rewrite <- list_fmap_compose in Hids. exact Hids.
Qed.

Lemma same_id_same_entry h T d k p q :
  linked h None T → NoDup (keys T) →
  p ∈ placed h T d k → q ∈ placed h T d k →
  SerializedNode.id (PositionedNode.node p) = SerializedNode.id (PositionedNode.node q) →
  p = q.
Proof.
  intros Hl Hnd (i & Hi)%list_elem_of_lookup (j & Hj)%list_elem_of_lookup Hid.
  pose proof (placed_ids_NoDup h T d k Hl Hnd) as Hno.
  assert (i = j); [|by simplify_eq].
  eapply (NoDup_lookup _ _ _ _ Hno); rewrite list_lookup_fmap; [by rewrite Hi|].
  rewrite Hj. simpl. by rewrite Hid.
Qed.

(** The children of a positioned node, in a tree that the store holds. *)
Lemma placed_left_child t T p q :
  Rep t T →
  p ∈ placed (heap t) T 0 0 → q ∈ placed (heap t) T 0 0 →
  SerializedNode.leftId (PositionedNode.node p)
  = Some (SerializedNode.id (PositionedNode.node q)) →
  PositionedNode.depth q = S (PositionedNode.depth p)
  ∧ PositionedNode.x q < PositionedNode.x p.
Proof.
  intros HR Hp Hq Hlink. pose proof HR as (_ & Hl & Hnd & _).
  destruct (placed_entry _ _ _ _ _ Hp) as (a & na & l & v & r & c & -> & Ha & ->).
  destruct (Rep_focus _ _ _ _ _ _ HR) as (na' & Ha' & _ & _ & Hleft & _).
  rewrite Ha in Ha'. injection Ha' as <-.
  simpl in Hlink. rewrite Hleft in Hlink.
  destruct l as [|l2 b v2 r2]; [done|].
  assert (HR' : Rep t (plug (N l2 b v2 r2) (InLeft a v r :: c))) by done.
  destruct (Rep_focus _ _ _ _ _ _ HR') as (nb & Hb & _).
  pose proof (entry_placed (heap t) l2 b v2 r2 (InLeft a v r :: c) 0 0 nb Hb) as Hq'.
  simpl plug in Hq'.
  assert (q = entry b nb l2 (InLeft a v r :: c) 0 0) as ->.
  { eapply same_id_same_entry; [done..|]. simpl in Hlink. by injection Hlink as <-. }
  unfold entry. simpl. rewrite !length_app. simpl. unfold NODE_SPACING_X. split; lia.
Qed.

Lemma placed_right_child t T p q :
  Rep t T →
  p ∈ placed (heap t) T 0 0 → q ∈ placed (heap t) T 0 0 →
  SerializedNode.rightId (PositionedNode.node p)
  = Some (SerializedNode.id (PositionedNode.node q)) →
  PositionedNode.depth q = S (PositionedNode.depth p)
  ∧ PositionedNode.x p < PositionedNode.x q.
Proof.
  intros HR Hp Hq Hlink. pose proof HR as (_ & Hl & Hnd & _).
  destruct (placed_entry _ _ _ _ _ Hp) as (a & na & l & v & r & c & -> & Ha & ->).
  destruct (Rep_focus _ _ _ _ _ _ HR) as (na' & Ha' & _ & _ & _ & Hright).
  rewrite Ha in Ha'. injection Ha' as <-.
  simpl in Hlink. rewrite Hright in Hlink.
  destruct r as [|l2 b v2 r2]; [done|].
  assert (HR' : Rep t (plug (N l2 b v2 r2) (InRight l a v :: c))) by done.
  destruct (Rep_focus _ _ _ _ _ _ HR') as (nb & Hb & _).
  pose proof (entry_placed (heap t) l2 b v2 r2 (InRight l a v :: c) 0 0 nb Hb) as Hq'.
  simpl plug in Hq'.
  assert (q = entry b nb l2 (InRight l a v :: c) 0 0) as ->.
  { eapply same_id_same_entry; [done..|]. simpl in Hlink. by injection Hlink as <-. }
  unfold entry. simpl. rewrite !length_app. simpl. unfold NODE_SPACING_X. split; lia.
Qed.

Lemma placed_child_exists t T p i :
  Rep t T →
  p ∈ placed (heap t) T 0 0 →
  SerializedNode.leftId (PositionedNode.node p) = Some i
  ∨ SerializedNode.rightId (PositionedNode.node p) = Some i →
  ∃ q, q ∈ placed (heap t) T 0 0 ∧ SerializedNode.id (PositionedNode.node q) = i.
Proof.
  intros HR Hp Hlink.
  destruct (placed_entry _ _ _ _ _ Hp) as (a & na & l & v & r & c & -> & Ha & ->).
  destruct (Rep_focus _ _ _ _ _ _ HR) as (na' & Ha' & _ & _ & Hleft & Hright).
  rewrite Ha in Ha'. injection Ha' as <-.
  simpl in Hlink. rewrite Hleft, Hright in Hlink. destruct Hlink as [Hlink|Hlink].
  - destruct l as [|l2 b v2 r2]; [done|]. simpl in Hlink. injection Hlink as <-.
    assert (HR' : Rep t (plug (N l2 b v2 r2) (InLeft a v r :: c))) by done.
    destruct (Rep_focus _ _ _ _ _ _ HR') as (nb & Hb & _).
    exists (entry b nb l2 (InLeft a v r :: c) 0 0). split; [|done].
    apply (entry_placed (heap t) l2 b v2 r2 (InLeft a v r :: c) 0 0 nb Hb).
  - destruct r as [|l2 b v2 r2]; [done|]. simpl in Hlink. injection Hlink as <-.
    assert (HR' : Rep t (plug (N l2 b v2 r2) (InRight l a v :: c))) by done.
    destruct (Rep_focus _ _ _ _ _ _ HR') as (nb & Hb & _).
    exists (entry b nb l2 (InRight l a v :: c) 0 0). split; [|done].
    apply (entry_placed (heap t) l2 b v2 r2 (InRight l a v :: c) 0 0 nb Hb).
Qed.

Lemma edgesOf_centred off ps : centred off ps ≫= edgesOf = ps ≫= edgesOf.
Proof.
  unfold centred. induction ps as [|p ps IH]; [done|].
  rewrite fmap_cons, !bind_cons, IH. done.
Qed.

Lemma elem_of_edgesOf e p :
  e ∈ edgesOf p →
  TreeEdge.sourceId e = SerializedNode.id (PositionedNode.node p)
  ∧ TreeEdge.id e = SerializedNode.id (PositionedNode.node p) +:+ "-" +:+ TreeEdge.targetId e
  ∧ (SerializedNode.leftId (PositionedNode.node p) = Some (TreeEdge.targetId e)
     ∨ SerializedNode.rightId (PositionedNode.node p) = Some (TreeEdge.targetId e)).
Proof.
  unfold edgesOf.
  destruct (truthy (SerializedNode.leftId (PositionedNode.node p))) as [l|] eqn:Hl;
    destruct (truthy (SerializedNode.rightId (PositionedNode.node p))) as [r|] eqn:Hr;
    apply truthy_Some in Hl || clear Hl; apply truthy_Some in Hr || clear Hr;
    simpl; intros He;
    repeat (apply elem_of_cons in He as [->|He]); try (by apply elem_of_nil in He);
    simpl; auto.
Qed.

Lemma length_edges_placed h p T d k :
  linked h p T →
  length (placed h T d k ≫= edgesOf) = (length (keys T) - 1)%nat.
Proof.
  revert p d k. induction T as [|l IHl a v r IHr]; intros p d k; simpl; [done|].
  intros (na & Ha & _ & _ & Hln & Hrn & Hl & Hr). rewrite Ha.
  rewrite !bind_app, !length_app, (IHl _ _ _ Hl), (IHr _ _ _ Hr).
  rewrite bind_cons. change (@nil PositionedNode.t ≫= edgesOf) with (@nil TreeEdge.t). rewrite app_nil_r. unfold edgesOf. simpl.
  rewrite Hln, Hrn. rewrite ?length_app.
  destruct l as [|l1 b1 v1 r1], r as [|l2 b2 v2 r2]; simpl;
    rewrite ?length_app; simpl; rewrite ?length_app; simpl; lia.
Qed.

(** The layout of the export of a tree: every node is positioned once, a
    left child is one level below its parent and to its left, a right child
    one level below and to its right, every edge joins a positioned node to
    a positioned child of it, and there is one edge less than there are
    nodes. *)
Lemma layout_children_Rep t T :
  Rep t T →
  ∃ L,
    computeTreeLayout (exports (heap t) T) = Some L
    ∧ PositionedNode.node <$> LayoutResult.nodes L ≡ₚ exports (heap t) T
    ∧ (∀ p q, p ∈ LayoutResult.nodes L → q ∈ LayoutResult.nodes L →
         SerializedNode.leftId (PositionedNode.node p)
         = Some (SerializedNode.id (PositionedNode.node q)) →
         PositionedNode.depth q = S (PositionedNode.depth p)
         ∧ PositionedNode.x q < PositionedNode.x p)
    ∧ (∀ p q, p ∈ LayoutResult.nodes L → q ∈ LayoutResult.nodes L →
         SerializedNode.rightId (PositionedNode.node p)
         = Some (SerializedNode.id (PositionedNode.node q)) →
         PositionedNode.depth q = S (PositionedNode.depth p)
         ∧ PositionedNode.x p < PositionedNode.x q)
    ∧ (∀ e, e ∈ LayoutResult.edges L →
         ∃ p q, p ∈ LayoutResult.nodes L ∧ q ∈ LayoutResult.nodes L
                ∧ TreeEdge.sourceId e = SerializedNode.id (PositionedNode.node p)
                ∧ TreeEdge.targetId e = SerializedNode.id (PositionedNode.node q)
                ∧ (SerializedNode.leftId (PositionedNode.node p) = Some (TreeEdge.targetId e)
                   ∨ SerializedNode.rightId (PositionedNode.node p)
                     = Some (TreeEdge.targetId e)))
    ∧ length (LayoutResult.edges L) = (length (exports (heap t) T) - 1)%nat.
Proof.
  intros HR.
  destruct (layout_of_Rep _ _ HR) as (L & HL & Hn & He).
  pose proof HR as (_ & Hl & _).
  exists L. split; [done|].
  assert (Hback : ∀ p, p ∈ LayoutResult.nodes L →
            ∃ p', p' ∈ placed (heap t) T 0 0
                  ∧ PositionedNode.node p = PositionedNode.node p'
                  ∧ PositionedNode.depth p = PositionedNode.depth p'
                  ∧ PositionedNode.x p
                    = PositionedNode.x p' - 45 * (Z.of_nat (length (keys T)) - 1)).
  { intros p Hp. rewrite Hn in Hp. apply list_elem_of_fmap in Hp as (p' & -> & Hp').
    by exists p'. }
  assert (Hforth : ∀ p', p' ∈ placed (heap t) T 0 0 →
            ∃ p, p ∈ LayoutResult.nodes L ∧ PositionedNode.node p = PositionedNode.node p').
  { intros p' Hp'. eexists. split; [rewrite Hn; apply list_elem_of_fmap; eauto|done]. }
  split; [|split; [|split; [|split]]].
  - by rewrite Hn, centred_nodes, (placed_perm _ _ _ _ _ Hl).
  - intros p q (p' & Hp' & Hpn & Hpd & Hpx)%Hback (q' & Hq' & Hqn & Hqd & Hqx)%Hback Hlink.
    rewrite Hpn, Hqn in Hlink.
    destruct (placed_left_child _ _ _ _ HR Hp' Hq' Hlink). split; [congruence|lia].
  - intros p q (p' & Hp' & Hpn & Hpd & Hpx)%Hback (q' & Hq' & Hqn & Hqd & Hqx)%Hback Hlink.
    rewrite Hpn, Hqn in Hlink.
    destruct (placed_right_child _ _ _ _ HR Hp' Hq' Hlink). split; [congruence|lia].
  - intros e Hin. rewrite He in Hin. apply list_elem_of_bind in Hin as (p & Hin & Hp).
    destruct (elem_of_edgesOf _ _ Hin) as (Hsrc & _ & Hlink).
    destruct (Hback p Hp) as (p' & Hp' & Hpn & _).
    rewrite Hpn in Hlink.
    destruct (placed_child_exists _ _ _ _ HR Hp' Hlink) as (q' & Hq' & Hid).
    destruct (Hforth q' Hq') as (q & Hq & Hqn).
    exists p, q. do 3 (split; [done|]). split; [by rewrite Hqn|]. by rewrite Hpn.
  - rewrite He, Hn, edgesOf_centred, (length_edges_placed _ _ _ _ _ Hl).
    by rewrite (length_exports _ _ _ Hl).
Qed.

Lemma lastNodes_snoc prev snaps sn : lastNodes prev (snaps ++ [sn]) = nodes sn.
Proof. unfold lastNodes. by rewrite last_snoc. Qed.

Lemma lastNodes_app prev l1 l2 :
  lastNodes prev (l1 ++ l2) = lastNodes (lastNodes prev l1) l2.
Proof.
  destruct l2 as [|sn l2 _] using rev_ind; [by rewrite app_nil_r|].
  by rewrite app_assoc, !lastNodes_snoc.
Qed.

Lemma replay_app prev l1 l2 :
  replay prev (l1 ++ l2) ↔ replay prev l1 ∧ replay (lastNodes prev l1) l2.
Proof.
  revert prev. induction l1 as [|sn l1 IH]; intros prev; simpl; [tauto|].
  rewrite IH. change (sn :: l1) with ([sn] ++ l1). rewrite lastNodes_app.
  unfold lastNodes at 3. simpl. tauto.
Qed.

Lemma record_Chain ns0 d hl s s' :
  record d hl s = Some s' → Chain ns0 s → Chain ns0 s' ∧ Synced s'.
Proof.
  unfold record. intros (ns & Hns & [= <-])%bind_Some (Hre & Hprev & Hex).
  unfold Chain, Synced. simpl. rewrite cloneNodes_id, lastNodes_snoc. simpl.
  split; [|split; [by destruct (taken s)|done]].
  split; [|split; [done|]].
  - apply replay_app. split; [done|]. simpl. by rewrite Hprev.
  - apply Forall_app. split; [done|]. apply Forall_singleton.
    split; [by exists (tree s)|]. simpl.
    intros i (Hi & _)%list_elem_of_filter. by apply elem_of_list_to_set in Hi.
Qed.

Lemma onTree_Chain ns0 f s s' :
  onTree f s = Some s' → Chain ns0 s → Chain ns0 s'.
Proof. unfold onTree. by intros (t & _ & [= <-])%bind_Some. Qed.

Lemma setColor_Chain ns0 x c s s' :
  setColor x c s = Some s' → Chain ns0 s → Chain ns0 s'.
Proof. apply onTree_Chain. Qed.

(** One step of reading a run of the recorder backwards. *)
Ltac chain_step :=
  match goal with
  | H : Some _ = Some _ |- _ => injection H as H
  | H : None = Some _ |- _ => discriminate H
  | H : (_, _) = (_, _) |- _ => injection H as H
  | H : ?x = ?y |- _ => is_var x; subst x
  | H : ?x = ?y |- _ => is_var y; subst y
  | H : _ ≫= _ = Some _ |- _ => apply bind_Some in H as (? & ? & H)
  | H : record _ _ ?s = Some _, HC : Chain _ ?s |- _ =>
      apply (record_Chain _ _ _ _ _ H) in HC as [? ?]; clear H
  | H : onTree _ ?s = Some _, HC : Chain _ ?s |- _ =>
      apply (onTree_Chain _ _ _ _ H) in HC; clear H
  | H : setColor _ _ ?s = Some _, HC : Chain _ ?s |- _ =>
      apply (setColor_Chain _ _ _ _ _ H) in HC; clear H
  | H : get _ _ _ = Some _ |- _ => clear H
  | H : getOpt _ _ _ = Some _ |- _ => clear H
  | H : isBlack _ _ = Some _ |- _ => clear H
  | H : context [let '(_, _) := ?p in _] |- _ => destruct p
  | H : (if ?b then _ else _) = Some _ |- _ => destruct b
  | H : match ?x with _ => _ end = Some _ |- _ => destruct x
  end.

Ltac chain_tac := repeat chain_step; try done.

Lemma recolorStep_Chain ns0 p u g pv s s' :
  recolorStep p u g pv s = Some s' → Chain ns0 s → Chain ns0 s' ∧ Synced s'.
Proof. unfold recolorStep. intros H HC. chain_tac. Qed.

Lemma rotateStepL_Chain ns0 n p g pv gv s n' s' :
  rotateStepL n p g pv gv s = Some (n', s') → Chain ns0 s → Chain ns0 s' ∧ Synced s'.
Proof. unfold rotateStepL. intros H HC. chain_tac. Qed.

Lemma rotateStepR_Chain ns0 n p g pv gv s n' s' :
  rotateStepR n p g pv gv s = Some (n', s') → Chain ns0 s → Chain ns0 s' ∧ Synced s'.
Proof. unfold rotateStepR. intros H HC. chain_tac. Qed.

Lemma fixInsert_Chain ns0 fuel n s s' :
  fixInsert fuel n s = Some s' → Chain ns0 s → Synced s →
  Chain ns0 s' ∧ Synced s'.
Proof.
  revert n s. induction fuel as [|fuel IH]; intros n s H HC HS; [done|].
  unfold fixInsert in H; fold fixInsert in H.
  repeat first
    [ match goal with
      | H : recolorStep _ _ _ _ ?s = Some _, HC : Chain _ ?s |- _ =>
          apply (recolorStep_Chain _ _ _ _ _ _ _ H) in HC as [? ?]; clear H
      | H : rotateStepL _ _ _ _ _ ?s = Some _, HC : Chain _ ?s |- _ =>
          apply (rotateStepL_Chain _ _ _ _ _ _ _ _ _ H) in HC as [? ?]; clear H
      | H : rotateStepR _ _ _ _ _ ?s = Some _, HC : Chain _ ?s |- _ =>
          apply (rotateStepR_Chain _ _ _ _ _ _ _ _ _ H) in HC as [? ?]; clear H
      | H : fixInsert fuel _ ?s = Some _ |- _ => by apply (IH _ _ H)
      end
    | chain_step ]; try done.
Qed.

Lemma redSiblingL_Chain ns0 p sib s o s' :
  redSiblingL p sib s = Some (o, s') → Chain ns0 s → Chain ns0 s'.
Proof. unfold redSiblingL. intros H HC. chain_tac. Qed.

Lemma redSiblingR_Chain ns0 p sib s o s' :
  redSiblingR p sib s = Some (o, s') → Chain ns0 s → Chain ns0 s'.
Proof. unfold redSiblingR. intros H HC. chain_tac. Qed.

Lemma pushUp_Chain ns0 p o s s' :
  pushUp p o s = Some s' → Chain ns0 s → Chain ns0 s'.
Proof. unfold pushUp. intros H HC. chain_tac. Qed.

Lemma finishL_Chain ns0 p o s s' :
  finishL p o s = Some s' → Chain ns0 s → Chain ns0 s'.
Proof. unfold finishL. intros H HC. chain_tac. Qed.

Lemma finishR_Chain ns0 p o s s' :
  finishR p o s = Some s' → Chain ns0 s → Chain ns0 s'.
Proof. unfold finishR. intros H HC. chain_tac. Qed.

Ltac chain_calls IH :=
  repeat first
    [ match goal with
      | H : redSiblingL _ _ ?s = Some _, HC : Chain _ ?s |- _ =>
          apply (redSiblingL_Chain _ _ _ _ _ _ H) in HC; clear H
      | H : redSiblingR _ _ ?s = Some _, HC : Chain _ ?s |- _ =>
          apply (redSiblingR_Chain _ _ _ _ _ _ H) in HC; clear H
      | H : pushUp _ _ ?s = Some _, HC : Chain _ ?s |- _ =>
          apply (pushUp_Chain _ _ _ _ _ H) in HC; clear H
      | H : finishL _ _ ?s = Some _, HC : Chain _ ?s |- _ =>
          apply (finishL_Chain _ _ _ _ _ H) in HC; clear H
      | H : finishR _ _ ?s = Some _, HC : Chain _ ?s |- _ =>
          apply (finishR_Chain _ _ _ _ _ H) in HC; clear H
      | H : bothBlack _ _ = Some _ |- _ => clear H
      | H : minimum _ _ = Some _ |- _ => clear H
      | H : fixDelete_loop _ _ _ ?s = Some _ |- _ => by apply (IH _ _ _ _ _ H)
      end
    | chain_step ]; try done.

Lemma fixDelete_loop_Chain ns0 fuel c cp s o s' :
  fixDelete_loop fuel c cp s = Some (o, s') → Chain ns0 s → Chain ns0 s'.
Proof.
  revert c cp s o s'. induction fuel as [|fuel IH]; intros c cp s o s' H HC; [done|].
  simpl in H. chain_calls IH.
Qed.

Lemma fixDelete_Chain ns0 x xp s s' :
  fixDelete x xp s = Some s' → Chain ns0 s → Chain ns0 s'.
Proof.
  unfold fixDelete. intros H HC.
  apply bind_Some in H as ([o s1] & H1 & H).
  apply (fixDelete_loop_Chain ns0) in H1; [|done]. chain_tac.
Qed.

Lemma unlink_Chain ns0 v z s c x xp s' :
  unlink v z s = Some (c, x, xp, s') → Chain ns0 s → Chain ns0 s'.
Proof. unfold unlink. intros H HC. chain_calls I. Qed.

Lemma startSession_Chain t s :
  startSession t = Some s →
  ∃ ns0, serializeTree t = Some ns0 ∧ Chain ns0 s ∧ tree s = t
         ∧ previousNodes s = ns0 ∧ taken s = [].
Proof.
  unfold startSession. intros (ns & Hns & [= <-])%bind_Some. exists ns.
  unfold Chain, lastNodes. simpl. by rewrite cloneNodes_id.
Qed.

Lemma Chain_Synced_replays ns0 s l t :
  serializeTree t = Some ns0 → Chain ns0 s → Synced s →
  replays t (mkOperation l (taken s)) (tree s).
Proof.
  intros Ht (Hre & Hprev & Hex) (Hne & HS). exists ns0. simpl. by rewrite <- Hprev.
Qed.

Lemma insert_replays v t t' op : insert v t = Some (t', op) → replays t op t'.
Proof.
  unfold insert. intros H.
  apply bind_Some in H as (s & (ns0 & Hns & HC & Ht & Hp & Htk)%startSession_Chain & H).
  apply bind_Some in H as (e & _ & H). destruct e as [e|].
  - apply bind_Some in H as (s1 & Hrec & [= <- <-]).
    destruct (record_Chain ns0 _ _ _ _ Hrec HC).
    by apply (Chain_Synced_replays ns0).
  - apply bind_Some in H as (parent & _ & H).
    apply bind_Some in H as (t1 & _ & H).
    apply bind_Some in H as (s1 & H1 & H).
    apply bind_Some in H as (s2 & H2 & H).
    apply bind_Some in H as (s3 & H3 & [= <- <-]).
    assert (Chain ns0 s1 ∧ Synced s1) as (HC1 & HS1).
    { destruct parent as [p|].
      - apply bind_Some in H1 as (pv & _ & H1). destruct (decide (v < pv)).
        + apply bind_Some in H1 as (t2 & _ & H1).
          by apply (record_Chain ns0 _ _ _ _ H1).
        + apply bind_Some in H1 as (t2 & _ & H1).
          by apply (record_Chain ns0 _ _ _ _ H1).
      - by apply (record_Chain ns0 _ _ _ _ H1). }
    destruct (fixInsert_Chain ns0 _ _ _ _ H2 HC1 HS1) as (HC2 & HS2).
    destruct (root (tree s2)) as [r|].
    + apply bind_Some in H3 as (s4 & H4 & H3).
      apply (setColor_Chain ns0) in H4; [|done].
      destruct (record_Chain ns0 _ _ _ _ H3 H4).
      by apply (Chain_Synced_replays ns0).
    + injection H3 as <-. by apply (Chain_Synced_replays ns0).
Qed.

Lemma delete_replays v t t' op : delete v t = Some (t', op) → replays t op t'.
Proof.
  unfold delete. intros H.
  apply bind_Some in H as (s & (ns0 & Hns & HC & Ht & Hp & Htk)%startSession_Chain & H).
  apply bind_Some in H as (e & _ & H). destruct e as [z|].
  - apply bind_Some in H as (s1 & H1 & H).
    destruct (record_Chain ns0 _ _ _ _ H1 HC) as (HC1 & _).
    apply bind_Some in H as ([[[c x] xp] s2] & H2 & H).
    apply (unlink_Chain ns0) in H2; [|done].
    apply bind_Some in H as (s3 & H3 & H).
    assert (HC3 : Chain ns0 s3).
    { destruct (decide (c = black)); [by apply (fixDelete_Chain ns0 _ _ _ _ H3)|].
      by injection H3 as <-. }
    apply bind_Some in H as (s4 & H4 & [= <- <-]).
    destruct (root (tree s3)) as [r|].
    + apply bind_Some in H4 as (s5 & H5 & H4).
      apply (setColor_Chain ns0) in H5; [|done].
      destruct (record_Chain ns0 _ _ _ _ H4 H5).
      by apply (Chain_Synced_replays ns0).
    + destruct (record_Chain ns0 _ _ _ _ H4 HC3).
      by apply (Chain_Synced_replays ns0).
  - apply bind_Some in H as (s1 & Hrec & [= <- <-]).
    destruct (record_Chain ns0 _ _ _ _ Hrec HC).
    by apply (Chain_Synced_replays ns0).
Qed.

Lemma run_replays cs t t' ops ns0 :
  run cs t = Some (t', ops) → serializeTree t = Some ns0 →
  replay ns0 (ops ≫= snapshots)
  ∧ serializeTree t' = Some (lastNodes ns0 (ops ≫= snapshots))
  ∧ Forall (λ op, snapshots op ≠ []) ops
  ∧ Forall serialized (ops ≫= snapshots).
Proof.
  revert t t' ops ns0. induction cs as [|c cs IH]; intros t t' ops ns0; simpl.
  - intros [= <- <-] Hns. by repeat split.
  - intros ([t1 op] & Hc & H)%bind_Some Hns.
    apply bind_Some in H as ([t2 ops'] & Hrun & [= <- <-]).
    assert (replays t op t1) as (ns & Hns' & Hre & Hne & Hlast & Hex).
    { destruct c; [by apply insert_replays in Hc|by apply delete_replays in Hc]. }
    rewrite Hns in Hns'. injection Hns' as <-.
    destruct (IH _ _ _ _ Hrun Hlast) as (Hre' & Hlast' & Hall & Hex').
    rewrite bind_cons, replay_app, lastNodes_app, Forall_app.
    repeat split; try done. by constructor.
Qed.

(** Over a whole history from the empty tree, the snapshots of all
    operations, read one after the other, follow one another: the change
    list of each snapshot is the diff between the nodes of the snapshot
    before it, across the operations, and its own nodes, the first one
    being diffed against no nodes at all.  Every operation has at least one
    snapshot, the last snapshot of the history shows the tree as it is
    now, and a snapshot highlights only nodes that it holds. *)
Theorem history_replays cs t ops :
  run cs emptyTree = Some (t, ops) →
  replay [] (ops ≫= snapshots)
  ∧ Forall (λ op, snapshots op ≠ []) ops
  ∧ serializeTree t = Some (lastNodes [] (ops ≫= snapshots))
  ∧ Forall (λ sn, ∀ i, i ∈ highlightNodeIds sn → i ∈ ids (nodes sn)) (ops ≫= snapshots).
Proof.
  intros H. destruct (run_replays _ _ _ _ [] H) as (H1 & H2 & H3 & H4); [done|].
  do 3 (split; [done|]). eapply Forall_impl; [exact H4|]. by intros sn (_ & Hh).
Qed.

Lemma history_replays_witness :
  replay [] ((outcome [Insert 10; Insert 5; Delete 10; Insert 7]).2 ≫= snapshots)
  ∧ Forall (λ op, snapshots op ≠ []) (outcome [Insert 10; Insert 5; Delete 10; Insert 7]).2
  ∧ serializeTree (outcome [Insert 10; Insert 5; Delete 10; Insert 7]).1
    = Some (lastNodes []
              ((outcome [Insert 10; Insert 5; Delete 10; Insert 7]).2 ≫= snapshots))
  ∧ Forall (λ sn, ∀ i, i ∈ highlightNodeIds sn → i ∈ ids (nodes sn))
      ((outcome [Insert 10; Insert 5; Delete 10; Insert 7]).2 ≫= snapshots).
Proof.
  apply (history_replays [Insert 10; Insert 5; Delete 10; Insert 7]).
  vm_compute. reflexivity.
Defined.

(** * Every snapshot is laid out *)

(** Below a parent every serialized record names a parent. *)
Lemma linked_has_parent h q T m :
  linked h (Some q) T → m ∈ exports h T → SerializedNode.parentId m ≠ None.
Proof.
  revert q. induction T as [|l IHl x v r IHr]; intros q; simpl.
  - by intros _ ?%elem_of_nil.
  - intros (nx & Hx & _ & Hp & _ & _ & Hl & Hr). rewrite Hx.
    intros [Hm|[Hm|Hm]%elem_of_app]%elem_of_app.
    + apply list_elem_of_singleton in Hm as ->. simpl. by rewrite Hp.
    + by apply (IHl _ Hl).
    + by apply (IHr _ Hr).
Qed.

Lemma optId_inj a b : optId a = optId b → a = b.
Proof.
  intros H. destruct a, b; try done. f_equal. apply (inj node_id).
  apply (inj Some). exact H.
Qed.

(** A traversal that ends has walked over a tree; when its records are part
    of a list with distinct identifiers in which every child names its
    parent, the parent links of the store are those of that tree. *)
Lemma traverse_shape all fuel h r ns :
  NoDup (ids all) →
  (∀ n i, n ∈ all →
     SerializedNode.leftId n = Some i ∨ SerializedNode.rightId n = Some i →
     ∃ m, m ∈ all ∧ SerializedNode.id m = i
          ∧ SerializedNode.parentId m = Some (SerializedNode.id n)) →
  traverse fuel h r = Some ns →
  (∀ n, n ∈ ns → n ∈ all) →
  ∃ T, top T = r
       ∧ ns = exports h T
       ∧ ∀ p, (∀ x n, r = Some x → h !! x = Some n → RBNode.parent n = p) → linked h p T.
Proof.
  intros Hnd Hch. revert r ns. induction fuel as [|fuel IH]; intros r ns; simpl.
  - destruct r as [x|]; [done|]. intros [= <-] _. by exists E.
  - destruct r as [x|]; [|intros [= <-] _; by exists E].
    intros (n & Hx & H)%bind_Some Hsub.
    apply bind_Some in H as (l & Hl & H). apply bind_Some in H as (rr & Hr & [= <-]).
    assert (Hin : exportNode x n ∈ all) by (apply Hsub; apply list_elem_of_here).
    destruct (IH _ _ Hl) as (Tl & Htl & -> & Hll).
    { intros m Hm. apply Hsub. apply elem_of_cons. right. apply elem_of_app. by left. }
    destruct (IH _ _ Hr) as (Tr & Htr & -> & Hlr).
    { intros m Hm. apply Hsub. apply elem_of_cons. right. apply elem_of_app. by right. }
    assert (Hchild : ∀ y ny (ms : list SerializedNode.t),
              RBNode.left n = Some y ∨ RBNode.right n = Some y →
              h !! y = Some ny → exportNode y ny ∈ ms → (∀ m, m ∈ ms → m ∈ all) →
              RBNode.parent ny = Some x).
    { intros y ny ms Hy Hny Hms Hsub'.
      destruct (Hch (exportNode x n) (node_id y) Hin) as (m & Hm & Hid & Hpar).
      { simpl. destruct Hy as [-> | ->]; [by left|by right]. }
      assert (m = exportNode y ny) as ->.
      { apply (same_id_same_node all); [done|done|by apply Hsub'|done]. }
      simpl in Hpar. by apply (optId_inj _ (Some x)). }
    exists (N Tl x (RBNode.value n) Tr). split; [done|]. split.
    { simpl. by rewrite Hx. }
    intros p Hp. simpl. exists n. split; [done|]. split; [done|].
    split; [by apply (Hp x)|]. split; [done|]. split; [done|]. split.
    + apply Hll. intros y ny Hy Hny. rewrite Hy in Htl.
      destruct Tl as [|l1 y1 v1 r1]; [done|]. injection Htl as ->.
      apply (Hchild y ny (exports h (N l1 y v1 r1))); [by left|done| |].
      * simpl. rewrite Hny. apply list_elem_of_here.
      * intros m Hm. apply Hsub. apply elem_of_cons. right. apply elem_of_app. by left.
    + apply Hlr. intros y ny Hy Hny. rewrite Hy in Htr.
      destruct Tr as [|l1 y1 v1 r1]; [done|]. injection Htr as ->.
      apply (Hchild y ny (exports h (N l1 y v1 r1))); [by right|done| |].
      * simpl. rewrite Hny. apply list_elem_of_here.
      * intros m Hm. apply Hsub. apply elem_of_cons. right. apply elem_of_app. by right.
Qed.

(** A well-formed list that the serializer returned is the export of a
    tree. *)
Lemma export_is_tree t ns :
  serializeTree t = Some ns → wellFormedExport ns →
  ∃ T, linked (heap t) None T ∧ NoDup (keys T) ∧ ns = exports (heap t) T.
Proof.
  unfold serializeTree. intros Htr (Hnd & Hch & Hroot).
  destruct (traverse_shape ns _ _ _ _ Hnd Hch Htr) as (T & Htop & -> & Hl); [done|].
  exists T.
  assert (Hlinked : linked (heap t) None T).
  { apply Hl. intros x n Hx Hn. rewrite Hx in Htop.
    destruct T as [|l x1 v r]; [done|]. injection Htop as ->.
    destruct (Hroot) as (r0 & Hr0 & Hpar & _).
    { simpl. rewrite Hn. done. }
    assert (Hl' : linked (heap t) (RBNode.parent n) (N l x v r)).
    { apply Hl. intros x' n' Hx' Hn'. rewrite Hx in Hx'. injection Hx' as <-. congruence. }
    simpl in Hl'. destruct Hl' as (n' & Hn' & _ & _ & _ & _ & Hll & Hlr).
    simpl in Hr0. rewrite Hn in Hr0.
    apply elem_of_app in Hr0 as [Hr0|[Hr0|Hr0]%elem_of_app].
    - apply list_elem_of_singleton in Hr0 as ->. simpl in Hpar.
      by destruct (RBNode.parent n).
    - by destruct (linked_has_parent _ _ _ _ Hll Hr0).
    - by destruct (linked_has_parent _ _ _ _ Hlr Hr0). }
  split; [done|]. split; [|done].
  rewrite <- preorder_keys. apply (NoDup_fmap_1 node_id).
  by rewrite <- (ids_exports _ _ _ Hlinked).
Qed.

(** A tree in a store is the tree of a tree object. *)
Lemma linked_Rep h T :
  linked h None T → NoDup (keys T) →
  Rep (mkTree h (top T) (S (foldr max 0%nat (keys T)))) T.
Proof.
  intros Hl Hnd. split; [done|]. split; [done|]. split; [done|]. simpl.
  generalize (keys T). intros ks x Hx.
  induction ks as [|k ks IH]; [by apply elem_of_nil in Hx|].
  simpl. apply elem_of_cons in Hx as [->|Hx]; [lia|]. specialize (IH Hx). lia.
Qed.

(** Over a whole history from the empty tree, for every snapshot that was
    recorded, those taken in the middle of a rebalancing included, the
    layout of its nodes is computed and positions every node of the
    snapshot once; a left child is one level below its parent and to its
    left, a right child one level below and to its right; every edge joins
    a positioned node to a positioned child of it, and there is one edge
    less than there are nodes. *)
Theorem every_snapshot_is_laid_out cs t ops :
  run cs emptyTree = Some (t, ops) →
  Forall (λ sn, ∃ L,
      computeTreeLayout (nodes sn) = Some L
      ∧ PositionedNode.node <$> LayoutResult.nodes L ≡ₚ nodes sn
      ∧ (∀ p q, p ∈ LayoutResult.nodes L → q ∈ LayoutResult.nodes L →
           SerializedNode.leftId (PositionedNode.node p)
           = Some (SerializedNode.id (PositionedNode.node q)) →
           PositionedNode.depth q = S (PositionedNode.depth p)
           ∧ PositionedNode.x q < PositionedNode.x p)
      ∧ (∀ p q, p ∈ LayoutResult.nodes L → q ∈ LayoutResult.nodes L →
           SerializedNode.rightId (PositionedNode.node p)
           = Some (SerializedNode.id (PositionedNode.node q)) →
           PositionedNode.depth q = S (PositionedNode.depth p)
           ∧ PositionedNode.x p < PositionedNode.x q)
      ∧ (∀ e, e ∈ LayoutResult.edges L →
           ∃ p q, p ∈ LayoutResult.nodes L ∧ q ∈ LayoutResult.nodes L
                  ∧ TreeEdge.sourceId e = SerializedNode.id (PositionedNode.node p)
                  ∧ TreeEdge.targetId e = SerializedNode.id (PositionedNode.node q)
                  ∧ (SerializedNode.leftId (PositionedNode.node p)
                     = Some (TreeEdge.targetId e)
                     ∨ SerializedNode.rightId (PositionedNode.node p)
                       = Some (TreeEdge.targetId e)))
      ∧ length (LayoutResult.edges L) = (length (nodes sn) - 1)%nat)
    (ops ≫= snapshots).
Proof.
  intros Hrun.
  destruct (run_replays _ _ _ _ [] Hrun) as (_ & _ & _ & Hex); [done|].
  destruct (run_total cs emptyTree Inv_empty) as (t' & ops' & Hrun' & _ & Hok).
  rewrite Hrun in Hrun'. injection Hrun' as <- <-.
  apply Forall_forall. intros sn Hsn.
  rewrite Forall_forall in Hex. destruct (Hex sn Hsn) as ((t0 & Ht0) & _).
  apply list_elem_of_bind in Hsn as (op & Hsn & Hop).
  rewrite Forall_forall in Hok. specialize (Hok op Hop).
  rewrite Forall_forall in Hok. specialize (Hok sn Hsn).
  destruct (export_is_tree _ _ Ht0 Hok) as (T & Hl & Hnd & Hns).
  pose proof (layout_children_Rep _ _ (linked_Rep _ _ Hl Hnd)) as HL.
  simpl in HL. rewrite <- Hns in HL. exact HL.
Qed.

Lemma every_snapshot_is_laid_out_witness :
  Forall (λ sn, ∃ L,
      computeTreeLayout (nodes sn) = Some L
      ∧ PositionedNode.node <$> LayoutResult.nodes L ≡ₚ nodes sn
      ∧ (∀ p q, p ∈ LayoutResult.nodes L → q ∈ LayoutResult.nodes L →
           SerializedNode.leftId (PositionedNode.node p)
           = Some (SerializedNode.id (PositionedNode.node q)) →
           PositionedNode.depth q = S (PositionedNode.depth p)
           ∧ PositionedNode.x q < PositionedNode.x p)
      ∧ (∀ p q, p ∈ LayoutResult.nodes L → q ∈ LayoutResult.nodes L →
           SerializedNode.rightId (PositionedNode.node p)
           = Some (SerializedNode.id (PositionedNode.node q)) →
           PositionedNode.depth q = S (PositionedNode.depth p)
           ∧ PositionedNode.x p < PositionedNode.x q)
      ∧ (∀ e, e ∈ LayoutResult.edges L →
           ∃ p q, p ∈ LayoutResult.nodes L ∧ q ∈ LayoutResult.nodes L
                  ∧ TreeEdge.sourceId e = SerializedNode.id (PositionedNode.node p)
                  ∧ TreeEdge.targetId e = SerializedNode.id (PositionedNode.node q)
                  ∧ (SerializedNode.leftId (PositionedNode.node p)
                     = Some (TreeEdge.targetId e)
                     ∨ SerializedNode.rightId (PositionedNode.node p)
                       = Some (TreeEdge.targetId e)))
      ∧ length (LayoutResult.edges L) = (length (nodes sn) - 1)%nat)
    ((outcome [Insert 10; Insert 20; Insert 30; Delete 20]).2 ≫= snapshots).
Proof.
  apply (every_snapshot_is_laid_out [Insert 10; Insert 20; Insert 30; Delete 20]
           (outcome [Insert 10; Insert 20; Insert 30; Delete 20]).1).
  vm_compute. reflexivity.
Defined.

(** * The tree as a set of values *)

Lemma has_Rep t T w :
  Rep t T → bst T → has w t = Some (bool_decide (w ∈ vals T)).
Proof.
  intros HR Hb. unfold has. destruct (decide (w ∈ vals T)) as [Hw|Hw].
  - destruct (find_present w t T HR Hb Hw) as (zl & z & zr & c & -> & _). simpl.
    by rewrite (bool_decide_true (w ∈ vals T)).
  - rewrite (find_missing w t T HR Hw). simpl.
    by rewrite (bool_decide_false (w ∈ vals T)).
Qed.

Lemma has_Inv t T w :
  Rep t T → Inv t → has w t = Some (bool_decide (w ∈ vals T)).
Proof.
  intros HR (T' & HR' & Hb'). rewrite (has_Rep _ _ w HR' Hb').
  pose proof (inorderValues_Rep _ _ HR) as H1.
  rewrite (inorderValues_Rep _ _ HR') in H1. by injection H1 as ->.
Qed.

Lemma sorted_middle_absent (l1 l2 : list Z) v :
  StronglySorted Z.lt (l1 ++ v :: l2) → v ∉ l1 ++ l2.
Proof.
  intros (H12 & _ & H2)%StronglySorted_app.
  apply StronglySorted_inv in H2 as (_ & Hle).
  intros [Hin|Hin]%elem_of_app.
  - specialize (H12 v v Hin (list_elem_of_here _ _)). lia.
  - rewrite Forall_forall in Hle. specialize (Hle v Hin). lia.
Qed.

(** After any sequence of calls the tree behaves as a set of values: after
    [insert(v)], [has(v)] is true; after [delete(v)], [has(v)] is false;
    and neither call changes [has(w)] for another value [w].  This covers
    the cancelled calls (a value inserted twice, an absent value deleted)
    as well. *)
Theorem has_after_call cs t ops c w :
  run cs emptyTree = Some (t, ops) →
  ∃ t' op b,
    call c t = Some (t', op)
    ∧ has w t = Some b
    ∧ has w t' = Some (match c with
                       | Insert v => bool_decide (w = v) || b
                       | Delete v => bool_decide (w ≠ v) && b
                       end).
Proof.
  intros HI%reachable_Inv. pose proof HI as (T & HR & Hb).
  destruct (call_Inv c t HI) as (t' & op & Hcall & HI' & _).
  exists t', op, (bool_decide (w ∈ vals T)).
  split; [done|]. split; [by apply has_Rep|].
  destruct c as [v|v]; simpl in Hcall.
  - destruct (decide (v ∈ vals T)) as [Hv|Hv].
    + destruct (find_present v t T HR Hb Hv) as (zl & z & zr & c & Hfind & ->).
      rewrite (insert_present v t zl z zr c HR Hfind) in Hcall. injection Hcall as <- _.
      rewrite (has_Rep _ _ w HR Hb). f_equal.
      destruct (decide (w = v)) as [->|Hne].
      * by rewrite (bool_decide_true (v = v)), (bool_decide_true _ Hv).
      * by rewrite (bool_decide_false (w = v)).
    + destruct (insert_fresh v t T HR (find_missing v t T HR Hv))
        as (c & t1 & op1 & T' & sn & rest & <- & _ & Hins & HR' & _ & Hv' & _).
      rewrite Hins in Hcall. injection Hcall as -> ->.
      rewrite (has_Inv _ _ w HR' HI'), Hv', !vals_plug. simpl. f_equal.
      rewrite <- bool_decide_or. apply bool_decide_ext.
      rewrite !elem_of_app, elem_of_cons. tauto.
  - destruct (decide (v ∈ vals T)) as [Hv|Hv].
    + destruct (find_present v t T HR Hb Hv) as (zl & z & zr & c & Hfind & ->).
      destruct (delete_present v t zl z zr c HR Hfind)
        as (t1 & op1 & T' & sn & rest & Hdel & HR' & _ & Hv' & _).
      rewrite Hdel in Hcall. injection Hcall as -> ->.
      rewrite (has_Inv _ _ w HR' HI'), Hv', !vals_plug. simpl. f_equal.
      unfold bst in Hb. rewrite vals_plug in Hb. simpl in Hb.
      assert (Hb' : StronglySorted Z.lt
                      ((vbefore c ++ vals zl) ++ v :: (vals zr ++ vafter c))).
      { by rewrite <- !app_assoc in *. }
      apply sorted_middle_absent in Hb'.
      rewrite <- bool_decide_and. apply bool_decide_ext.
      rewrite !elem_of_app in Hb'. rewrite !elem_of_app, elem_of_cons.
      split; [|tauto]. intros Hw. split; [|tauto]. intros ->. tauto.
    + rewrite (delete_absent v t T HR (find_missing v t T HR Hv)) in Hcall.
      injection Hcall as <- _.
      rewrite (has_Rep _ _ w HR Hb). f_equal.
      destruct (decide (w = v)) as [->|Hne].
      * by rewrite (bool_decide_false _ Hv), andb_false_r.
      * by rewrite (bool_decide_true (w ≠ v)).
Qed.

Lemma has_after_call_witness :
  ∃ t' op b,
    call (Delete 10) (outcome [Insert 10; Insert 30]).1 = Some (t', op)
    ∧ has 30 (outcome [Insert 10; Insert 30]).1 = Some b
    ∧ has 30 t' = Some (bool_decide (30 ≠ 10) && b).
Proof.
  apply (has_after_call [Insert 10; Insert 30] _ (outcome [Insert 10; Insert 30]).2
           (Delete 10) 30).
  vm_compute. reflexivity.
Defined.

Lemma truthy_idem o i : truthy o = Some i → truthy (Some i) = Some i.
Proof.
  destruct o as [s|]; simpl; [|done]. destruct (decide (s = "")); [done|].
  intros [= <-]. simpl. by rewrite decide_False.
Qed.

(** A recursion that uses up its fuel has gone down a way as long as the
    fuel. *)
Lemma assignCoordinates_None fuel byId o d st :
  assignCoordinates fuel byId o d st = None →
  ∃ i l, truthy o = Some i ∧ is_Some (byId !! i) ∧ walk byId i l ∧ length l = fuel.
Proof.
  revert o d st. induction fuel as [|fuel IH]; intros o d st; simpl.
  - destruct (truthy o) as [i|]; [|done]. destruct (byId !! i) as [n|] eqn:Hi; [|done].
    intros _. exists i, []. by rewrite Hi.
  - destruct (truthy o) as [i|]; [|done]. destruct (byId !! i) as [n|] eqn:Hi; [|done].
    intros H.
    destruct (assignCoordinates fuel byId (SerializedNode.leftId n) (S d) st)
      as [st1|] eqn:Hleft; simpl in H.
    + destruct (IH _ _ _ H) as (j & l & Hj & Hin & Hw & Hlen).
      exists i, (j :: l). rewrite Hi. simpl. repeat split; eauto.
      exists n. eauto.
    + destruct (IH _ _ _ Hleft) as (j & l & Hj & Hin & Hw & Hlen).
      exists i, (j :: l). rewrite Hi. simpl. repeat split; eauto.
      exists n. eauto.
Qed.

(** A way longer than the map has nodes comes back to one of them. *)
Lemma walk_cycle byId i0 l i (V : gset string) :
  rtc (link byId) i0 i →
  (∀ v, v ∈ V → tc (link byId) v i) →
  (∀ v, v ∈ V → is_Some (byId !! v)) →
  is_Some (byId !! i) →
  walk byId i l →
  (size byId ≤ size V + length l)%nat →
  ∃ j, rtc (link byId) i0 j ∧ tc (link byId) j j.
Proof.
  revert i V. induction l as [|j l IH]; intros i V Hreach HV Hdom Hi Hw Hsize.
  - destruct (decide (i ∈ V)) as [Hin|Hin]; [exists i; split; [done|by apply HV]|].
    exfalso.
    assert (Hsub : {[ i ]} ∪ V ⊆ dom byId).
    { intros v [->%elem_of_singleton|Hv]%elem_of_union; apply elem_of_dom; auto. }
    apply subseteq_size in Hsub. rewrite size_union, size_singleton, size_dom in Hsub.
    + simpl in Hsize. lia.
    + set_solver.
  - destruct (decide (i ∈ V)) as [Hin|Hin]; [exists i; split; [done|by apply HV]|].
    destruct Hw as (Hlink & Hw).
    apply (IH j ({[ i ]} ∪ V)).
    + eapply rtc_r; eauto.
    + intros v [->%elem_of_singleton|Hv]%elem_of_union.
      * by apply tc_once.
      * eapply tc_r; [by apply HV|done].
    + intros v [->%elem_of_singleton|Hv]%elem_of_union; auto.
    + by destruct Hlink as (? & _ & _ & ?).
    + done.
    + rewrite size_union, size_singleton by set_solver. simpl in Hsize. lia.
Qed.

Lemma tc_first {A} (R : relation A) x z : tc R x z → ∃ y, R x y ∧ rtc R y z.
Proof.
  intros H. destruct H as [x y H|x y z H H'].
  - exists y. split; [done|apply rtc_refl].
  - exists y. split; [done|by apply tc_rtc].
Qed.

Lemma doomed_step byId i : doomed byId i → ∃ k, link byId i k ∧ doomed byId k.
Proof.
  intros (j & Hij & Hjj). apply rtc_inv in Hij as [->|(k & Hik & Hkj)].
  - destruct (tc_first _ _ _ Hjj) as (k & Hjk & Hkj). exists k. split; [done|].
    by exists j.
  - exists k. split; [done|]. by exists j.
Qed.

Lemma assignCoordinates_truthy fuel byId o k d st :
  truthy o = Some k →
  assignCoordinates fuel byId o d st = assignCoordinates fuel byId (Some k) d st.
Proof.
  intros Hk. pose proof (truthy_idem _ _ Hk) as Hk'.
  destruct fuel; cbn [assignCoordinates]; by rewrite Hk, Hk'.
Qed.

(** On a way that leads into a circle the recursion uses up any fuel. *)
Lemma assignCoordinates_doomed byId fuel i d st :
  doomed byId i → truthy (Some i) = Some i →
  assignCoordinates fuel byId (Some i) d st = None.
Proof.
  revert i d st. induction fuel as [|fuel IH]; intros i d st Hd Hi;
    destruct (doomed_step _ _ Hd) as (k & (n & Hn & Hk & _) & Hdk);
    cbn [assignCoordinates]; rewrite Hi, Hn; [done|].
  destruct Hk as [Hk|Hk].
  - rewrite (assignCoordinates_truthy _ _ _ _ _ _ Hk), IH; [done|done|].
    by apply truthy_idem in Hk.
  - destruct (assignCoordinates fuel byId (SerializedNode.leftId n) (S d) st)
      as [st1|]; [|done].
    cbn [mbind option_bind].
    rewrite (assignCoordinates_truthy _ _ _ _ _ _ Hk), IH; [done|done|].
    by apply truthy_idem in Hk.
Qed.

Lemma size_nodeMap ns : (size (nodeMap ns) ≤ length ns)%nat.
Proof.
  unfold nodeMap.
  assert (H : ∀ m : gmap string SerializedNode.t,
            (size (foldl (λ m n, <[SerializedNode.id n := n]> m) m ns)
             ≤ size m + length ns)%nat).
  { induction ns as [|n ns IH]; intros m; simpl; [lia|].
    etrans; [apply IH|].
    destruct (m !! SerializedNode.id n) eqn:Hm.
    - rewrite map_size_insert_Some by done. lia.
    - rewrite map_size_insert_None by done. lia. }
  specialize (H ∅). by rewrite map_size_empty in H.
Qed.

(** [computeTreeLayout] returns a layout for every list of nodes, but for
    those in which the recursion, on its way from the identifier it starts
    with, gets to a node that it reaches again from itself through child
    links: on these, and only on these, its recursion does not end. *)
Theorem layout_fails_only_on_circles nodes :
  computeTreeLayout nodes = None
  ↔ ∃ i j, startId nodes = Some i
           ∧ rtc (link (nodeMap nodes)) i j
           ∧ tc (link (nodeMap nodes)) j j.
Proof.
  unfold computeTreeLayout, startId.
  destruct nodes as [|first rest]; [split; [done|by intros (? & ? & ? & _)]|].
  set (nodes := first :: rest).
  generalize (match
                head (filter (λ n, truthy (SerializedNode.parentId n) = None
                                   ∧ SerializedNode.id n ∉ foldl visitLinks ∅ nodes) nodes)
              with
              | Some r => SerializedNode.id r
              | None => SerializedNode.id first
              end).
  intros rootId. cbv zeta.
  destruct (truthy (Some rootId)) as [i|] eqn:Hroot.
  - pose proof (truthy_idem _ _ Hroot) as Hi. split.
    + intros H.
      destruct (assignCoordinates (length nodes) (nodeMap nodes) (Some i) 0 (0%nat, []))
        as [[k ps]|] eqn:Hassign.
      { cbn [mbind option_bind] in H. by destruct ps. }
      destruct (assignCoordinates_None _ _ _ _ _ Hassign) as (i' & l & Hi' & Hin & Hw & Hlen).
      rewrite Hi in Hi'. injection Hi' as <-.
      destruct (walk_cycle (nodeMap nodes) i l i ∅) as (j & Hij & Hjj); try done.
      * rewrite size_empty, Hlen. apply size_nodeMap.
      * by exists i, j.
    + intros (i' & j & [= <-] & Hij & Hjj).
      rewrite (assignCoordinates_doomed _ _ i); [done| |done]. by exists j.
  - split; [|by intros (? & ? & ? & _)]. simpl. done.
Qed.
